(** * The hand-written CNN of q1.py: layers, training step and data split

    A shallow embedding of [q1.py] and the properties of its layers.

    - A numpy array is its shape together with its row-major buffer.
      The float64 entries of arrays are idealised as real numbers: every
      statement about a layer is about exact arithmetic, there is no rounding,
      no infinity and no NaN ([x / 0] and [ln x] for [x <= 0] are the values
      of the total functions of the real numbers there, where numpy warns and
      answers [inf] or [nan]).
    - One float is not idealised: the product [num_samples * train_ratio] of
      [split_data], whose floor is the number of train samples and depends on
      how the product is rounded.  It is a binary64 number, multiplied as
      IEEE 754 says (round to nearest, ties to even), with the operations of
      the library's [SpecFloat].
      Every array is an array of floats, as every array of the script is
      ([train] divides the image by 255 before the first layer sees it):
      [np.zeros_like] of an array of integers would be an array of integers,
      and a store into it would truncate.
    - A call that raises in Python answers [None].  Of numpy the fragment the
      script exercises is modelled: indexing with non-negative indices,
      two-dimensional slices, [np.dot] of two-dimensional arrays, elementwise
      operations between arrays of one shape and between an array and a
      scalar.  Where numpy would broadcast other unequal shapes, or would
      accept an array of more dimensions, the model also answers [None]; the
      shapes of the docstrings never get there.
    - A layer object is a record of its attributes; [forward] and [backward]
      take the object and return it after the call.  The script never gives
      one object two places in [layers], and no array that is updated in place
      (the parameters, the freshly allocated gradients) is reachable from a
      cache or from the output of a layer, so arrays are values here.
    - [np.random] is a state the program threads through its calls.  The
      integer draws behind [np.random.permutation] and [np.random.choice] are
      modelled; the float draws of the constructors ([np.random.randn],
      [np.random.random]) are parameters of the model, of which only the
      shape of what they return is used.  In the statements about single
      layers the parameters of a layer are arbitrary arrays of the shapes the
      constructors give them.
    - The script is modelled from the line after [pkl.load]: the data set is
      a list of images and a list of labels, and what [print] writes is the
      list of the arguments of the format strings. *)

From Stdlib Require Import Reals Lra Lia ZifyNat ZArith SpecFloat.
From stdpp Require Import base option list gmap.

(** ** Arrays *)

Record ndarray := NdArray { shape : list nat; data : list R }.

(** Number of cells of an array of shape [sh]. *)
Definition numel (sh : list nat) : nat := foldr Nat.mul 1 sh.

(** The buffer has as many cells as the shape says. *)
Definition valid (a : ndarray) : Prop := length (data a) = numel (shape a).

(** Row-major offset of a full multi-index; [None] is numpy's IndexError. *)
Fixpoint offset (sh idx : list nat) (acc : nat) : option nat :=
  match sh, idx with
  | [], [] => Some acc
  | n :: sh', i :: idx' =>
      if decide (i < n) then offset sh' idx' (acc * n + i) else None
  | _, _ => None
  end.

(** [a[i0, ..., ik]] read as a scalar. *)
Definition get (a : ndarray) (idx : list nat) : option R :=
  o ← offset (shape a) idx 0; data a !! o.

(** [a[i0, ..., ik] = v]. *)
Definition set (a : ndarray) (idx : list nat) (v : R) : option ndarray :=
  o ← offset (shape a) idx 0;
  guard (o < length (data a));;
  Some (NdArray (shape a) (<[o := v]> (data a))).

(** [a[f]]: the sub-array at index [f] of the first axis. *)
Definition getitem (a : ndarray) (f : nat) : option ndarray :=
  match shape a with
  | n :: rest =>
      guard (f < n);;
      Some (NdArray rest (take (numel rest) (drop (f * numel rest) (data a))))
  | [] => None
  end.

(** [a[f] = b] for [b] of the shape of [a[f]]. *)
Definition setitem (a : ndarray) (f : nat) (b : ndarray) : option ndarray :=
  match shape a with
  | n :: rest =>
      guard (f < n);;
      guard (shape b = rest);;
      Some (NdArray (shape a)
              (take (f * numel rest) (data a) ++ take (numel rest) (data b)
               ++ drop (f * numel rest + numel rest) (data a)))
  | [] => None
  end.

(** [a[r0:r1, c0:c1]] of a two-dimensional array; slice bounds are clipped to
    the array as Python does. *)
Definition slice2 (a : ndarray) (r0 r1 c0 c1 : nat) : option ndarray :=
  match shape a with
  | [h; w] =>
      let r0' := r0 `min` h in let r1' := r1 `min` h in
      let c0' := c0 `min` w in let c1' := c1 `min` w in
      Some (NdArray [r1' - r0'; c1' - c0']
              (flat_map (fun r => take (c1' - c0') (drop (r * w + c0') (data a)))
                        (seq r0' (r1' - r0'))))
  | _ => None
  end.

(** Elementwise [op] of two arrays of one shape. *)
Definition map2 (op : R -> R -> R) (a b : ndarray) : option ndarray :=
  guard (shape a = shape b);;
  Some (NdArray (shape a) (zip_with op (data a) (data b))).

(** Elementwise [f], also an operation between an array and a scalar. *)
Definition smap (f : R -> R) (a : ndarray) : ndarray :=
  NdArray (shape a) (f <$> data a).

(** Python's [for i in range(n)] over a state, stopping at the first raise. *)
Fixpoint for_each {St : Type} (l : list nat) (body : nat -> St -> option St)
    (s : St) : option St :=
  match l with
  | [] => Some s
  | i :: l' => s' ← body i s; for_each l' body s'
  end.

Definition for_range {St : Type} (n : nat) (body : nat -> St -> option St)
    (s : St) : option St :=
  for_each (seq 0 n) body s.

(** Index of the first maximum of a list, scanning left to right. *)
Fixpoint argmax_from (best : R) (besti i : nat) (l : list R) : nat :=
  match l with
  | [] => besti
  | x :: l' =>
      if Rlt_dec best x then argmax_from x i (S i) l'
      else argmax_from best besti (S i) l'
  end.

Module np.

Definition zeros (sh : list nat) : ndarray :=
  NdArray sh (replicate (numel sh) 0%R).

Definition zeros_like (a : ndarray) : ndarray := zeros (shape a).

Definition sum (a : ndarray) : R := foldr Rplus 0%R (data a).

Definition exp (a : ndarray) : ndarray := smap Rtrigo_def.exp a.

Definition log (a : ndarray) : ndarray := smap ln a.

(** [np.maximum(a, c)] for a scalar [c]. *)
Definition maximum (a : ndarray) (c : R) : ndarray := smap (fun x => Rmax x c) a.

(** [a.reshape(sh)]; ValueError when the sizes differ. *)
Definition reshape (a : ndarray) (sh : list nat) : option ndarray :=
  guard (length (data a) = numel sh);;
  Some (NdArray sh (data a)).

(** [a.flatten()]: a one-dimensional copy in row-major order. *)
Definition flatten (a : ndarray) : ndarray :=
  NdArray [length (data a)] (data a).

(** [np.max(a, axis=0)]: the maximum over the first axis, cell by cell of the
    remaining axes; ValueError on an empty first axis. *)
Definition max_axis0 (a : ndarray) : option ndarray :=
  match shape a with
  | S n :: rest =>
      r0 ← getitem a 0;
      for_range n (fun i m => r ← getitem a (S i); map2 Rmax m r) r0
  | _ => None
  end.

(** [a - m] where [m] has the shape of [a[0]]: the one broadcast the script
    relies on, [m] being repeated along the first axis. *)
Definition sub_axis0 (a m : ndarray) : option ndarray :=
  match shape a with
  | n :: rest =>
      guard (shape m = rest);;
      Some (NdArray (shape a)
              (flat_map (fun i => zip_with Rminus
                                    (take (numel rest)
                                       (drop (i * numel rest) (data a)))
                                    (data m))
                        (seq 0 n)))
  | [] => None
  end.

(** [np.argmax(a)]: flat index of the first maximum; ValueError when empty. *)
Definition argmax (a : ndarray) : option nat :=
  match data a with
  | [] => None
  | x :: l => Some (argmax_from x 0 1 l)
  end.

(** [np.unravel_index(n, (h, w))]; ValueError when out of bounds. *)
Definition unravel_index (n h w : nat) : option (nat * nat) :=
  guard (n < h * w);;
  Some (n / w, n mod w).

(** [np.pad(a, p)] of a two-dimensional array: [p] zeros on every side. *)
Definition pad (a : ndarray) (p : nat) : option ndarray :=
  match shape a with
  | [h; w] =>
      let w' := p + w + p in
      Some (NdArray [p + h + p; w']
              (replicate (p * w') 0%R
               ++ flat_map (fun r => replicate p 0%R
                                       ++ take w (drop (r * w) (data a))
                                       ++ replicate p 0%R)
                           (seq 0 h)
               ++ replicate (p * w') 0%R))
  | _ => None
  end.

(** [np.rot90(a, 2)] of a two-dimensional array: both axes reversed. *)
Definition rot180 (a : ndarray) : option ndarray :=
  match shape a with
  | [h; w] =>
      Some (NdArray [h; w]
              (flat_map (fun r => reverse (take w (drop (r * w) (data a))))
                        (reverse (seq 0 h))))
  | _ => None
  end.


(** [np.max(a)] over all cells; ValueError when empty. *)
Definition max (a : ndarray) : option R :=
  match data a with
  | [] => None
  | x :: l => Some (foldl Rmax x l)
  end.

(** [a.T] of a two-dimensional array. *)
Definition T (a : ndarray) : option ndarray :=
  match shape a with
  | [n; m] =>
      Some (NdArray [m; n]
              (flat_map (fun j => (fun i => nth (i * m + j) (data a) 0%R)
                                    <$> seq 0 n)
                        (seq 0 m)))
  | _ => None
  end.

(** [np.dot(a, b)] (also [a @ b]) of two-dimensional arrays; ValueError when
    the inner sizes differ. *)
Definition dot (a b : ndarray) : option ndarray :=
  match shape a, shape b with
  | [n; p], [p'; m] =>
      guard (p = p');;
      Some (NdArray [n; m]
              (flat_map (fun i =>
                 (fun j => foldr Rplus 0%R
                             ((fun l => (nth (i * p + l) (data a) 0
                                         * nth (l * m + j) (data b) 0)%R)
                                <$> seq 0 p))
                   <$> seq 0 m)
                 (seq 0 n)))
  | _, _ => None
  end.

End np.

(** ** Layers

    Every layer object is a record of its parameters and of what its last
    [forward] cached; a cache that was never written is [None] (the attribute
    does not exist yet).  [forward] and [backward] return the object after the
    call next to the result. *)

Module ConvolutionLayer.

Record t := Build {
  num_filters : nat;
  filter_size : nat;
  conv_filter : ndarray;
  bias : ndarray;
  input : option ndarray
}.

Definition forward (self : t) (input : ndarray) : option (t * ndarray) :=
  let self := Build (num_filters self) (filter_size self) (conv_filter self)
                (bias self) (Some input) in
  match shape input with
  | [height; width] =>
      (* np.zeros refuses a negative dimension *)
      guard (filter_size self ≤ height + 1);;
      guard (filter_size self ≤ width + 1);;
      let output_height := height + 1 - filter_size self in
      let output_width := width + 1 - filter_size self in
      let output := np.zeros [num_filters self; output_height; output_width] in
      output ← for_range (num_filters self) (fun f output =>
        for_range output_height (fun i output =>
          for_range output_width (fun j output =>
            patch ← slice2 input i (i + filter_size self)
                      j (j + filter_size self);
            kernel ← getitem (conv_filter self) f;
            prod ← map2 Rmult patch kernel;
            b ← get (bias self) [f];
            set output [f; i; j] (np.sum prod + b)%R) output) output) output;
      Some (self, output)
  | _ => None
  end.

(** The body of [for f in range(self.num_filters)] in [backward], on the
    three accumulators. *)
Definition backward_filter (self : t) (X output_error : ndarray) (f : nat)
    (acc : ndarray * ndarray * ndarray) : option (ndarray * ndarray * ndarray) :=
  let '(input_error, filter_error, bias_error) := acc in
  match shape output_error, shape X with
  | [_; oh; ow], [h; w] =>
      oe_f ← getitem output_error f;
      guard (0 < filter_size self);;
      padded_output_error ← np.pad oe_f (filter_size self - 1);
      input_error ← for_range h (fun i input_error =>
        for_range w (fun j input_error =>
          win ← slice2 padded_output_error i (i + filter_size self)
                  j (j + filter_size self);
          kernel ← getitem (conv_filter self) f;
          rot ← np.rot180 kernel;
          prod ← map2 Rmult win rot;
          old ← get input_error [i; j];
          set input_error [i; j] (old + np.sum prod)%R) input_error)
        input_error;
      for_range oh (fun i acc =>
        for_range ow (fun j '(filter_error, bias_error) =>
          patch ← slice2 X i (i + filter_size self) j (j + filter_size self);
          g ← get output_error [f; i; j];
          fe_f ← getitem filter_error f;
          fe_f ← map2 Rplus fe_f (smap (fun x => x * g)%R patch);
          filter_error ← setitem filter_error f fe_f;
          old ← get bias_error [f];
          bias_error ← set bias_error [f] (old + g)%R;
          Some (filter_error, bias_error)) acc)
        (filter_error, bias_error)
      ≫= fun '(filter_error, bias_error) =>
           Some (input_error, filter_error, bias_error)
  | _, _ => None
  end.

Definition backward (self : t) (output_error : ndarray) (learning_rate : R)
    : option (t * ndarray) :=
  X ← input self;
  let input_error := np.zeros_like X in
  let filter_error := np.zeros_like (conv_filter self) in
  let bias_error := np.zeros_like (bias self) in
  '(input_error, filter_error, bias_error) ←
    for_range (num_filters self) (backward_filter self X output_error)
      (input_error, filter_error, bias_error);
  conv_filter' ← map2 Rminus (conv_filter self)
                   (smap (Rmult learning_rate) filter_error);
  bias' ← map2 Rminus (bias self) (smap (Rmult learning_rate) bias_error);
  Some (Build (num_filters self) (filter_size self) conv_filter' bias'
          (input self), input_error).

End ConvolutionLayer.

Module ReLULayer.

Record t := Build { input : option ndarray }.

Definition forward (self : t) (input : ndarray) : option (t * ndarray) :=
  Some (Build (Some input), np.maximum input 0).

Definition backward (self : t) (output_error : ndarray) (learning_rate : R)
    : option (t * ndarray) :=
  input ← input self;
  (* output_error * (input > 0).astype(int) *)
  input_error ← map2 (fun g x => g * (if Rlt_dec 0 x then 1 else 0))%R
                  output_error input;
  Some (self, input_error).

End ReLULayer.

Module MaxPoolingLayer.

Record t := Build { filter_size : nat; input : option ndarray }.

(** [a[f, i*k:(i+1)*k, j*k:(j+1)*k]] of a three-dimensional array. *)
Definition region (a : ndarray) (k f i j : nat) : option ndarray :=
  match shape a with
  | [_; _; _] =>
      a_f ← getitem a f;
      slice2 a_f (i * k) ((i + 1) * k) (j * k) ((j + 1) * k)
  | _ => None
  end.

Definition forward (self : t) (input : ndarray) : option (t * ndarray) :=
  let self := Build (filter_size self) (Some input) in
  match shape input with
  | [num_filters; height; width] =>
      (* height // 0 is a ZeroDivisionError *)
      guard (0 < filter_size self);;
      let output_height := height / filter_size self in
      let output_width := width / filter_size self in
      let output := np.zeros [num_filters; output_height; output_width] in
      output ← for_range num_filters (fun f output =>
        for_range output_height (fun i output =>
          for_range output_width (fun j output =>
            region ← region input (filter_size self) f i j;
            m ← np.max region;
            set output [f; i; j] m) output) output) output;
      Some (self, output)
  | _ => None
  end.

Definition backward (self : t) (output_error : ndarray) (learning_rate : R)
    : option (t * ndarray) :=
  input ← input self;
  let input_error := np.zeros_like input in
  match shape output_error with
  | [num_filters; output_height; output_width] =>
      input_error ← for_range num_filters (fun f input_error =>
        for_range output_height (fun i input_error =>
          for_range output_width (fun j input_error =>
            region ← region input (filter_size self) f i j;
            flat_index ← np.argmax region;
            max_index ← np.unravel_index flat_index
                          (filter_size self) (filter_size self);
            g ← get output_error [f; i; j];
            let y := i * filter_size self + max_index.1 in
            let x := j * filter_size self + max_index.2 in
            old ← get input_error [f; y; x];
            set input_error [f; y; x] (old + g)%R) input_error) input_error)
        input_error;
      Some (self, input_error)
  | _ => None
  end.

End MaxPoolingLayer.

Module FlattenLayer.

Record t := Build { input_shape : option (list nat) }.

Definition forward (self : t) (input : ndarray) : option (t * ndarray) :=
  let self := Build (Some (shape input)) in
  let output := np.flatten input in
  output ← np.reshape output [length (data output); 1];
  match shape input with
  | s0 :: s1 :: s2 :: _ =>
      guard (shape output = [s0 * s1 * s2; 1]);;
      Some (self, output)
  | _ => None
  end.

Definition backward (self : t) (output_error : ndarray) (learning_rate : R)
    : option (t * ndarray) :=
  input_shape ← input_shape self;
  match input_shape with
  | [a; b; c] =>
      input_error ← np.reshape output_error [a; b; c];
      Some (self, input_error)
  | _ => None
  end.

End FlattenLayer.

Module FCLayer.

Record t := Build {
  input_size : nat;
  output_size : nat;
  conv_filter : ndarray;
  bias : ndarray;
  input : option ndarray;
  output : option ndarray
}.

Definition forward (self : t) (input : ndarray) : option (t * ndarray) :=
  wt ← np.T (conv_filter self);
  prod ← np.dot wt input;
  output ← map2 Rplus prod (bias self);
  guard (shape output = [output_size self; 1]);;
  Some (Build (input_size self) (output_size self) (conv_filter self)
          (bias self) (Some input) (Some output), output).

Definition backward (self : t) (output_error : ndarray) (learning_rate : R)
    : option (t * ndarray) :=
  input_error ← np.dot (conv_filter self) output_error;
  input ← input self;
  oet ← np.T output_error;
  conv_filter_error ← np.dot input oet;
  conv_filter' ← map2 Rminus (conv_filter self)
                   (smap (Rmult learning_rate) conv_filter_error);
  bias' ← map2 Rminus (bias self) (smap (Rmult learning_rate) output_error);
  guard (shape input_error = shape input);;
  Some (Build (input_size self) (output_size self) conv_filter' bias'
          (Some input) (output self), input_error).

End FCLayer.

Module SoftmaxLayer.

Record t := Build { output : option ndarray }.

Definition forward (self : t) (input : ndarray) : option (t * ndarray) :=
  m ← np.max_axis0 input;
  shifted ← np.sub_axis0 input m;
  let output := np.exp shifted in
  let output := smap (fun x => x / np.sum output)%R output in
  Some (Build (Some output), output).

Definition backward (self : t) (output_error : ndarray) (learning_rate : R)
    : option (t * ndarray) :=
  output ← output self;
  lhs ← map2 Rmult output output_error;
  ot ← np.T output;
  s ← np.dot ot output_error;
  (* the 1x1 product scales [self.output] *)
  guard (shape s = [1; 1]);;
  s ← get s [0; 0];
  input_error ← map2 Rminus lhs (smap (Rmult s) output);
  Some (self, input_error).

End SoftmaxLayer.

(** ** The training step *)

Inductive layer :=
  | Conv (l : ConvolutionLayer.t)
  | ReLU (l : ReLULayer.t)
  | MaxPool (l : MaxPoolingLayer.t)
  | Flatten (l : FlattenLayer.t)
  | FC (l : FCLayer.t)
  | Softmax (l : SoftmaxLayer.t).

Definition lift {A : Type} (C : A -> layer) (r : option (A * ndarray))
    : option (layer * ndarray) :=
  '(l, out) ← r; Some (C l, out).

Definition forward (l : layer) (input : ndarray) : option (layer * ndarray) :=
  match l with
  | Conv l => lift Conv (ConvolutionLayer.forward l input)
  | ReLU l => lift ReLU (ReLULayer.forward l input)
  | MaxPool l => lift MaxPool (MaxPoolingLayer.forward l input)
  | Flatten l => lift Flatten (FlattenLayer.forward l input)
  | FC l => lift FC (FCLayer.forward l input)
  | Softmax l => lift Softmax (SoftmaxLayer.forward l input)
  end.

Definition backward (l : layer) (output_error : ndarray) (learning_rate : R)
    : option (layer * ndarray) :=
  match l with
  | Conv l => lift Conv (ConvolutionLayer.backward l output_error learning_rate)
  | ReLU l => lift ReLU (ReLULayer.backward l output_error learning_rate)
  | MaxPool l =>
      lift MaxPool (MaxPoolingLayer.backward l output_error learning_rate)
  | Flatten l =>
      lift Flatten (FlattenLayer.backward l output_error learning_rate)
  | FC l => lift FC (FCLayer.backward l output_error learning_rate)
  | Softmax l =>
      lift Softmax (SoftmaxLayer.backward l output_error learning_rate)
  end.

(** [for layer in layers: out = layer.forward(out)]; the layers come back in
    the same order, each after its call. *)
Fixpoint forward_all (layers : list layer) (out : ndarray)
    : option (list layer * ndarray) :=
  match layers with
  | [] => Some ([], out)
  | l :: layers' =>
      '(l', out) ← forward l out;
      '(layers', out) ← forward_all layers' out;
      Some (l' :: layers', out)
  end.

(** [for layer in reversed(layers): output_error = layer.backward(...)]. *)
Fixpoint backward_all (layers : list layer) (output_error : ndarray)
    (lr : R) : option (list layer * ndarray) :=
  match layers with
  | [] => Some ([], output_error)
  | l :: layers' =>
      '(layers', output_error) ← backward_all layers' output_error lr;
      '(l', output_error) ← backward l output_error lr;
      Some (l' :: layers', output_error)
  end.

(** The gradient the driver starts from: zero but in row [label]. *)
Definition initial_error (out : ndarray) (label : nat) : option ndarray :=
  let output_error := np.zeros (shape out) in
  p ← getitem out label;
  setitem output_error label (smap (fun x => -1 / x)%R p).

(** [train(image, label, layers, lr)]: the loss and the accuracy flag, and the
    layer objects after the step. *)
Definition train (image : ndarray) (label : nat) (layers : list layer)
    (lr : R) : option (R * nat * list layer) :=
  let out := smap (fun x => x / 255 - 0.5)%R image in
  '(layers, out) ← forward_all layers out;
  output_error ← initial_error out label;
  '(layers, _) ← backward_all layers output_error lr;
  p ← getitem out label;
  let loss := (- np.sum (np.log p))%R in
  am ← np.argmax out;
  let acc := if decide (am = label) then 1 else 0 in
  Some (loss, acc, layers).

(** ** The data split

    numpy's global generator is a state the program threads through its
    calls: a stream of raw draws and a cursor.  All statements about
    [split_data] hold for every stream. *)

Module random.

Record RandomState := Build { draws : nat -> nat; pos : nat }.

(** A draw from [0 .. bound], both ends included. *)
Definition random_interval (g : RandomState) (bound : nat)
    : RandomState * nat :=
  (Build (draws g) (S (pos g)), draws g (pos g) mod S bound).

(** In-place shuffle by exchanges: [for i in reversed(range(1, n))], cell [i]
    is exchanged with a cell drawn from [0 .. i]. *)
Fixpoint shuffle (i : nat) (g : RandomState) (x : list nat)
    : RandomState * list nat :=
  match i with
  | 0 => (g, x)
  | S i' =>
      let '(g, j) := random_interval g i in
      let xi := nth i x 0 in
      let xj := nth j x 0 in
      shuffle i' g (<[j := xi]> (<[i := xj]> x))
  end.

(** [np.random.permutation(n)]. *)
Definition permutation (g : RandomState) (n : nat) : RandomState * list nat :=
  shuffle (n - 1) g (seq 0 n).

(** [np.random.choice(a, size, replace=False)]: a prefix of a permutation of
    the positions of [a]; ValueError for a negative size or one above
    [len(a)]. *)
Definition choice (g : RandomState) (a : list nat) (size : Z)
    : option (RandomState * list nat) :=
  guard (0 ≤ size)%Z;;
  guard (size ≤ Z.of_nat (length a))%Z;;
  let '(g, idx) := permutation g (length a) in
  picked ← mapM (fun i => a !! i) (take (Z.to_nat size) idx);
  Some (g, picked).

End random.

(** Binary64 numbers, as far as [split_data] computes with them: the
    conversion of an [int] (to the nearest binary64 number, infinite beyond
    the range), the product, and [int(np.floor(x))], which raises on an
    infinity and on NaN.  [value] is the real number a finite binary64 number
    denotes. *)
Module float.

Definition prec : Z := 53.
Definition emax : Z := 1024.

Definition of_nat (n : nat) : spec_float :=
  binary_normalize prec emax (Z.of_nat n) 0 false.

Definition mul : spec_float -> spec_float -> spec_float := SFmul prec emax.

Definition floor (x : spec_float) : option Z :=
  match x with
  | S754_zero _ => Some 0%Z
  | S754_finite s m e =>
      Some (match e with
            | Zneg p => cond_Zopp s (Zpos m) / 2 ^ Zpos p
            | _ => cond_Zopp s (Zpos m) * 2 ^ e
            end)%Z
  | _ => None
  end.

Definition value (x : spec_float) : option R :=
  match x with
  | S754_zero _ => Some 0%R
  | S754_finite s m e => Some (IZR (cond_Zopp s (Zpos m)) * powerRZ 2 e)%R
  | _ => None
  end.

End float.

(** [int(np.floor(num_samples * train_ratio))]. *)
Definition num_train_samples (num_samples : nat) (train_ratio : spec_float)
    : option Z :=
  float.floor (float.mul (float.of_nat num_samples) train_ratio).

(** The two index lists [split_data] computes. *)
Definition split_indices (g : random.RandomState) (num_samples : nat)
    (train_ratio : spec_float)
    : option (random.RandomState * list nat * list nat) :=
  let indices := seq 0 num_samples in
  num_train_samples ← num_train_samples num_samples train_ratio;
  '(g, train_indices) ← random.choice g indices num_train_samples;
  let val_indices :=
    elements (list_to_set indices ∖ list_to_set train_indices : gset nat) in
  Some (g, train_indices, val_indices).

(** [X[idx]] for a list of row indices; IndexError out of range. *)
Definition take_rows {A : Type} (X : list A) (idx : list nat)
    : option (list A) :=
  mapM (fun i => X !! i) idx.

Definition split_data {A B : Type} (g : random.RandomState) (X : list A)
    (Y : list B) (train_ratio : spec_float)
    : option (random.RandomState * (list A * list B * list A * list B)) :=
  let num_samples := length X in
  '(g, train_indices, val_indices) ← split_indices g num_samples train_ratio;
  X_train ← take_rows X train_indices;
  Y_train ← take_rows Y train_indices;
  X_val ← take_rows X val_indices;
  Y_val ← take_rows Y val_indices;
  Some (g, (X_train, Y_train, X_val, Y_val)).

(** ** The script

    The constructors of the two layers with parameters draw them from the
    generator: [randn] and [random_sample] stand for [np.random.randn] and
    [np.random.random], which take the generator and a shape and return the
    generator after the draw and the array drawn. *)

(** [ConvolutionLayer.__init__]. *)
Definition ConvolutionLayer_init
    (randn : random.RandomState -> list nat -> random.RandomState * ndarray)
    (g : random.RandomState) (num_filters filter_size : nat)
    : random.RandomState * ConvolutionLayer.t :=
  let '(g, w) := randn g [num_filters; filter_size; filter_size] in
  (g, ConvolutionLayer.Build num_filters filter_size
        (smap (fun x => x / INR (filter_size * filter_size))%R w)
        (np.zeros [num_filters]) None).

(** [FCLayer.__init__]. *)
Definition FCLayer_init
    (random_sample : random.RandomState -> list nat
                     -> random.RandomState * ndarray)
    (g : random.RandomState) (input_size output_size : nat)
    : random.RandomState * FCLayer.t :=
  let '(g, w) := random_sample g [input_size; output_size] in
  let '(g, b) := random_sample g [output_size; 1] in
  (g, FCLayer.Build input_size output_size
        (smap (fun x => x - 0.5)%R w) (smap (fun x => x - 0.5)%R b) None None).

(** What the script prints, as the arguments of its two format strings:
    ['--- Epoch %d ---'] and
    ['[Step %d] Past 100 steps: Average Loss %.3f | Accuracy: %d%%']. *)
Inductive line :=
  | EpochLine (epoch : nat)
  | StepLine (step : nat) (average_loss : R) (accuracy : nat).

(** The body of [for i, (im, label) in enumerate(zip(train_images,
    train_labels))], on the layers, [loss], [num_correct] and the lines
    printed so far. *)
Definition train_step (i : nat) (im : ndarray) (label : nat)
    (s : list layer * R * nat * list line)
    : option (list layer * R * nat * list line) :=
  let '(layers, loss, num_correct, out) := s in
  let '(loss, num_correct, out) :=
    if decide (i mod 100 = 99)
    then (0%R, 0, out ++ [StepLine (i + 1) (loss / 100) num_correct])
    else (loss, num_correct, out) in
  '(l, acc, layers) ← train im label layers 0.005;
  Some (layers, (loss + l)%R, num_correct + acc, out).

Fixpoint train_loop (i : nat) (samples : list (ndarray * nat))
    (s : list layer * R * nat * list line)
    : option (list layer * R * nat * list line) :=
  match samples with
  | [] => Some s
  | (im, label) :: samples' =>
      s ← train_step i im label s; train_loop (S i) samples' s
  end.

(** The body of [for epoch in range(3)], on the generator, the training
    data, the layers and the lines printed so far. *)
Definition epoch_body (epoch : nat)
    (s : random.RandomState * list ndarray * list nat * list layer * list line)
    : option (random.RandomState * list ndarray * list nat * list layer
              * list line) :=
  let '(g, train_images, train_labels, layers, out) := s in
  let out := out ++ [EpochLine (epoch + 1)] in
  let '(g, shuffle_data) := random.permutation g (length train_images) in
  train_images ← take_rows train_images shuffle_data;
  train_labels ← take_rows train_labels shuffle_data;
  '(layers, _, _, out) ←
    train_loop 0 (zip train_images train_labels) (layers, 0%R, 0, out);
  Some (g, train_images, train_labels, layers, out).

(** The literal [0.8], the default of [train_ratio]: the binary64 number
    nearest to 8/10. *)
Definition train_ratio_default : spec_float :=
  S754_finite false 7205759403792794 (-53).

(** The script from the line after [pkl.load], on the generator as
    [np.random.seed(40)] leaves it and the data set that was loaded: the
    generator, the layers and the lines printed when it ends. *)
Definition main
    (randn random_sample : random.RandomState -> list nat
                           -> random.RandomState * ndarray)
    (g : random.RandomState) (dataset : list ndarray * list nat)
    : option (random.RandomState * list layer * list line) :=
  '(g, (train_images, train_labels, X_val, Y_val)) ←
    split_data g dataset.1 dataset.2 train_ratio_default;
  let '(g, conv) := ConvolutionLayer_init randn g 8 3 in
  let relu := ReLULayer.Build None in
  let pool := MaxPoolingLayer.Build 2 None in
  let flatten := FlattenLayer.Build None in
  let '(g, fc) := FCLayer_init random_sample g (13 * 13 * 8) 10 in
  let softmax := SoftmaxLayer.Build None in
  let layers :=
    [Conv conv; ReLU relu; MaxPool pool; Flatten flatten; FC fc;
     Softmax softmax] in
  '(g, _, _, layers, out) ←
    for_range 3 epoch_body (g, train_images, train_labels, layers, []);
  Some (g, layers, out).

(** ** Vocabulary of the statements *)

(** Sum of a list of reals, [np.sum] of a buffer. *)
Definition Rsum (l : list R) : R := foldr Rplus 0%R l.

(** The sum of [F i] over [i < n]. *)
Definition bigsum (n : nat) (F : nat -> R) : R := Rsum (F <$> seq 0 n).

(** Buffers given cell by cell: of a vector, a matrix and a three-dimensional
    array, in row-major order. *)
Definition tab (n : nat) (g : nat -> R) : list R := g <$> seq 0 n.

Definition tab2 (h w : nat) (g : nat -> nat -> R) : list R :=
  flat_map (fun i => tab w (g i)) (seq 0 h).

Definition tab3 (a b c : nat) (g : nat -> nat -> nat -> R) : list R :=
  flat_map (fun f => tab2 b c (g f)) (seq 0 a).

(** The cell at a multi-index, 0 outside the array. *)
Definition cell (a : ndarray) (idx : list nat) : R := default 0%R (get a idx).

(** Inner product of two arrays, cell by cell. *)
Definition inner (a b : ndarray) : R := Rsum (zip_with Rmult (data a) (data b)).

(** [body] rewrites the cells at [off ..] of an array of shape [sh], cell by
    cell with [op old v] for the values [vals], and nothing else. *)
Definition writes (op : R -> R -> R) (sh : list nat)
    (body : ndarray -> option ndarray) (off : nat) (vals : list R) : Prop :=
  forall pre old post,
    length pre = off -> length old = length vals ->
    body (NdArray sh (pre ++ old ++ post))
    = Some (NdArray sh (pre ++ zip_with op old vals ++ post)).

(** [body] adds [delta n] to cell [n] of an array of shape [sh] with [N]
    cells, for every [n]. *)
Definition adds (sh : list nat) (N : nat) (body : ndarray -> option ndarray)
    (delta : nat -> R) : Prop :=
  forall h, body (NdArray sh (tab N h))
            = Some (NdArray sh (tab N (fun n => h n + delta n)%R)).

(** The parameters of a convolution layer have the shapes its constructor
    gives them. *)
Definition conv_wf (self : ConvolutionLayer.t) : Prop :=
  let k := ConvolutionLayer.filter_size self in
  let F := ConvolutionLayer.num_filters self in
  shape (ConvolutionLayer.conv_filter self) = [F; k; k]
  /\ valid (ConvolutionLayer.conv_filter self)
  /\ shape (ConvolutionLayer.bias self) = [F]
  /\ valid (ConvolutionLayer.bias self).

(** Cell [(f, i, j)] of the forward output of the convolution layer. *)
Definition conv_out (self : ConvolutionLayer.t) (x : ndarray) (f i j : nat) : R :=
  let k := ConvolutionLayer.filter_size self in
  (bigsum k (fun a => bigsum k (fun b =>
     cell x [i + a; j + b]%nat
     * cell (ConvolutionLayer.conv_filter self) [f; a; b]))
   + cell (ConvolutionLayer.bias self) [f])%R.

(** Cell [(u, v)] of [g[f]] padded with [p] zeros on every side. *)
Definition pad_cell (g : ndarray) (p f u v : nat) : R :=
  match shape g with
  | [_; oh; ow] =>
      if decide (p <= u < p + oh /\ p <= v < p + ow)
      then cell g [f; u - p; v - p] else 0%R
  | _ => 0%R
  end.

(** What [backward] adds to [input_error[i, j]] for filter [f]: the
    correlation at [(i, j)] of the padded gradient with the kernel rotated by
    180 degrees. *)
Definition conv_in_grad (self : ConvolutionLayer.t) (g : ndarray)
    (f i j : nat) : R :=
  let k := ConvolutionLayer.filter_size self in
  bigsum k (fun a => bigsum k (fun b =>
    (pad_cell g (k - 1) f (i + a) (j + b)
     * cell (ConvolutionLayer.conv_filter self) [f; k - 1 - a; k - 1 - b]%nat)%R)).

(** [(r, c)] is where the maximum of the [k] by [k] block [B] is reached
    first, in row-major order. *)
Definition first_max (B : nat -> nat -> R) (k r c : nat) : Prop :=
  r < k /\ c < k
  /\ (forall r' c', r' < k -> c' < k -> (B r' c' <= B r c)%R)
  /\ (forall r' c', r' < k -> c' < k -> r' * k + c' < r * k + c ->
        (B r' c' < B r c)%R).

(** The position [backward] of the pooling layer routes the gradient of block
    [(f, i, j)] to. *)
Definition pool_argmax (X : ndarray) (k f i j : nat) : option (nat * nat) :=
  region ← MaxPoolingLayer.region X k f i j;
  flat_index ← np.argmax region;
  np.unravel_index flat_index k k.

(** The flat position [backward] of the pooling layer adds the gradient of
    block [(f, i, j)] to, in an input of shape [(F, OH * k, OW * k)]. *)
Definition pool_target (X : ndarray) (k OH OW f i j : nat) : nat :=
  match pool_argmax X k f i j with
  | Some (r, c) => (f * (OH * k) + (i * k + r)) * (OW * k) + (j * k + c)
  | None => 0
  end.

(** What [backward] of the pooling layer adds to the input cell at the flat
    position [m]. *)
Definition pool_in_grad (X g : ndarray) (k F OH OW m : nat) : R :=
  bigsum F (fun f => bigsum OH (fun i => bigsum OW (fun j =>
    if decide (m = pool_target X k OH OW f i j)
    then cell g [f; i; j] else 0%R))).

(** The parameters of a fully-connected layer have the shapes its constructor
    gives them. *)
Definition fc_wf (self : FCLayer.t) : Prop :=
  shape (FCLayer.conv_filter self)
  = [FCLayer.input_size self; FCLayer.output_size self]
  /\ valid (FCLayer.conv_filter self)
  /\ shape (FCLayer.bias self) = [FCLayer.output_size self; 1]
  /\ valid (FCLayer.bias self).

(** The network of the script: [layers = [conv, relu, pool, flatten, fc,
    softmax]]. *)
Definition cnn (conv : ConvolutionLayer.t) (relu : ReLULayer.t)
    (pool : MaxPoolingLayer.t) (flatten : FlattenLayer.t) (fc : FCLayer.t)
    (softmax : SoftmaxLayer.t) : list layer :=
  [Conv conv; ReLU relu; MaxPool pool; Flatten flatten; FC fc; Softmax softmax].

(** The layer object with its caches forgotten: what is left are the
    parameters. *)
Definition clear_cache (l : layer) : layer :=
  match l with
  | Conv l =>
      Conv (ConvolutionLayer.Build (ConvolutionLayer.num_filters l)
              (ConvolutionLayer.filter_size l) (ConvolutionLayer.conv_filter l)
              (ConvolutionLayer.bias l) None)
  | ReLU _ => ReLU (ReLULayer.Build None)
  | MaxPool l =>
      MaxPool (MaxPoolingLayer.Build (MaxPoolingLayer.filter_size l) None)
  | Flatten _ => Flatten (FlattenLayer.Build None)
  | FC l =>
      FC (FCLayer.Build (FCLayer.input_size l) (FCLayer.output_size l)
            (FCLayer.conv_filter l) (FCLayer.bias l) None None)
  | Softmax _ => Softmax (SoftmaxLayer.Build None)
  end.

(** The example of the specification: one 1 by 1 filter with kernel [[1]] and
    bias 0. *)
Definition unit_conv (input : option ndarray) : ConvolutionLayer.t :=
  ConvolutionLayer.Build 1 1 (NdArray [1; 1; 1] [1%R]) (NdArray [1] [0%R]) input.

(** What [backward] of the convolution layer accumulates in
    [filter_error[f, a, b]] and in [bias_error[f]], for an output gradient
    [g] of height [OH] and width [OW]. *)
Definition conv_filter_grad (X g : ndarray) (OH OW f a b : nat) : R :=
  bigsum OH (fun i => bigsum OW (fun j =>
    (cell X [i + a; j + b]%nat * cell g [f; i; j])%R)).

Definition conv_bias_grad (g : ndarray) (OH OW f : nat) : R :=
  bigsum OH (fun i => bigsum OW (fun j => cell g [f; i; j])).

(** A list of layers is the script's network, with parameters of the shapes
    the constructors give them, and fits images of height [H] and width [W]
    and [n] classes: the convolution output divides into pooling windows and
    the pooled cells are as many as the inputs of the fully-connected layer. *)
Definition cnn_wf (H W n : nat) (layers : list layer) : Prop :=
  exists conv relu pool flatten fc softmax OH OW,
    let k := ConvolutionLayer.filter_size conv in
    let F := ConvolutionLayer.num_filters conv in
    let p := MaxPoolingLayer.filter_size pool in
    layers = cnn conv relu pool flatten fc softmax
    /\ conv_wf conv /\ fc_wf fc
    /\ 0 < k /\ 0 < p /\ k <= H /\ k <= W
    /\ H - k + 1 = OH * p /\ W - k + 1 = OW * p
    /\ FCLayer.input_size fc = F * OH * OW
    /\ FCLayer.output_size fc = n.

(** The step lines one pass over [n] training samples prints: one at every
    hundredth step, each with the number of that step and at most 100
    correct predictions, the first with at most 99. *)
Definition step_lines (n : nat) (lines : list line) : Prop :=
  length lines = n / 100
  /\ forall k l, lines !! k = Some l ->
       exists average_loss accuracy,
         l = StepLine (100 * (k + 1)) average_loss accuracy
         /\ accuracy <= (if decide (k = 0) then 99 else 100).

(** A training sample the script's network accepts. *)
Definition sample_ok (H W n : nat) (s : ndarray * nat) : Prop :=
  shape s.1 = [H; W] /\ valid s.1 /\ s.2 < n.

(** A generator of arrays returns an array of the shape it is asked for. *)
Definition well_shaped
    (rand : random.RandomState -> list nat -> random.RandomState * ndarray)
    : Prop :=
  forall g sh, shape (rand g sh).2 = sh /\ valid (rand g sh).2.

(** Small instances the theorems are run on: a fully-connected layer with
    one input and one output, weight 2 and bias 1; the script's network cut
    down to one 1 by 1 filter, pooling windows of size 1 and one class; a
    generator whose draws are all 0. *)
Definition unit_fc (input : option ndarray) : FCLayer.t :=
  FCLayer.Build 1 1 (NdArray [1; 1] [2%R]) (NdArray [1; 1] [1%R]) input None.

Definition unit_cnn : list layer :=
  cnn (unit_conv None) (ReLULayer.Build None) (MaxPoolingLayer.Build 1 None)
    (FlattenLayer.Build None) (unit_fc None) (SoftmaxLayer.Build None).

Definition zero_generator : random.RandomState := random.Build (fun _ => 0) 0.

(** The literal [0.7]: the binary64 number nearest to 7/10. *)
Definition ratio_0_7 : spec_float := S754_finite false 6305039478318694 (-53).

(** Larger instances, for the loops of the script: images of one grey level,
    [count] samples whose grey level and label change from one to the next;
    the script's network cut down to two 2 by 2 filters on 5 by 5 images,
    pooling windows of size 2 and three classes; a generator whose draws
    change, and an array generator that returns a ramp and moves the cursor. *)
Definition gray_image (H W : nat) (level : nat) : ndarray :=
  NdArray [H; W] (replicate (H * W) (INR level)).

Definition gray_images (H W count : nat) : list ndarray :=
  gray_image H W <$> seq 0 count.

Definition cyclic_labels (n count : nat) : list nat :=
  (fun i => i mod n) <$> seq 0 count.

Definition small_conv : ConvolutionLayer.t :=
  ConvolutionLayer.Build 2 2
    (NdArray [2; 2; 2] [0.5; -0.25; 0.25; 0.5; -0.5; 0.25; 0.5; 0.25]%R)
    (NdArray [2] [0; 0]%R) None.

Definition small_fc : FCLayer.t :=
  FCLayer.Build 8 3 (NdArray [8; 3] (tab 24 (fun i => (INR i / 100 - 0.1)%R)))
    (NdArray [3; 1] [0.1; -0.2; 0.3]%R) None None.

Definition small_cnn : list layer :=
  cnn small_conv (ReLULayer.Build None) (MaxPoolingLayer.Build 2 None)
    (FlattenLayer.Build None) small_fc (SoftmaxLayer.Build None).

Definition counting_generator : random.RandomState :=
  random.Build (fun i => 7 * i + 3) 0.

Definition ramp_sample (g : random.RandomState) (sh : list nat)
    : random.RandomState * ndarray :=
  (random.Build (random.draws g) (S (random.pos g)),
   NdArray sh (tab (numel sh) (fun i => (INR i / 1000)%R))).

(** ** Lists, sums and arrays *)

Lemma Rsum_app l1 l2 : Rsum (l1 ++ l2) = (Rsum l1 + Rsum l2)%R.
Proof. induction l1 as [|x l1 IH]; simpl; [lra | rewrite IH; lra]. Qed.

Lemma length_tab n g : length (tab n g) = n.
Proof. unfold tab. by rewrite length_fmap, length_seq. Qed.

Lemma lookup_tab n g i : i < n -> tab n g !! i = Some (g i).
Proof.
  intros. unfold tab. rewrite list_lookup_fmap, lookup_seq_lt by done. done.
Qed.

Lemma tab_ext n g g' : (forall i, i < n -> g i = g' i) -> tab n g = tab n g'.
Proof.
  intros H. unfold tab. apply list_fmap_ext. intros i x Hx.
  apply lookup_seq in Hx as [-> ?]. by apply H.
Qed.

Lemma tab_S n g : tab (S n) g = tab n g ++ [g n].
Proof. unfold tab. by rewrite seq_S, fmap_app. Qed.

Lemma flat_map_seq_shift {A} (F : nat -> list A) a n :
  flat_map F (seq a n) = flat_map (fun i => F (a + i)) (seq 0 n).
Proof.
  revert F a. induction n as [|n IH]; intros F a; [done|].
  simpl. rewrite Nat.add_0_r. f_equal.
  rewrite (IH F (S a)), (IH (fun i => F (a + i)) 1).
  apply flat_map_ext. intros i. f_equal. lia.
Qed.

Lemma fmap_seq_shift {A} (F : nat -> A) a n :
  F <$> seq a n = (fun i => F (a + i)) <$> seq 0 n.
Proof.
  rewrite <- (Nat.add_0_r a) at 1.
  by rewrite <- fmap_add_seq, <- list_fmap_compose.
Qed.

Lemma tab_app n m g : tab (n + m) g = tab n g ++ tab m (fun j => g (n + j)).
Proof. unfold tab. by rewrite seq_app, fmap_app, (fmap_seq_shift _ (0 + n)). Qed.

Lemma tab_replicate n x : replicate n x = tab n (fun _ => x).
Proof.
  induction n as [|n IH]; [done|]. rewrite tab_S, <- IH.
  by rewrite replicate_S_end.
Qed.

Lemma tab_nth (l : list R) : l = tab (length l) (fun i => nth i l 0%R).
Proof.
  induction l as [|x l IH] using rev_ind; [done|].
  rewrite length_app. simpl. rewrite Nat.add_1_r, tab_S.
  rewrite app_nth2, Nat.sub_diag by lia. simpl. f_equal.
  rewrite IH at 1. apply tab_ext. intros i Hi. by rewrite app_nth1.
Qed.

Lemma take_drop_tab (l : list R) n m :
  n + m <= length l -> take m (drop n l) = tab m (fun j => nth (n + j) l 0%R).
Proof.
  intros H. rewrite (tab_nth (take m (drop n l))).
  rewrite length_take, length_drop, Nat.min_l by lia.
  apply tab_ext. intros i Hi.
  rewrite !nth_lookup, lookup_take_lt, lookup_drop by done. done.
Qed.

Lemma ravel2_lt h w i j : i < h -> j < w -> i * w + j < h * w.
Proof. intros. nia. Qed.

Lemma ravel3_lt a b c f i j :
  f < a -> i < b -> j < c -> (f * b + i) * c + j < a * b * c.
Proof. intros. apply ravel2_lt; [by apply ravel2_lt | done]. Qed.

Lemma nth_tab n g i : i < n -> nth i (tab n g) 0%R = g i.
Proof. intros. by rewrite nth_lookup, lookup_tab. Qed.

Lemma zip_with_tab op n g1 g2 :
  zip_with op (tab n g1) (tab n g2) = tab n (fun i => op (g1 i) (g2 i)).
Proof. unfold tab. by rewrite zip_with_fmap_l, zip_with_fmap_r, zip_with_diag. Qed.

Lemma fmap_tab (f : R -> R) n g : f <$> tab n g = tab n (fun i => f (g i)).
Proof. unfold tab. by rewrite <- list_fmap_compose. Qed.

Lemma tab2_S h w g : tab2 (S h) w g = tab2 h w g ++ tab w (g h).
Proof. unfold tab2. rewrite seq_S, flat_map_app. simpl. by rewrite app_nil_r. Qed.

Lemma length_tab2 h w g : length (tab2 h w g) = h * w.
Proof.
  induction h as [|h IH]; [done|].
  rewrite tab2_S, length_app, IH, length_tab. lia.
Qed.

Lemma tab2_ext h w g g' :
  (forall i j, i < h -> j < w -> g i j = g' i j) -> tab2 h w g = tab2 h w g'.
Proof.
  induction h as [|h IH]; intros H; [done|].
  rewrite !tab2_S. f_equal; [apply IH; auto | apply tab_ext; auto].
Qed.

Lemma nth_tab2 h w g i j :
  i < h -> j < w -> nth (i * w + j) (tab2 h w g) 0%R = g i j.
Proof.
  induction h as [|h IH]; intros Hi Hj; [lia|].
  rewrite tab2_S. destruct (decide (i < h)) as [Hlt|Hge].
  - rewrite app_nth1 by (rewrite length_tab2; by apply ravel2_lt). auto.
  - assert (i = h) as -> by lia.
    rewrite app_nth2 by (rewrite length_tab2; lia).
    rewrite length_tab2. replace (h * w + j - h * w) with j by lia.
    by apply nth_tab.
Qed.

Lemma zip_with_tab2 op h w g1 g2 :
  zip_with op (tab2 h w g1) (tab2 h w g2)
  = tab2 h w (fun i j => op (g1 i j) (g2 i j)).
Proof.
  induction h as [|h IH]; [done|].
  rewrite !tab2_S, zip_with_app by (by rewrite !length_tab2).
  by rewrite IH, zip_with_tab.
Qed.

Lemma tab2_nth (l : list R) h w :
  length l = h * w -> l = tab2 h w (fun i j => nth (i * w + j) l 0%R).
Proof.
  revert l. induction h as [|h IH]; intros l Hl.
  - by destruct l.
  - rewrite tab2_S, <- (take_drop (h * w) l) at 1. f_equal.
    + rewrite (IH (take (h * w) l)) at 1 by (rewrite length_take; lia).
      apply tab2_ext. intros i j Hi Hj.
      rewrite !nth_lookup, lookup_take_lt; [done|]. by apply ravel2_lt.
    + rewrite <- (take_ge (drop (h * w) l) w) by (rewrite length_drop; lia).
      apply take_drop_tab. lia.
Qed.

Lemma tab2_app_rows h1 h2 w g :
  tab2 (h1 + h2) w g = tab2 h1 w g ++ tab2 h2 w (fun i => g (h1 + i)).
Proof.
  unfold tab2. rewrite seq_app, flat_map_app. f_equal.
  by rewrite (flat_map_seq_shift _ (0 + h1)).
Qed.

Lemma tab2_const0 h w : replicate (h * w) 0%R = tab2 h w (fun _ _ => 0%R).
Proof.
  induction h as [|h IH]; [done|].
  rewrite tab2_S, <- IH, <- tab_replicate, <- replicate_add. f_equal. lia.
Qed.

(** Sums *)

Lemma bigsum_S n F : bigsum (S n) F = (bigsum n F + F n)%R.
Proof. unfold bigsum. rewrite seq_S, fmap_app, Rsum_app. simpl. lra. Qed.

Lemma bigsum_ext n F G :
  (forall i, i < n -> F i = G i) -> bigsum n F = bigsum n G.
Proof. intros H. unfold bigsum. f_equal. by apply tab_ext. Qed.

Lemma bigsum_0 n : bigsum n (fun _ => 0%R) = 0%R.
Proof. induction n as [|n IH]; [done|]. rewrite bigsum_S, IH. lra. Qed.

Lemma bigsum_plus n F G :
  bigsum n (fun i => F i + G i)%R = (bigsum n F + bigsum n G)%R.
Proof.
  induction n as [|n IH]; [unfold bigsum; simpl; lra|].
  rewrite !bigsum_S, IH. lra.
Qed.

Lemma bigsum_scal n c F :
  bigsum n (fun i => c * F i)%R = (c * bigsum n F)%R.
Proof.
  induction n as [|n IH]; [unfold bigsum; simpl; lra|].
  rewrite !bigsum_S, IH. lra.
Qed.

Lemma bigsum_exchange n m (F : nat -> nat -> R) :
  bigsum n (fun i => bigsum m (fun j => F i j))
  = bigsum m (fun j => bigsum n (fun i => F i j)).
Proof.
  induction n as [|n IH].
  - unfold bigsum at 1. simpl. symmetry. apply bigsum_0.
  - rewrite bigsum_S, IH, <- bigsum_plus. apply bigsum_ext. intros j _.
    by rewrite bigsum_S.
Qed.

Lemma bigsum_app n m F :
  bigsum (n + m) F = (bigsum n F + bigsum m (fun j => F (n + j)%nat))%R.
Proof.
  unfold bigsum. by rewrite seq_app, fmap_app, Rsum_app, (fmap_seq_shift _ (0 + n)).
Qed.

Lemma Rsum_tab n g : Rsum (tab n g) = bigsum n g.
Proof. done. Qed.

Lemma Rsum_tab2 h w g : Rsum (tab2 h w g) = bigsum h (fun i => bigsum w (g i)).
Proof.
  induction h as [|h IH]; [done|].
  by rewrite tab2_S, Rsum_app, IH, bigsum_S.
Qed.

(** Arrays in tabulated form *)

Lemma flat_map_seq_ext {A} (F G : nat -> list A) n :
  (forall i, i < n -> F i = G i) -> flat_map F (seq 0 n) = flat_map G (seq 0 n).
Proof.
  induction n as [|n IH]; intros H; [done|].
  rewrite seq_S, !flat_map_app. simpl. rewrite IH, H by auto. done.
Qed.

Lemma length_flat_map_seq {A} (F : nat -> list A) n c :
  (forall i, i < n -> length (F i) = c) -> length (flat_map F (seq 0 n)) = n * c.
Proof.
  induction n as [|n IH]; intros H; [done|].
  rewrite seq_S, flat_map_app, length_app. simpl.
  rewrite IH, app_nil_r, H by auto. lia.
Qed.

Lemma flat_map_singleton n g : flat_map (fun j => [g j]) (seq 0 n) = tab n g.
Proof.
  induction n as [|n IH]; [done|].
  by rewrite seq_S, flat_map_app, IH, tab_S.
Qed.

Lemma tab3_S a b c g : tab3 (S a) b c g = tab3 a b c g ++ tab2 b c (g a).
Proof. unfold tab3. rewrite seq_S, flat_map_app. simpl. by rewrite app_nil_r. Qed.

Lemma length_tab3 a b c g : length (tab3 a b c g) = a * b * c.
Proof.
  unfold tab3. rewrite (length_flat_map_seq _ _ (b * c)); [lia|].
  intros. apply length_tab2.
Qed.

Lemma nth_tab3 a b c g f i j :
  f < a -> i < b -> j < c -> nth ((f * b + i) * c + j) (tab3 a b c g) 0%R = g f i j.
Proof.
  induction a as [|a IH]; intros Hf Hi Hj; [lia|].
  rewrite tab3_S. destruct (decide (f < a)) as [Hlt|Hge].
  - rewrite app_nth1 by (rewrite length_tab3; by apply ravel3_lt). auto.
  - assert (f = a) as -> by lia.
    rewrite app_nth2 by (rewrite length_tab3; nia).
    rewrite length_tab3.
    replace ((a * b + i) * c + j - a * b * c) with (i * c + j) by nia.
    by apply nth_tab2.
Qed.

Lemma cell1 a n i :
  shape a = [n] -> i < n -> cell a [i] = nth i (data a) 0%R.
Proof.
  intros Hs Hi. unfold cell, get. rewrite Hs. simpl.
  rewrite decide_True by done. simpl. by rewrite nth_lookup.
Qed.

Lemma cell2 a h w i j :
  shape a = [h; w] -> i < h -> j < w ->
  cell a [i; j] = nth (i * w + j) (data a) 0%R.
Proof.
  intros Hs Hi Hj. unfold cell, get. rewrite Hs. simpl.
  rewrite !decide_True by done. simpl. by rewrite nth_lookup.
Qed.

Lemma cell3 a n h w f i j :
  shape a = [n; h; w] -> f < n -> i < h -> j < w ->
  cell a [f; i; j] = nth ((f * h + i) * w + j) (data a) 0%R.
Proof.
  intros Hs Hf Hi Hj. unfold cell, get. rewrite Hs. simpl.
  rewrite !decide_True by done. simpl. by rewrite nth_lookup.
Qed.

Lemma get_cell a sh idx o :
  shape a = sh -> offset sh idx 0 = Some o -> o < length (data a) ->
  get a idx = Some (cell a idx).
Proof.
  intros Hs Ho Hlt. unfold cell, get. rewrite Hs, Ho. simpl.
  destruct (lookup_lt_is_Some_2 (data a) o Hlt) as [x ->]. done.
Qed.

Lemma slice2_tab a h w r c n m :
  shape a = [h; w] -> valid a -> r + n <= h -> c + m <= w ->
  slice2 a r (r + n) c (c + m)
  = Some (NdArray [n; m]
            (tab2 n m (fun i j => nth ((r + i) * w + (c + j)) (data a) 0%R))).
Proof.
  intros Hs Hv Hr Hc. unfold valid in Hv. rewrite Hs in Hv. simpl in Hv.
  unfold slice2. rewrite Hs.
  rewrite !Nat.min_l by lia.
  replace (r + n - r) with n by lia. replace (c + m - c) with m by lia.
  do 2 f_equal. rewrite flat_map_seq_shift. apply flat_map_seq_ext.
  intros i Hi. rewrite take_drop_tab by nia. apply tab_ext.
  intros j Hj. f_equal. lia.
Qed.

Lemma getitem_tab a n rest f :
  shape a = n :: rest -> valid a -> f < n ->
  getitem a f
  = Some (NdArray rest
            (tab (numel rest) (fun j => nth (f * numel rest + j) (data a) 0%R))).
Proof.
  intros Hs Hv Hf. unfold valid in Hv. rewrite Hs in Hv. simpl in Hv.
  unfold getitem. rewrite Hs. rewrite option_guard_True by done.
  do 2 f_equal. apply take_drop_tab. nia.
Qed.

Lemma tab_tab2 h w g :
  tab (h * w) g = tab2 h w (fun i j => g (i * w + j)).
Proof.
  rewrite (tab2_nth (tab (h * w) g) h w) by apply length_tab.
  apply tab2_ext. intros i j Hi Hj. apply nth_tab. by apply ravel2_lt.
Qed.

Lemma getitem_tab2 a n h w f :
  shape a = [n; h; w] -> valid a -> f < n ->
  getitem a f
  = Some (NdArray [h; w]
            (tab2 h w (fun i j => nth ((f * h + i) * w + j) (data a) 0%R))).
Proof.
  intros Hs Hv Hf. rewrite (getitem_tab a n [h; w]) by done.
  do 2 f_equal. simpl. rewrite Nat.mul_1_r, tab_tab2.
  apply tab2_ext. intros i j _ _. f_equal. lia.
Qed.

(** Loops *)

Lemma for_each_app {St} (l1 l2 : list nat) (body : nat -> St -> option St) s :
  for_each (l1 ++ l2) body s = s' ← for_each l1 body s; for_each l2 body s'.
Proof.
  revert s. induction l1 as [|i l1 IH]; intros s; [done|].
  simpl. destruct (body i s) as [s'|]; simpl; [apply IH | done].
Qed.

Lemma for_range_S {St} n (body : nat -> St -> option St) s :
  for_range (S n) body s = s' ← for_range n body s; body n s'.
Proof.
  unfold for_range. rewrite seq_S, for_each_app. simpl.
  destruct (for_each (seq 0 n) body s) as [s'|]; simpl; [|done].
  by destruct (body n s').
Qed.

Lemma for_range_inv {St} (P : nat -> St -> Prop) n
    (body : nat -> St -> option St) s :
  P 0 s ->
  (forall i s, i < n -> P i s -> exists s', body i s = Some s' /\ P (S i) s') ->
  exists s', for_range n body s = Some s' /\ P n s'.
Proof.
  intros H0 Hstep. induction n as [|n IH]; [by exists s|].
  destruct IH as (s1 & Hs1 & HP); [auto|].
  rewrite for_range_S, Hs1. simpl. apply Hstep; [lia | done].
Qed.

Lemma writes_for_range op sh n c (body : nat -> ndarray -> option ndarray)
    off (chunk : nat -> list R) :
  (forall i, i < n -> length (chunk i) = c) ->
  (forall i, i < n -> writes op sh (body i) (off + i * c) (chunk i)) ->
  writes op sh (for_range n body) off (flat_map chunk (seq 0 n)).
Proof.
  intros Hlen Hbody. induction n as [|n IH]; intros pre old post Hpre Hold.
  - destruct old; [|done]. done.
  - rewrite seq_S, flat_map_app in Hold |- *. simpl in Hold |- *.
    rewrite app_nil_r in Hold |- *. rewrite length_app in Hold.
    assert (length (flat_map chunk (seq 0 n)) = n * c) as Hn
      by (apply length_flat_map_seq; auto).
    rewrite for_range_S.
    rewrite <- (take_drop (n * c) old).
    rewrite <- (app_assoc (take (n * c) old)).
    rewrite IH; [|auto|auto|done|rewrite length_take; lia].
    simpl. rewrite (app_assoc pre).
    rewrite (Hbody n); [|lia|rewrite length_app, length_zip_with, length_take; lia
                        |rewrite length_drop; lia].
    rewrite zip_with_app by (rewrite length_take; lia).
    by rewrite <- !app_assoc.
Qed.

Lemma writes_set sh idx off v :
  offset sh idx 0 = Some off ->
  writes (fun _ v => v) sh (fun s => set s idx v) off [v].
Proof.
  intros Ho pre old post Hpre Hold. destruct old as [|x [|??]]; try done.
  unfold set. simpl. rewrite Ho. simpl.
  rewrite option_guard_True by (rewrite length_app; simpl; lia).
  do 2 f_equal. rewrite <- Hpre. by rewrite insert_app_r_alt, Nat.sub_diag by lia.
Qed.

Lemma writes_add sh idx off v :
  offset sh idx 0 = Some off ->
  writes Rplus sh (fun s => old ← get s idx; set s idx (old + v)%R) off [v].
Proof.
  intros Ho pre old post Hpre Hold. destruct old as [|x [|??]]; try done.
  unfold get, set. simpl. rewrite Ho. simpl.
  rewrite <- Hpre, lookup_app_r, Nat.sub_diag by lia. simpl.
  rewrite option_guard_True by (rewrite length_app; simpl; lia).
  do 2 f_equal. by rewrite insert_app_r_alt, Nat.sub_diag by lia.
Qed.

Lemma zip_with_snd (old vals : list R) :
  length old = length vals -> zip_with (fun _ v => v) old vals = vals.
Proof.
  revert vals. induction old as [|x old IH]; intros [|v vals] H; try done.
  simpl. f_equal. apply IH. by injection H.
Qed.

Lemma offset1 n i : i < n -> offset [n] [i] 0 = Some i.
Proof. intros. simpl. rewrite decide_True by done. done. Qed.

Lemma offset2 h w i j : i < h -> j < w -> offset [h; w] [i; j] 0 = Some (i * w + j).
Proof. intros. simpl. rewrite !decide_True by done. done. Qed.

Lemma offset3 a b c f i j :
  f < a -> i < b -> j < c -> offset [a; b; c] [f; i; j] 0 = Some ((f * b + i) * c + j).
Proof. intros. simpl. rewrite !decide_True by done. done. Qed.

Lemma numel3 a b c : numel [a; b; c] = a * b * c.
Proof. simpl. lia. Qed.

(** ** The convolution layer *)

Lemma writes_zeros op sh body vals :
  writes op sh body 0 vals -> length vals = numel sh ->
  body (np.zeros sh)
  = Some (NdArray sh (zip_with op (replicate (numel sh) 0%R) vals)).
Proof.
  intros Hw Hlen. unfold np.zeros.
  specialize (Hw [] (replicate (numel sh) 0%R) []).
  rewrite !app_nil_r in Hw. simpl in Hw. apply Hw; [done|].
  by rewrite length_replicate.
Qed.

Lemma writes_ext op sh body body' off vals :
  (forall s, body s = body' s) -> writes op sh body' off vals ->
  writes op sh body off vals.
Proof. intros H Hw pre old post ??. rewrite H. by apply Hw. Qed.

Lemma writes_fill3 op a b c (body : nat -> nat -> nat -> ndarray -> option ndarray)
    (v : nat -> nat -> nat -> R) :
  (forall f i j, f < a -> i < b -> j < c ->
     writes op [a; b; c] (body f i j) ((f * b + i) * c + j) [v f i j]) ->
  writes op [a; b; c]
    (for_range a (fun f s => for_range b (fun i s =>
       for_range c (fun j s => body f i j s) s) s))
    0 (tab3 a b c v).
Proof.
  intros H. unfold tab3, tab2.
  apply (writes_for_range _ _ _ (b * c)).
  { intros f Hf. apply length_tab2. }
  intros f Hf. apply (writes_for_range _ _ _ c).
  { intros i Hi. apply length_tab. }
  intros i Hi. rewrite <- flat_map_singleton.
  apply (writes_for_range _ _ _ 1); [done|].
  intros j Hj.
  replace (0 + f * (b * c) + i * c + j * 1) with ((f * b + i) * c + j) by lia.
  by apply H.
Qed.

Section conv_forward.
Import ConvolutionLayer.
Context (self : ConvolutionLayer.t) (x : ndarray) (H W : nat).
Let k := filter_size self.
Let F := num_filters self.
Context (Hwf : conv_wf self).
Context (Hs : shape x = [H; W]) (Hv : valid x) (HkH : k <= H) (HkW : k <= W).

Lemma conv_forward_cell f i j output :
  f < F -> i < H - k + 1 -> j < W - k + 1 ->
  (patch ← slice2 x i (i + k) j (j + k);
   kernel ← getitem (conv_filter self) f;
   prod ← map2 Rmult patch kernel;
   b ← get (bias self) [f];
   set output [f; i; j] (np.sum prod + b)%R)
  = set output [f; i; j] (conv_out self x f i j).
Proof using Hwf Hs Hv HkH HkW.
  intros Hf Hi Hj. destruct Hwf as (HKs & HKv & HBs & HBv).
  rewrite (slice2_tab x H W) by (done || lia).
  rewrite (getitem_tab2 _ F k k) by done. simpl.
  unfold map2. simpl. rewrite option_guard_True by done. simpl.
  rewrite (get_cell _ [F] [f] f); [|done|by apply offset1|].
  2:{ unfold valid in HBv. rewrite HBv, HBs. simpl. lia. }
  simpl. f_equal. unfold conv_out, np.sum. simpl. fold k.
  rewrite zip_with_tab2. fold (Rsum (tab2 k k
    (fun a b => (nth ((i + a) * W + (j + b)) (data x) 0
                 * nth ((f * k + a) * k + b) (data (conv_filter self)) 0)%R))).
  rewrite Rsum_tab2. f_equal.
  apply bigsum_ext. intros a Ha. apply bigsum_ext. intros b Hb.
  rewrite (cell2 x H W), (cell3 _ F k k) by (done || lia). done.
Qed.

Lemma conv_forward_tab :
  forward self x
  = Some (Build F k (conv_filter self) (bias self) (Some x),
          NdArray [F; H - k + 1; W - k + 1]
            (tab3 F (H - k + 1) (W - k + 1) (conv_out self x))).
Proof using Hwf Hs Hv HkH HkW.
  unfold forward. rewrite Hs. simpl. fold k F.
  rewrite !option_guard_True by lia. simpl.
  replace (H + 1 - k) with (H - k + 1) by lia.
  replace (W + 1 - k) with (W - k + 1) by lia.
  erewrite (writes_zeros (fun _ v => v)); [simpl| |].
  - rewrite zip_with_snd; [done|].
    rewrite length_replicate, length_tab3. lia.
  - apply writes_fill3. intros f i j Hf Hi Hj.
    eapply writes_ext; [intros s; by apply conv_forward_cell|].
    apply writes_set. by apply offset3.
  - rewrite length_tab3. simpl. lia.
Qed.
End conv_forward.

Lemma get_lookup a sh idx o :
  shape a = sh -> offset sh idx 0 = Some o -> get a idx = data a !! o.
Proof. intros Hs Ho. unfold get. by rewrite Hs, Ho. Qed.

Lemma lookup_nth_lt (l : list R) i :
  i < length l -> l !! i = Some (nth i l 0%R).
Proof.
  intros Hlt. destruct (lookup_lt_is_Some_2 _ _ Hlt) as [v Hv].
  rewrite Hv. f_equal. symmetry. by apply nth_lookup_Some.
Qed.

Lemma get_tab3 a b c g f i j :
  f < a -> i < b -> j < c ->
  get (NdArray [a; b; c] (tab3 a b c g)) [f; i; j] = Some (g f i j).
Proof.
  intros Hf Hi Hj.
  rewrite (get_lookup _ [a; b; c] _ ((f * b + i) * c + j))
    by (done || by apply offset3).
  cbn [data]. rewrite lookup_nth_lt by (rewrite length_tab3; by apply ravel3_lt).
  by rewrite nth_tab3.
Qed.

(** C7.  Forward pass of the convolution layer: for a single-channel input of
    height [H] and width [W], both at least the filter size [k], [forward]
    returns an array of shape [(num_filters, H - k + 1, W - k + 1)] whose cell
    [(f, i, j)] is the sum over the [k] by [k] window at [(i, j)] of input
    times kernel [f], plus the bias of filter [f]. *)
Theorem conv_forward_spec (self : ConvolutionLayer.t) (x : ndarray) (H W : nat) :
  let k := ConvolutionLayer.filter_size self in
  let F := ConvolutionLayer.num_filters self in
  conv_wf self -> shape x = [H; W] -> valid x -> k <= H -> k <= W ->
  exists self' out,
    ConvolutionLayer.forward self x = Some (self', out)
    /\ shape out = [F; H - k + 1; W - k + 1]
    /\ valid out
    /\ forall f i j, f < F -> i < H - k + 1 -> j < W - k + 1 ->
         get out [f; i; j]
         = Some (bigsum k (fun a => bigsum k (fun b =>
                   cell x [i + a; j + b]%nat
                   * cell (ConvolutionLayer.conv_filter self) [f; a; b]))
                 + cell (ConvolutionLayer.bias self) [f])%R.
Proof.
  intros k F Hwf Hs Hv HkH HkW.
  eexists _, _. split; [by apply (conv_forward_tab self x H W)|].
  split; [done|]. split.
  { unfold valid. simpl. rewrite length_tab3. lia. }
  intros f i j Hf Hi Hj. by rewrite get_tab3.
Qed.

Lemma pad_tab a h w p :
  shape a = [h; w] -> valid a ->
  np.pad a p
  = Some (NdArray [p + h + p; p + w + p]
            (tab2 (p + h + p) (p + w + p) (fun i j =>
               if decide (p <= i < p + h /\ p <= j < p + w)
               then nth ((i - p) * w + (j - p)) (data a) 0%R else 0%R))).
Proof.
  intros Hs Hv. unfold valid in Hv. rewrite Hs in Hv. simpl in Hv.
  unfold np.pad. rewrite Hs. do 2 f_equal.
  rewrite !tab2_app_rows, <- app_assoc. f_equal; [|f_equal].
  - rewrite tab2_const0. apply tab2_ext. intros i j Hi Hj.
    rewrite decide_False; [done | lia].
  - unfold tab2. apply flat_map_seq_ext. intros i Hi.
    rewrite !tab_app, <- app_assoc. f_equal; [|f_equal].
    + rewrite tab_replicate. apply tab_ext. intros j Hj.
      rewrite decide_False; [done | lia].
    + rewrite take_drop_tab by nia. apply tab_ext. intros j Hj.
      rewrite decide_True by lia. f_equal. lia.
    + rewrite tab_replicate. apply tab_ext. intros j Hj.
      rewrite decide_False; [done | lia].
  - rewrite tab2_const0. apply tab2_ext. intros i j Hi Hj.
    rewrite decide_False; [done | lia].
Qed.

Lemma reverse_tab n g : reverse (tab n g) = tab n (fun i => g (n - 1 - i)).
Proof.
  induction n as [|n IH]; [done|].
  rewrite tab_S, reverse_app, IH. simpl.
  rewrite (tab_app 1 n). simpl. f_equal.
  - unfold tab. simpl. do 2 f_equal. lia.
  - apply tab_ext. intros i Hi. f_equal. lia.
Qed.

Lemma flat_map_reverse_seq {A} (F : nat -> list A) n :
  flat_map F (reverse (seq 0 n)) = flat_map (fun i => F (n - 1 - i)) (seq 0 n).
Proof.
  induction n as [|n IH]; [done|].
  rewrite seq_S at 1. rewrite reverse_app. cbn [reverse rev_append app flat_map].
  rewrite IH. rewrite <- cons_seq. cbn [flat_map]. rewrite Nat.sub_0_r.
  f_equal; [f_equal; lia|].
  rewrite (flat_map_seq_shift _ 1). apply flat_map_seq_ext.
  intros i Hi. f_equal. lia.
Qed.

Lemma rot180_tab a h w :
  shape a = [h; w] -> valid a ->
  np.rot180 a
  = Some (NdArray [h; w]
            (tab2 h w (fun i j =>
               nth ((h - 1 - i) * w + (w - 1 - j)) (data a) 0%R))).
Proof.
  intros Hs Hv. unfold valid in Hv. rewrite Hs in Hv. simpl in Hv.
  unfold np.rot180. rewrite Hs. do 2 f_equal.
  rewrite flat_map_reverse_seq. unfold tab2. apply flat_map_seq_ext.
  intros i Hi. rewrite take_drop_tab by nia. rewrite reverse_tab.
  apply tab_ext. intros j Hj. done.
Qed.

Lemma writes_whole op sh body vals old :
  writes op sh body 0 vals -> length old = length vals ->
  body (NdArray sh old) = Some (NdArray sh (zip_with op old vals)).
Proof.
  intros Hw Hlen. specialize (Hw [] old []).
  rewrite !app_nil_r in Hw. simpl in Hw. by apply Hw.
Qed.

Lemma writes_fill2 op h w (body : nat -> nat -> ndarray -> option ndarray)
    (v : nat -> nat -> R) :
  (forall i j, i < h -> j < w ->
     writes op [h; w] (body i j) (i * w + j) [v i j]) ->
  writes op [h; w]
    (for_range h (fun i s => for_range w (fun j s => body i j s) s))
    0 (tab2 h w v).
Proof.
  intros H. unfold tab2.
  apply (writes_for_range _ _ _ w).
  { intros i Hi. apply length_tab. }
  intros i Hi. rewrite <- flat_map_singleton.
  apply (writes_for_range _ _ _ 1); [done|].
  intros j Hj.
  replace (0 + i * w + j * 1) with (i * w + j) by lia.
  by apply H.
Qed.

Lemma set_Some a sh idx o v :
  shape a = sh -> offset sh idx 0 = Some o -> o < length (data a) ->
  set a idx v = Some (NdArray sh (<[o := v]> (data a))).
Proof.
  intros Hs Ho Hlt. unfold set. rewrite Hs, Ho. cbn [mbind option_bind].
  by rewrite option_guard_True by done.
Qed.

Lemma getitem_Some a n rest f :
  shape a = n :: rest -> f < n ->
  getitem a f
  = Some (NdArray rest (take (numel rest) (drop (f * numel rest) (data a)))).
Proof.
  intros Hs Hf. unfold getitem. rewrite Hs.
  by rewrite option_guard_True by done.
Qed.

Lemma setitem_Some a n rest f b :
  shape a = n :: rest -> f < n -> shape b = rest ->
  exists d, setitem a f b = Some (NdArray (n :: rest) d).
Proof.
  intros Hs Hf Hb. unfold setitem. rewrite Hs.
  rewrite !option_guard_True by done. eauto.
Qed.

Section conv_backward.
Import ConvolutionLayer.
Context (self : ConvolutionLayer.t) (X g : ndarray) (H W : nat).
Let k := filter_size self.
Let F := num_filters self.
Context (Hwf : conv_wf self) (Hk : 0 < k).
Context (Hs : shape X = [H; W]) (Hv : valid X) (HkH : k <= H) (HkW : k <= W).
Context (Hgs : shape g = [F; H - k + 1; W - k + 1]) (Hgv : valid g).

Lemma conv_backward_cell f i j padded ie :
  f < F -> i < H -> j < W ->
  (oe_f ← getitem g f; np.pad oe_f (k - 1)) = Some padded ->
  (win ← slice2 padded i (i + k) j (j + k);
   kernel ← getitem (conv_filter self) f;
   rot ← np.rot180 kernel;
   prod ← map2 Rmult win rot;
   old ← get ie [i; j];
   set ie [i; j] (old + np.sum prod)%R)
  = (old ← get ie [i; j]; set ie [i; j] (old + conv_in_grad self g f i j)%R).
Proof using Hwf Hk Hs Hv HkH HkW Hgs Hgv.
  intros Hf Hi Hj Hpad. destruct Hwf as (HKs & HKv & _).
  rewrite (getitem_tab2 _ F (H - k + 1) (W - k + 1)) in Hpad by done.
  simpl in Hpad.
  erewrite pad_tab in Hpad; [|done|by unfold valid; simpl; rewrite length_tab2; lia].
  injection Hpad as <-.
  erewrite (slice2_tab _ _ _ i j k k); [|done| |simpl; lia|simpl; lia].
  2:{ unfold valid. simpl. rewrite length_tab2. lia. }
  cbn [mbind option_bind].
  rewrite (getitem_tab2 _ F k k) by done. cbn [mbind option_bind].
  erewrite rot180_tab; [|done|by unfold valid; simpl; rewrite length_tab2; lia].
  cbn [mbind option_bind]. unfold map2. cbn [shape data].
  rewrite option_guard_True by done. cbn [mbind option_bind].
  destruct (get ie [i; j]) as [old|]; [cbn [mbind option_bind]|done].
  do 2 f_equal.
  unfold np.sum. cbn [data]. rewrite zip_with_tab2.
  unfold conv_in_grad. fold k.
  match goal with |- foldr Rplus 0%R ?l = _ => change (foldr Rplus 0%R l) with (Rsum l) end.
  rewrite Rsum_tab2.
  apply bigsum_ext. intros a Ha. apply bigsum_ext. intros b Hb.
  rewrite (nth_tab2 _ _ _ (i + a) (j + b)) by lia.
  rewrite (nth_tab2 _ _ _ (k - 1 - a) (k - 1 - b)) by lia. unfold pad_cell. rewrite Hgs.
  rewrite (cell3 (conv_filter self) F k k) by (done || lia). f_equal.
  destruct (decide _) as [Hin|Hout]; [|done].
  rewrite (cell3 g F (H - k + 1) (W - k + 1)) by (done || lia).
  by rewrite nth_tab2 by lia.
Qed.

Lemma conv_backward_filter f ied fe be :
  f < F -> length ied = H * W ->
  shape fe = [F; k; k] -> shape be = [F] -> length (data be) = F ->
  exists fe' be',
    backward_filter self X g f (NdArray [H; W] ied, fe, be)
    = Some (NdArray [H; W]
              (zip_with Rplus ied (tab2 H W (conv_in_grad self g f))), fe', be')
    /\ shape fe' = [F; k; k] /\ shape be' = [F] /\ length (data be') = F.
Proof using Hwf Hk Hs Hv HkH HkW Hgs Hgv.
  intros Hf Hied Hfe Hbe Hbel.
  unfold backward_filter. rewrite Hgs, Hs. fold k.
  destruct (oe_f ← getitem g f; np.pad oe_f (k - 1)) as [padded|] eqn:Hpad.
  2:{ rewrite (getitem_tab2 _ F (H - k + 1) (W - k + 1)) in Hpad by done.
      simpl in Hpad. erewrite pad_tab in Hpad; [done|done|].
      unfold valid; simpl; rewrite length_tab2; lia. }
  destruct (getitem g f) as [oe_f|] eqn:Hoe; [|done]. simpl in Hpad.
  cbn [mbind option_bind]. rewrite option_guard_True by done.
  cbn [mbind option_bind]. rewrite Hpad. cbn [mbind option_bind].
  erewrite (writes_whole Rplus [H; W]).
  2:{ apply writes_fill2. intros i j Hi Hj.
      eapply writes_ext.
      - intros s. apply (conv_backward_cell f i j padded s); try done.
        by rewrite Hoe.
      - apply writes_add. by apply offset2. }
  2:{ by rewrite length_tab2. }
  cbn [mbind option_bind].
  destruct (for_range_inv
    (fun _ (s : ndarray * ndarray) =>
       shape s.1 = [F; k; k] /\ shape s.2 = [F] /\ length (data s.2) = F)
    (H - k + 1)
    (fun i acc => for_range (W - k + 1) (fun j '(filter_error, bias_error) =>
          patch ← slice2 X i (i + k) j (j + k);
          g0 ← get g [f; i; j];
          fe_f ← getitem filter_error f;
          fe_f ← map2 Rplus fe_f (smap (fun x => x * g0)%R patch);
          filter_error ← setitem filter_error f fe_f;
          old ← get bias_error [f];
          bias_error ← set bias_error [f] (old + g0)%R;
          Some (filter_error, bias_error)) acc)
    (fe, be)) as ([fe' be'] & Hloop & HP); [done| |].
  { intros i s Hi HP. apply (for_range_inv (fun _ s =>
       shape s.1 = [F; k; k] /\ shape s.2 = [F] /\ length (data s.2) = F));
      [done|].
    clear s HP. intros j [fe1 be1] Hj (Hfe1 & Hbe1 & Hbel1). simpl in *.
    rewrite (slice2_tab X H W) by (done || lia). cbn [mbind option_bind].
    erewrite (get_cell g); [|done|by apply offset3|].
    2:{ unfold valid in Hgv. rewrite Hgv, Hgs, numel3. by apply ravel3_lt. }
    cbn [mbind option_bind].
    rewrite (getitem_Some fe1 F [k; k]) by done. cbn [mbind option_bind].
    unfold map2 at 1. cbn [shape smap]. rewrite option_guard_True by done.
    cbn [mbind option_bind].
    edestruct (setitem_Some fe1 F [k; k] f) as [d ->]; [done|done| |].
    { reflexivity. }
    cbn [mbind option_bind].
    erewrite (get_cell be1); [|done|by apply offset1|lia].
    cbn [mbind option_bind].
    erewrite set_Some; [|done|by apply offset1|lia].
    cbn [mbind option_bind].
    eexists. split; [done|]. simpl. by rewrite length_insert. }
  rewrite Hloop. simpl. eauto.
Qed.

Lemma conv_backward_tab lr :
  input self = Some X ->
  exists self',
    backward self g lr
    = Some (self',
            NdArray [H; W]
              (tab2 H W (fun i j => bigsum F (fun f => conv_in_grad self g f i j))))
    /\ num_filters self' = F /\ filter_size self' = k /\ input self' = Some X.
Proof using Hwf Hk Hs Hv HkH HkW Hgs Hgv.
  intros Hin. unfold backward. rewrite Hin. cbn [mbind option_bind].
  destruct Hwf as (HKs & HKv & HBs & HBv).
  destruct (for_range_inv
    (fun n (s : ndarray * ndarray * ndarray) =>
       s.1.1 = NdArray [H; W]
                 (tab2 H W (fun i j => bigsum n (fun f => conv_in_grad self g f i j)))
       /\ shape s.1.2 = [F; k; k] /\ shape s.2 = [F] /\ length (data s.2) = F)
    F (backward_filter self X g)
    (np.zeros_like X, np.zeros_like (conv_filter self), np.zeros_like (bias self)))
    as ([[ie fe] be] & Hloop & HP).
  { simpl. unfold np.zeros_like, np.zeros. rewrite Hs, HKs, HBs. simpl.
    split; [|split; [done|split; [done|]]].
    - f_equal. rewrite Nat.mul_1_r, tab2_const0. done.
    - rewrite length_replicate. lia. }
  { intros f [[ie fe] be] Hf (Hie & Hfe & Hbe & Hbel).
    simpl in Hie, Hfe, Hbe, Hbel. subst ie.
    destruct (conv_backward_filter f
      (tab2 H W (fun i j => bigsum f (fun f' => conv_in_grad self g f' i j)))
      fe be Hf) as (fe' & be' & -> & ? & ? & ?);
      [by rewrite length_tab2|done..|].
    eexists. split; [done|]. simpl. split; [|done].
    f_equal. rewrite zip_with_tab2. apply tab2_ext. intros i j _ _.
    by rewrite bigsum_S. }
  fold F. rewrite Hloop. simpl in HP. destruct HP as (-> & Hfe & Hbe & _).
  cbn [mbind option_bind]. unfold map2. cbn [shape smap].
  assert (shape (conv_filter self) = shape fe) as HE1
    by (rewrite Hfe; exact HKs).
  assert (shape (bias self) = shape be) as HE2 by (rewrite Hbe; exact HBs).
  rewrite (option_guard_True _ _ HE1). cbn [mbind option_bind].
  rewrite (option_guard_True _ _ HE2). cbn [mbind option_bind].
  eexists. split; [done|]. done.
Qed.
End conv_backward.

Lemma Rsum_reverse l : Rsum (reverse l) = Rsum l.
Proof.
  induction l as [|x l IH]; [done|].
  rewrite reverse_cons, Rsum_app, IH. simpl. lra.
Qed.

Lemma bigsum_rev n F : bigsum n F = bigsum n (fun i => F (n - 1 - i)).
Proof.
  rewrite <- !Rsum_tab, <- reverse_tab. by rewrite Rsum_reverse.
Qed.

Lemma bigsum_scal_r n c F :
  bigsum n (fun i => F i * c)%R = (bigsum n F * c)%R.
Proof.
  induction n as [|n IH]; [unfold bigsum; simpl; lra|].
  rewrite !bigsum_S, IH. lra.
Qed.

Lemma bigsum_window a n r psi :
  bigsum (a + n + r)
    (fun i => if decide (a <= i < a + n) then psi (i - a) else 0%R)
  = bigsum n psi.
Proof.
  rewrite !bigsum_app.
  rewrite (bigsum_ext a _ (fun _ => 0%R)), bigsum_0.
  2:{ intros i Hi. rewrite decide_False; [done | lia]. }
  rewrite (bigsum_ext r _ (fun _ => 0%R)), bigsum_0.
  2:{ intros i Hi. rewrite decide_False; [done | lia]. }
  rewrite (bigsum_ext n _ psi); [lra|].
  intros i Hi. rewrite decide_True by lia. f_equal. lia.
Qed.

Lemma bigsum_exchange4 n1 n2 n3 n4 (T : nat -> nat -> nat -> nat -> R) :
  bigsum n1 (fun p => bigsum n2 (fun q => bigsum n3 (fun a => bigsum n4 (fun b =>
    T p q a b))))
  = bigsum n3 (fun a => bigsum n4 (fun b => bigsum n1 (fun p => bigsum n2 (fun q =>
    T p q a b)))).
Proof.
  transitivity (bigsum n1 (fun p => bigsum n3 (fun a => bigsum n2 (fun q =>
    bigsum n4 (fun b => T p q a b))))).
  { apply bigsum_ext. intros p _. apply bigsum_exchange. }
  rewrite bigsum_exchange. apply bigsum_ext. intros a _.
  transitivity (bigsum n1 (fun p => bigsum n4 (fun b => bigsum n2 (fun q =>
    T p q a b)))).
  { apply bigsum_ext. intros p _. apply bigsum_exchange. }
  apply bigsum_exchange.
Qed.

(** The correlation with a kernel and the correlation of the padded argument
    with the rotated kernel are adjoint. *)
Lemma corr_adjoint (X K G : nat -> nat -> R) (k OH OW : nat) :
  0 < k ->
  bigsum OH (fun p => bigsum OW (fun q =>
    bigsum k (fun a => bigsum k (fun b => X (p + a)%nat (q + b)%nat * K a b)) * G p q))%R
  = bigsum (OH + k - 1) (fun i => bigsum (OW + k - 1) (fun j =>
      X i j * bigsum k (fun a => bigsum k (fun b =>
        (if decide (k - 1 <= i + a < k - 1 + OH /\ k - 1 <= j + b < k - 1 + OW)%nat
         then G (i + a - (k - 1))%nat (j + b - (k - 1))%nat else 0)
        * K (k - 1 - a)%nat (k - 1 - b)%nat))))%R.
Proof.
  intros Hk.
  transitivity (bigsum k (fun a => bigsum k (fun b =>
    bigsum OH (fun p => bigsum OW (fun q =>
      X (p + a)%nat (q + b)%nat * K a b * G p q)))))%R.
  { rewrite <- bigsum_exchange4. apply bigsum_ext. intros p _.
    apply bigsum_ext. intros q _. rewrite <- bigsum_scal_r.
    apply bigsum_ext. intros a _. by rewrite <- bigsum_scal_r. }
  symmetry.
  transitivity (bigsum (OH + k - 1) (fun i => bigsum (OW + k - 1) (fun j =>
    bigsum k (fun a => bigsum k (fun b =>
      if decide (a <= i < a + OH /\ b <= j < b + OW)%nat
      then X (i - a + a)%nat (j - b + b)%nat * K a b * G (i - a)%nat (j - b)%nat
      else 0)))))%R.
  { apply bigsum_ext. intros i Hi. apply bigsum_ext. intros j Hj.
    rewrite <- bigsum_scal, (bigsum_rev k). apply bigsum_ext. intros a Ha.
    rewrite <- bigsum_scal, (bigsum_rev k). apply bigsum_ext. intros b Hb.
    replace (k - 1 - (k - 1 - a)) with a by lia.
    replace (k - 1 - (k - 1 - b)) with b by lia.
    destruct (decide (a <= i < a + OH /\ b <= j < b + OW)) as [Hin|Hout].
    - rewrite decide_True by lia.
      replace (i + (k - 1 - a) - (k - 1)) with (i - a) by lia.
      replace (j + (k - 1 - b) - (k - 1)) with (j - b) by lia.
      replace (i - a + a) with i by lia. replace (j - b + b) with j by lia.
      lra.
    - rewrite decide_False by lia. lra. }
  rewrite bigsum_exchange4. apply bigsum_ext. intros a Ha.
  apply bigsum_ext. intros b Hb.
  replace (OH + k - 1) with (a + OH + (k - 1 - a)) by lia.
  replace (OW + k - 1) with (b + OW + (k - 1 - b)) by lia.
  rewrite <- (bigsum_window a OH (k - 1 - a)). apply bigsum_ext. intros i Hi.
  destruct (decide (a <= i < a + OH)) as [Hin|Hout].
  - rewrite <- (bigsum_window b OW (k - 1 - b)). apply bigsum_ext. intros j Hj.
    destruct (decide (b <= j < b + OW)).
    + by rewrite decide_True by lia.
    + by rewrite decide_False by lia.
  - etransitivity; [|apply (bigsum_0 (b + OW + (k - 1 - b)))].
    apply bigsum_ext. intros j Hj. by rewrite decide_False by lia.
Qed.

Lemma tab3_nth (l : list R) a b c :
  length l = a * b * c ->
  l = tab3 a b c (fun f i j => nth ((f * b + i) * c + j) l 0%R).
Proof.
  intros Hl. rewrite (tab2_nth l a (b * c)) at 1 by lia.
  unfold tab3, tab2 at 1. apply flat_map_seq_ext. intros f Hf.
  rewrite tab_tab2. apply tab2_ext. intros i j _ _. f_equal. lia.
Qed.

Lemma zip_with_tab3 op a b c g1 g2 :
  zip_with op (tab3 a b c g1) (tab3 a b c g2)
  = tab3 a b c (fun f i j => op (g1 f i j) (g2 f i j)).
Proof.
  induction a as [|a IH]; [done|].
  rewrite !tab3_S, zip_with_app by (by rewrite !length_tab3).
  by rewrite IH, zip_with_tab2.
Qed.

Lemma Rsum_tab3 a b c g :
  Rsum (tab3 a b c g)
  = bigsum a (fun f => bigsum b (fun i => bigsum c (g f i))).
Proof.
  induction a as [|a IH]; [done|].
  by rewrite tab3_S, Rsum_app, IH, Rsum_tab2, bigsum_S.
Qed.

(** C1.  Backward pass of the convolution layer: for an output gradient [g] of
    the shape of the forward output and any learning rate, [backward] returns
    an input gradient of the shape of the cached input whose cell [(i, j)] is
    the sum over the filters of the correlation, at [(i, j)], of [g[f]] padded
    with [k - 1] zeros on every side with kernel [f] rotated by 180 degrees.
    This is the transpose of the forward correlation: for every input [x] the
    inner product of the bias-free forward output with [g] is the inner
    product of [x] with the returned gradient.  ([np.pad] refuses the width
    [-1], so the filter size is at least 1.) *)
Theorem conv_backward_spec (self : ConvolutionLayer.t) (X g : ndarray)
    (H W : nat) (lr : R) :
  let k := ConvolutionLayer.filter_size self in
  let F := ConvolutionLayer.num_filters self in
  conv_wf self -> 0 < k ->
  ConvolutionLayer.input self = Some X ->
  shape X = [H; W] -> valid X -> k <= H -> k <= W ->
  shape g = [F; H - k + 1; W - k + 1] -> valid g ->
  exists self' input_error,
    ConvolutionLayer.backward self g lr = Some (self', input_error)
    /\ shape input_error = shape X
    /\ valid input_error
    /\ (forall i j, i < H -> j < W ->
          get input_error [i; j]
          = Some (bigsum F (fun f => bigsum k (fun a => bigsum k (fun b =>
                    (pad_cell g (k - 1) f (i + a) (j + b)
                     * cell (ConvolutionLayer.conv_filter self)
                         [f; k - 1 - a; k - 1 - b]%nat)%R)))))
    /\ (forall x, shape x = [H; W] -> valid x ->
          exists self0 y,
            ConvolutionLayer.forward
              (ConvolutionLayer.Build F k (ConvolutionLayer.conv_filter self)
                 (np.zeros [F]) None) x
            = Some (self0, y)
            /\ inner y g = inner x input_error).
Proof.
  intros k F Hwf Hk Hin Hs Hv HkH HkW Hgs Hgv.
  destruct (conv_backward_tab self X g H W Hwf Hk Hs Hv HkH HkW Hgs Hgv lr Hin)
    as (self' & Hbw & _).
  eexists _, _. split; [exact Hbw|]. split; [by rewrite Hs|]. split.
  { unfold valid. simpl. rewrite length_tab2. lia. }
  split.
  - intros i j Hi Hj.
    rewrite (get_lookup _ [H; W] _ (i * W + j)) by (done || by apply offset2).
    cbn [data]. rewrite lookup_nth_lt by (rewrite length_tab2; by apply ravel2_lt).
    by rewrite nth_tab2.
  - intros x Hxs Hxv.
    set (self0 := ConvolutionLayer.Build F k (ConvolutionLayer.conv_filter self)
                    (np.zeros [F]) None).
    assert (conv_wf self0) as Hwf0.
    { destruct Hwf as (? & ? & ? & ?). repeat split; try done.
      unfold valid. simpl. by rewrite length_replicate. }
    eexists _, _. split.
    { apply (conv_forward_tab self0 x H W Hwf0 Hxs Hxv HkH HkW). }
    unfold inner. cbn [data ConvolutionLayer.num_filters
      ConvolutionLayer.filter_size self0].
    fold k F.
    assert (length (data g) = F * (H - k + 1) * (W - k + 1)) as Hgl.
    { unfold valid in Hgv. by rewrite Hgv, Hgs, numel3. }
    assert (length (data x) = H * W) as Hxl.
    { unfold valid in Hxv. rewrite Hxv, Hxs. simpl. lia. }
    rewrite (tab3_nth (data g) _ _ _ Hgl) at 1.
    rewrite (tab2_nth (data x) _ _ Hxl) at 1.
    rewrite zip_with_tab3, zip_with_tab2, Rsum_tab3, Rsum_tab2.
    transitivity (bigsum F (fun f => bigsum H (fun i => bigsum W (fun j =>
      nth (i * W + j) (data x) 0 * conv_in_grad self g f i j))))%R.
    2:{ rewrite bigsum_exchange. apply bigsum_ext. intros i _.
        rewrite bigsum_exchange. apply bigsum_ext. intros j _.
        by rewrite bigsum_scal. }
    apply bigsum_ext. intros f Hf.
    pose proof (corr_adjoint
      (fun i j => nth (i * W + j) (data x) 0%R)
      (fun a b => cell (ConvolutionLayer.conv_filter self) [f; a; b])
      (fun p q => nth ((f * (H - k + 1) + p) * (W - k + 1) + q) (data g) 0%R)
      k (H - k + 1) (W - k + 1) Hk) as Hadj.
    replace (H - k + 1 + k - 1) with H in Hadj by lia.
    replace (W - k + 1 + k - 1) with W in Hadj by lia.
    etransitivity; [|etransitivity; [exact Hadj|]].
    + apply bigsum_ext. intros p Hp. apply bigsum_ext. intros q Hq.
      f_equal. unfold conv_out.
      cbn [ConvolutionLayer.filter_size ConvolutionLayer.conv_filter
           ConvolutionLayer.bias self0]. fold k.
      assert (cell (np.zeros [F]) [f] = 0%R) as ->.
      { rewrite (cell1 _ F) by done. simpl.
        rewrite nth_lookup, lookup_replicate_2 by lia. done. }
      rewrite Rplus_0_r. apply bigsum_ext. intros a Ha.
      apply bigsum_ext. intros b Hb. f_equal.
      by rewrite (cell2 x H W) by (done || lia).
    + apply bigsum_ext. intros i Hi. apply bigsum_ext. intros j Hj.
      f_equal. unfold conv_in_grad. fold k.
      apply bigsum_ext. intros a Ha. apply bigsum_ext. intros b Hb.
      f_equal. unfold pad_cell. rewrite Hgs.
      destruct (decide _) as [Hin'|Hout]; [|done].
      by rewrite (cell3 g F (H - k + 1) (W - k + 1)) by (done || lia).
Qed.

(** ** The max-pooling layer *)

Lemma argmax_from_spec (l pre : list R) best besti :
  besti < length pre -> nth besti pre 0%R = best ->
  (forall m, m < length pre -> (nth m pre 0 <= best)%R) ->
  (forall m, m < besti -> (nth m pre 0 < best)%R) ->
  let n := argmax_from best besti (length pre) l in
  n < length (pre ++ l)
  /\ (forall m, m < length (pre ++ l) ->
        (nth m (pre ++ l) 0 <= nth n (pre ++ l) 0)%R)
  /\ (forall m, m < n -> (nth m (pre ++ l) 0 < nth n (pre ++ l) 0)%R).
Proof.
  revert pre best besti. induction l as [|x l IH]; intros pre best besti Hlt Hb Hle Hfirst.
  - simpl. rewrite app_nil_r. rewrite Hb. auto.
  - simpl. rewrite (cons_middle x pre l), app_assoc.
    assert (S (length pre) = length (pre ++ [x])) as ->
      by (rewrite length_app; simpl; lia).
    destruct (Rlt_dec best x) as [Hx|Hx].
    + apply IH.
      * rewrite length_app. simpl. lia.
      * by rewrite app_nth2, Nat.sub_diag by lia.
      * intros m Hm. rewrite length_app in Hm. simpl in Hm.
        destruct (decide (m < length pre)).
        -- rewrite app_nth1 by done. specialize (Hle m ltac:(lia)). lra.
        -- rewrite app_nth2 by lia. replace (m - length pre) with 0 by lia.
           simpl. lra.
      * intros m Hm. rewrite app_nth1 by done. specialize (Hle m ltac:(lia)). lra.
    + apply IH.
      * rewrite length_app. simpl. lia.
      * by rewrite app_nth1.
      * intros m Hm. rewrite length_app in Hm. simpl in Hm.
        destruct (decide (m < length pre)).
        -- rewrite app_nth1 by done. auto.
        -- rewrite app_nth2 by lia. replace (m - length pre) with 0 by lia.
           simpl. lra.
      * intros m Hm. rewrite app_nth1 by lia. auto.
Qed.

Lemma argmax_spec a :
  data a <> [] ->
  exists n, np.argmax a = Some n
    /\ n < length (data a)
    /\ (forall m, m < length (data a) ->
          (nth m (data a) 0 <= nth n (data a) 0)%R)
    /\ (forall m, m < n -> (nth m (data a) 0 < nth n (data a) 0)%R).
Proof.
  intros Hne. unfold np.argmax. destruct (data a) as [|x l]; [done|].
  eexists. split; [done|].
  apply (argmax_from_spec l [x] x 0); simpl; [lia|done| |lia].
  intros m Hm. replace m with 0 by lia. lra.
Qed.

(** Scattered accumulation *)

Lemma adds_for_range sh N n (body : nat -> ndarray -> option ndarray)
    (delta : nat -> nat -> R) :
  (forall i, i < n -> adds sh N (body i) (delta i)) ->
  adds sh N (for_range n body) (fun m => bigsum n (fun i => delta i m)).
Proof.
  intros Hbody. induction n as [|n IH]; intros h.
  - unfold for_range. simpl. do 2 f_equal. apply tab_ext. intros m _.
    unfold bigsum. simpl. lra.
  - rewrite for_range_S, IH by auto. simpl. rewrite (Hbody n) by lia.
    do 2 f_equal. apply tab_ext. intros m _. rewrite bigsum_S. lra.
Qed.

Lemma insert_tab n g i v :
  i < n ->
  <[i := v]> (tab n g) = tab n (fun m => if decide (m = i) then v else g m).
Proof.
  intros Hi. apply list_eq_same_length with n;
    [by rewrite length_tab | by rewrite length_insert, length_tab |].
  intros m x y Hm Hx Hy. rewrite lookup_tab in Hy by done.
  destruct (decide (m = i)) as [->|Hne].
  - rewrite list_lookup_insert_eq in Hx by (by rewrite length_tab). congruence.
  - rewrite list_lookup_insert_ne, lookup_tab in Hx by done. congruence.
Qed.

Lemma adds_cell sh N idx o v :
  offset sh idx 0 = Some o -> o < N ->
  adds sh N (fun s => old ← get s idx; set s idx (old + v)%R)
    (fun n => if decide (n = o) then v else 0%R).
Proof.
  intros Ho Hlt h. unfold get, set. cbn [shape data]. rewrite Ho.
  cbn [mbind option_bind]. rewrite lookup_tab by done.
  cbn [mbind option_bind]. rewrite option_guard_True by (by rewrite length_tab).
  cbn [mbind option_bind]. do 2 f_equal. rewrite insert_tab by done.
  apply tab_ext. intros m _. destruct (decide (m = o)) as [->|]; [done|lra].
Qed.

Lemma bigsum_single n F i0 :
  i0 < n -> (forall i, i < n -> i <> i0 -> F i = 0%R) -> bigsum n F = F i0.
Proof.
  intros Hi H0. replace n with (i0 + 1 + (n - i0 - 1)) by lia.
  rewrite !bigsum_app.
  rewrite (bigsum_ext i0 _ (fun _ => 0%R)), bigsum_0 by (intros; apply H0; lia).
  rewrite (bigsum_ext (n - i0 - 1) _ (fun _ => 0%R)), bigsum_0
    by (intros; apply H0; lia).
  unfold bigsum. simpl. rewrite Nat.add_0_r. lra.
Qed.

Lemma ravel_inj w a b a' b' :
  b < w -> b' < w -> a * w + b = a' * w + b' -> a = a' /\ b = b'.
Proof.
  intros Hb Hb' Heq. apply (Nat.div_mod_unique w); [done|done|lia].
Qed.

Lemma adds_fill3 sh N a b c
    (body : nat -> nat -> nat -> ndarray -> option ndarray)
    (delta : nat -> nat -> nat -> nat -> R) :
  (forall f i j, f < a -> i < b -> j < c ->
     adds sh N (body f i j) (delta f i j)) ->
  adds sh N
    (for_range a (fun f s => for_range b (fun i s =>
       for_range c (fun j s => body f i j s) s) s))
    (fun m => bigsum a (fun f => bigsum b (fun i => bigsum c (fun j =>
       delta f i j m)))).
Proof.
  intros H.
  apply (adds_for_range sh N a _
    (fun f m => bigsum b (fun i => bigsum c (fun j => delta f i j m)))).
  intros f Hf.
  apply (adds_for_range sh N b _ (fun i m => bigsum c (fun j => delta f i j m))).
  intros i Hi.
  apply (adds_for_range sh N c _ (fun j m => delta f i j m)).
  intros j Hj. by apply H.
Qed.

Lemma bigsum3_single a b c (T : nat -> nat -> nat -> R) f i j :
  f < a -> i < b -> j < c ->
  (forall f' i' j', f' < a -> i' < b -> j' < c ->
     ~ (f' = f /\ i' = i /\ j' = j) -> T f' i' j' = 0%R) ->
  bigsum a (fun f' => bigsum b (fun i' => bigsum c (fun j' => T f' i' j')))
  = T f i j.
Proof.
  intros Hf Hi Hj H0.
  rewrite (bigsum_single a _ f Hf).
  - rewrite (bigsum_single b _ i Hi).
    + apply (bigsum_single c _ j Hj). intros j' ? ?. apply H0; (done || lia).
    + intros i' ? ?. etransitivity; [|apply (bigsum_0 c)].
      apply bigsum_ext. intros j' ?. apply H0; (done || lia).
  - intros f' ? ?. etransitivity; [|apply (bigsum_0 b)].
    apply bigsum_ext. intros i' ?. etransitivity; [|apply (bigsum_0 c)].
    apply bigsum_ext. intros j' ?. apply H0; (done || lia).
Qed.

Section pool_backward.
Import MaxPoolingLayer.
Context (self : MaxPoolingLayer.t) (X g : ndarray) (F OH OW : nat).
Let k := filter_size self.
Context (Hk : 0 < k).
Context (Hs : shape X = [F; OH * k; OW * k]) (Hv : valid X).
Context (Hgs : shape g = [F; OH; OW]) (Hgv : valid g).

Lemma region_tab f i j :
  f < F -> i < OH -> j < OW ->
  region X k f i j
  = Some (NdArray [k; k]
            (tab2 k k (fun r c => cell X [f; i * k + r; j * k + c]))).
Proof using Hk Hs Hv.
  intros Hf Hi Hj. unfold region. rewrite Hs.
  rewrite (getitem_tab2 X F (OH * k) (OW * k)) by done.
  cbn [mbind option_bind].
  replace ((i + 1) * k) with (i * k + k) by lia.
  replace ((j + 1) * k) with (j * k + k) by lia.
  erewrite slice2_tab; [|done| |nia|nia].
  2:{ unfold valid. simpl. rewrite length_tab2. lia. }
  do 2 f_equal. cbn [data]. apply tab2_ext. intros r c Hr Hc.
  rewrite nth_tab2 by nia.
  rewrite (cell3 X F (OH * k) (OW * k)) by (done || nia). done.
Qed.

Lemma pool_argmax_spec f i j :
  f < F -> i < OH -> j < OW ->
  exists r c,
    pool_argmax X k f i j = Some (r, c)
    /\ first_max (fun r c => cell X [f; i * k + r; j * k + c]) k r c.
Proof using Hk Hs Hv.
  intros Hf Hi Hj. unfold pool_argmax. rewrite region_tab by done.
  cbn [mbind option_bind].
  set (B := fun r c => cell X [f; i * k + r; j * k + c]).
  destruct (argmax_spec (NdArray [k; k] (tab2 k k B)))
    as (n & -> & Hn & Hmax & Hfirst).
  { cbn [data]. intros Hnil. apply (f_equal length) in Hnil.
    rewrite length_tab2 in Hnil. simpl in Hnil. nia. }
  cbn [data] in Hn, Hmax, Hfirst. rewrite length_tab2 in Hn, Hmax.
  cbn [mbind option_bind]. unfold np.unravel_index.
  rewrite option_guard_True by done. cbn [mbind option_bind].
  assert (n / k < k) as Hr by (apply Nat.Div0.div_lt_upper_bound; lia).
  assert (n mod k < k) as Hc by (apply Nat.mod_upper_bound; lia).
  assert (n = n / k * k + n mod k) as Hnk
    by (rewrite (Nat.div_mod_eq n k) at 1; lia).
  exists (n / k), (n mod k). split; [done|].
  assert (nth n (tab2 k k B) 0%R = B (n / k) (n mod k)) as HB.
  { rewrite Hnk at 1. by apply nth_tab2. }
  repeat split; [done|done| |].
  - intros r' c' Hr' Hc'. rewrite <- HB, <- (nth_tab2 k k B r' c') by done.
    apply Hmax. by apply ravel2_lt.
  - intros r' c' Hr' Hc' Hlt. rewrite <- HB, <- (nth_tab2 k k B r' c') by done.
    apply Hfirst. lia.
Qed.

Lemma pool_body_adds f i j :
  f < F -> i < OH -> j < OW ->
  exists r c,
    pool_argmax X k f i j = Some (r, c)
    /\ first_max (fun r c => cell X [f; i * k + r; j * k + c]) k r c
    /\ adds [F; OH * k; OW * k] (F * (OH * k) * (OW * k))
         (fun input_error =>
            region ← region X k f i j;
            flat_index ← np.argmax region;
            max_index ← np.unravel_index flat_index k k;
            g0 ← get g [f; i; j];
            let y := i * k + max_index.1 in
            let x := j * k + max_index.2 in
            old ← get input_error [f; y; x];
            set input_error [f; y; x] (old + g0)%R)
         (fun n =>
            if decide (n = (f * (OH * k) + (i * k + r)) * (OW * k) + (j * k + c))
            then cell g [f; i; j] else 0%R).
Proof using Hk Hs Hv Hgs Hgv.
  intros Hf Hi Hj.
  destruct (pool_argmax_spec f i j Hf Hi Hj) as (r & c & Harg & Hfm).
  exists r, c. split; [done|]. split; [done|].
  destruct Hfm as (Hr & Hc & _).
  intros h. unfold pool_argmax in Harg.
  destruct (region X k f i j) as [reg|]; [|done].
  cbn [mbind option_bind] in Harg |- *.
  destruct (np.argmax reg) as [fl|]; [|done].
  cbn [mbind option_bind] in Harg |- *. rewrite Harg.
  cbn [mbind option_bind fst snd].
  erewrite (get_cell g); [|done|by apply offset3|].
  2:{ unfold valid in Hgv. rewrite Hgv, Hgs, numel3. by apply ravel3_lt. }
  cbn [mbind option_bind].
  apply (adds_cell [F; OH * k; OW * k] _ [f; i * k + r; j * k + c]).
  - apply offset3; [done|nia|nia].
  - apply ravel3_lt; [done|nia|nia].
Qed.

Lemma pool_offset_inj f i j r c f' i' j' r' c' :
  i < OH -> j < OW -> r < k -> c < k ->
  i' < OH -> j' < OW -> r' < k -> c' < k ->
  (f * (OH * k) + (i * k + r)) * (OW * k) + (j * k + c)
  = (f' * (OH * k) + (i' * k + r')) * (OW * k) + (j' * k + c') ->
  f = f' /\ i = i' /\ j = j' /\ r = r' /\ c = c'.
Proof.
  intros Hi Hj Hr Hc Hi' Hj' Hr' Hc' Heq.
  apply ravel_inj in Heq as [Heq1 Heq2]; [|nia|nia].
  apply ravel_inj in Heq1 as [-> Heq1]; [|nia|nia].
  apply ravel_inj in Heq1 as [-> ->]; [|done|done].
  apply ravel_inj in Heq2 as [-> ->]; [|done|done].
  done.
Qed.

Lemma pool_target_spec f i j :
  f < F -> i < OH -> j < OW ->
  exists r c,
    first_max (fun r c => cell X [f; i * k + r; j * k + c]) k r c
    /\ pool_target X k OH OW f i j
       = (f * (OH * k) + (i * k + r)) * (OW * k) + (j * k + c)
    /\ pool_target X k OH OW f i j < F * (OH * k) * (OW * k).
Proof using Hk Hs Hv.
  intros Hf Hi Hj.
  destruct (pool_argmax_spec f i j Hf Hi Hj) as (r & c & Harg & Hfm).
  exists r, c. unfold pool_target. rewrite Harg. split; [done|].
  split; [done|]. destruct Hfm as (? & ? & _).
  apply ravel3_lt; [done|nia|nia].
Qed.

Lemma pool_backward_tab lr :
  input self = Some X ->
  backward self g lr
  = Some (self,
          NdArray [F; OH * k; OW * k]
            (tab (F * (OH * k) * (OW * k))
               (fun m => 0 + pool_in_grad X g k F OH OW m)%R)).
Proof using Hk Hs Hv Hgs Hgv.
  intros Hin. unfold backward. rewrite Hin. cbn [mbind option_bind].
  rewrite Hgs. fold k.
  assert (np.zeros_like X
          = NdArray [F; OH * k; OW * k]
              (tab (F * (OH * k) * (OW * k)) (fun _ => 0%R))) as ->.
  { unfold np.zeros_like, np.zeros. rewrite Hs. f_equal.
    rewrite tab_replicate. f_equal. simpl. lia. }
  erewrite (adds_fill3 [F; OH * k; OW * k] (F * (OH * k) * (OW * k)) F OH OW
    (fun f i j input_error =>
       region ← region X k f i j;
       flat_index ← np.argmax region;
       max_index ← np.unravel_index flat_index k k;
       g0 ← get g [f; i; j];
       let y := i * k + max_index.1 in
       let x := j * k + max_index.2 in
       old ← get input_error [f; y; x];
       set input_error [f; y; x] (old + g0)%R)
    (fun f i j m => if decide (m = pool_target X k OH OW f i j)
                    then cell g [f; i; j] else 0%R)); [done|].
  intros f i j Hf Hi Hj.
  destruct (pool_body_adds f i j Hf Hi Hj) as (r & c & Harg & _ & Ha).
  unfold pool_target. rewrite Harg. exact Ha.
Qed.
End pool_backward.

(** C2.  Backward pass of the max-pooling layer: for a cached input whose
    height and width are multiples of the window size [k] and an output
    gradient [g] of the pooled shape, [backward] returns an input gradient of
    the shape of the input whose entries sum to the sum of the entries of [g];
    in every block the entry of [g] lands on the position where the block
    maximum is reached first in row-major order, and the other positions of
    the block hold zero. *)
Theorem maxpool_backward_spec (self : MaxPoolingLayer.t) (X g : ndarray)
    (F OH OW : nat) (lr : R) :
  let k := MaxPoolingLayer.filter_size self in
  0 < k ->
  MaxPoolingLayer.input self = Some X ->
  shape X = [F; OH * k; OW * k] -> valid X ->
  shape g = [F; OH; OW] -> valid g ->
  exists self' input_error,
    MaxPoolingLayer.backward self g lr = Some (self', input_error)
    /\ shape input_error = shape X
    /\ valid input_error
    /\ np.sum input_error = np.sum g
    /\ forall f i j, f < F -> i < OH -> j < OW ->
         exists r c,
           first_max (fun r c => cell X [f; i * k + r; j * k + c]) k r c
           /\ forall r' c', r' < k -> c' < k ->
                get input_error [f; i * k + r'; j * k + c']
                = Some (if decide (r' = r /\ c' = c)
                        then cell g [f; i; j] else 0%R).
Proof.
  intros k Hk Hin Hs Hv Hgs Hgv.
  rewrite (pool_backward_tab self X g F OH OW Hk Hs Hv Hgs Hgv lr Hin).
  fold k. set (H := OH * k). set (W := OW * k). set (N := F * H * W).
  pose proof (pool_target_spec self X F OH OW Hk Hs Hv) as Htarget.
  fold k H W N in Htarget.
  eexists _, _. split; [done|]. split; [by rewrite Hs|]. split.
  { unfold valid. cbn [shape data]. rewrite length_tab, numel3. done. }
  split.
  - unfold np.sum. cbn [data].
    change (foldr Rplus 0%R) with Rsum. rewrite Rsum_tab.
    assert (length (data g) = F * OH * OW) as Hgl.
    { unfold valid in Hgv. by rewrite Hgv, Hgs, numel3. }
    rewrite (tab3_nth (data g) _ _ _ Hgl), Rsum_tab3.
    transitivity (bigsum F (fun f => bigsum OH (fun i => bigsum OW (fun j =>
      bigsum N (fun m => if decide (m = pool_target X k OH OW f i j)
                         then cell g [f; i; j] else 0%R))))).
    { transitivity (bigsum N (fun m => pool_in_grad X g k F OH OW m)).
      { apply bigsum_ext. intros m _. lra. }
      unfold pool_in_grad.
      rewrite (bigsum_exchange N F). apply bigsum_ext. intros f _.
      rewrite (bigsum_exchange N OH). apply bigsum_ext. intros i _.
      apply (bigsum_exchange N OW). }
    apply bigsum_ext. intros f Hf. apply bigsum_ext. intros i Hi.
    apply bigsum_ext. intros j Hj.
    destruct (Htarget f i j Hf Hi Hj) as (r & c & _ & _ & Hlt).
    rewrite (bigsum_single N _ (pool_target X k OH OW f i j) Hlt).
    + rewrite decide_True by done. by rewrite (cell3 g F OH OW).
    + intros m _ Hne. by rewrite decide_False.
  - intros f i j Hf Hi Hj.
    destruct (Htarget f i j Hf Hi Hj) as (r & c & Hfm & Ht & _).
    exists r, c. split; [done|]. intros r' c' Hr' Hc'.
    destruct Hfm as (Hr & Hc & _).
    rewrite (get_lookup _ [F; H; W] _ ((f * H + (i * k + r')) * W + (j * k + c'))).
    2:{ done. }
    2:{ apply offset3; [done|unfold H; nia|unfold W; nia]. }
    cbn [data].
    assert ((f * H + (i * k + r')) * W + (j * k + c') < N) as Hlt
      by (apply ravel3_lt; [done|unfold H; nia|unfold W; nia]).
    rewrite lookup_tab by done. f_equal. unfold pool_in_grad.
    rewrite (bigsum3_single F OH OW _ f i j Hf Hi Hj).
    + rewrite Ht, Rplus_0_l.
      destruct (decide (r' = r /\ c' = c)) as [[-> ->]|Hne].
      * by rewrite decide_True.
      * rewrite decide_False; [done|]. intros Heq.
        destruct (pool_offset_inj self OH OW Hk f i j r' c' f i j r c)
          as (_ & _ & _ & ? & ?); [done..|]. by apply Hne.
    + intros f1 i1 j1 Hf1 Hi1 Hj1 Hne.
      destruct (Htarget f1 i1 j1 Hf1 Hi1 Hj1) as (r1 & c1 & Hfm1 & Ht1 & _).
      destruct Hfm1 as (Hr1 & Hc1 & _).
      rewrite decide_False; [done|]. rewrite Ht1. intros Heq.
      destruct (pool_offset_inj self OH OW Hk f i j r' c' f1 i1 j1 r1 c1)
        as (? & ? & ? & _); [done..|]. by apply Hne.
Qed.

(** ** The flatten layer *)

(** C4.  The flatten layer is a pure reshape: on a three-dimensional array
    [forward] returns the column vector of its cells in row-major order, and
    [backward] applied to that vector, untouched, returns the original array,
    shape and cells. *)
Theorem flatten_roundtrip (self : FlattenLayer.t) (x : ndarray) (a b c : nat) (lr : R) :
  shape x = [a; b; c] -> valid x ->
  exists self' y,
    FlattenLayer.forward self x = Some (self', y)
    /\ shape y = [a * b * c; 1]
    /\ data y = data x
    /\ (forall f i j, f < a -> i < b -> j < c ->
          get y [(f * b + i) * c + j; 0] = get x [f; i; j]
          /\ is_Some (get x [f; i; j]))
    /\ exists self'', FlattenLayer.backward self' y lr = Some (self'', x).
Proof.
  intros Hs Hv. unfold valid in Hv. rewrite Hs, numel3 in Hv.
  destruct x as [sh d]. simpl in *. subst sh.
  unfold FlattenLayer.forward, np.reshape, np.flatten. simpl.
  rewrite option_guard_True by lia. simpl.
  rewrite option_guard_True by congruence.
  eexists _, _. split; [reflexivity|]. simpl.
  split; [by rewrite Hv|]. split; [done|]. split.
  - intros f i j Hf Hi Hj. unfold get. simpl shape.
    rewrite offset3 by done.
    pose proof (ravel3_lt a b c f i j Hf Hi Hj).
    rewrite offset2 by lia. simpl.
    replace (((f * b + i) * c + j) * 1 + 0) with ((f * b + i) * c + j) by lia.
    split; [done|]. apply lookup_lt_is_Some. lia.
  - unfold FlattenLayer.backward, np.reshape. simpl.
    rewrite option_guard_True by (rewrite Hv; lia). simpl. eauto.
Qed.

(** ** The softmax layer *)

Lemma getitem_smap f a i : getitem (smap f a) i = smap f <$> getitem a i.
Proof.
  unfold getitem, smap. cbn [shape data]. destruct (shape a) as [|n rest]; [done|].
  case_guard; [|done]. simpl. by rewrite fmap_take, fmap_drop.
Qed.

Lemma Rmax_shift a b c : Rmax (a + c) (b + c) = (Rmax a b + c)%R.
Proof. unfold Rmax. do 2 destruct (Rle_dec _ _); lra. Qed.

Lemma zip_with_max_shift c (l k : list R) :
  zip_with Rmax ((fun v => v + c)%R <$> l) ((fun v => v + c)%R <$> k)
  = (fun v => v + c)%R <$> zip_with Rmax l k.
Proof.
  revert k. induction l as [|x l IH]; intros [|y k]; try done.
  cbn. by rewrite IH, Rmax_shift.
Qed.

Lemma map2_max_shift c m r :
  map2 Rmax (smap (fun v => v + c)%R m) (smap (fun v => v + c)%R r)
  = smap (fun v => v + c)%R <$> map2 Rmax m r.
Proof.
  unfold map2, smap. cbn [shape data]. case_guard; [|done]. simpl.
  do 2 f_equal. apply zip_with_max_shift.
Qed.

Lemma max_axis0_shift c a :
  np.max_axis0 (smap (fun v => v + c)%R a)
  = smap (fun v => v + c)%R <$> np.max_axis0 a.
Proof.
  unfold np.max_axis0. cbn [smap shape].
  destruct (shape a) as [|[|n] rest] eqn:Hs; [done..|].
  rewrite getitem_smap. destruct (getitem a 0) as [r0|]; [|done].
  cbn [fmap option_fmap option_map mbind option_bind].
  unfold for_range. generalize (seq 0 n). intros l. revert r0.
  induction l as [|i l IH]; intros r0; [done|].
  cbn [for_each]. rewrite getitem_smap.
  destruct (getitem a (S i)) as [r|]; [|done].
  cbn [fmap option_fmap option_map mbind option_bind].
  rewrite map2_max_shift. destruct (map2 Rmax r0 r) as [m|]; [|done].
  cbn [fmap option_fmap option_map mbind option_bind]. apply IH.
Qed.

Lemma sub_axis0_shift c a m :
  np.sub_axis0 (smap (fun v => v + c)%R a) (smap (fun v => v + c)%R m)
  = np.sub_axis0 a m.
Proof.
  unfold np.sub_axis0, smap. cbn [shape data].
  destruct (shape a) as [|n rest]; [done|].
  case_guard; [|done]. simpl. do 2 f_equal.
  apply flat_map_ext. intros i.
  rewrite <- fmap_drop, <- fmap_take, zip_with_fmap_l, zip_with_fmap_r.
  apply zip_with_ext; [|done..]. intros x y. lra.
Qed.

(** C10.  The softmax forward pass is invariant under a shift: adding the same
    constant to every entry of the input changes neither the returned array
    nor the cached one. *)
Theorem softmax_forward_shift (self : SoftmaxLayer.t) (x : ndarray) (c : R) :
  SoftmaxLayer.forward self (smap (fun v => v + c)%R x)
  = SoftmaxLayer.forward self x.
Proof.
  unfold SoftmaxLayer.forward. rewrite max_axis0_shift.
  destruct (np.max_axis0 x) as [m|]; [|done].
  cbn [fmap option_fmap option_map mbind option_bind].
  by rewrite sub_axis0_shift.
Qed.

Lemma foldl_Rmax_spec (tl : list R) x0 :
  let M := foldl Rmax x0 tl in
  In M (x0 :: tl) /\ forall v, In v (x0 :: tl) -> (v <= M)%R.
Proof.
  revert x0. induction tl as [|y tl IH]; intros x0; simpl.
  - split; [auto|]. intros v [<-|[]]. lra.
  - destruct (IH (Rmax x0 y)) as [Hin Hle]. split.
    + destruct Hin as [Hin|Hin]; [|auto].
      rewrite <- Hin. unfold Rmax. destruct (Rle_dec x0 y); auto.
    + intros v Hv.
      assert (Rmax x0 y <= foldl Rmax (Rmax x0 y) tl)%R as HM
        by (apply Hle; left; done).
      destruct Hv as [<-|[<-|Hv]].
      * pose proof (Rmax_l x0 y). lra.
      * pose proof (Rmax_r x0 y). lra.
      * apply Hle. by right.
Qed.

Lemma getitem_col x n i :
  shape x = [n; 1] -> i < n ->
  getitem x i = Some (NdArray [1] (take 1 (drop i (data x)))).
Proof.
  intros Hs Hi. rewrite (getitem_Some x n [1]) by done.
  change (numel [1]) with (1 * 1). by rewrite !Nat.mul_1_r.
Qed.

Lemma max_axis0_col x n x0 tl :
  shape x = [S n; 1] -> data x = x0 :: tl -> length tl = n ->
  np.max_axis0 x = Some (NdArray [1] [foldl Rmax x0 tl]).
Proof.
  intros Hs Hd Hl. unfold np.max_axis0. rewrite Hs.
  rewrite (getitem_col x (S n)) by (done || lia). rewrite Hd.
  cbn [mbind option_bind drop take].
  unfold for_range. rewrite <- Hl.
  assert (forall l a m, drop a tl = l ->
    for_each (seq a (length l))
      (fun i m => r ← getitem x (S i); map2 Rmax m r) (NdArray [1] [m])
    = Some (NdArray [1] [foldl Rmax m l])) as Hloop.
  { induction l as [|y l IH]; intros a m Hdrop; [done|].
    assert (a < length tl) as Ha.
    { destruct (decide (a < length tl)); [done|].
      rewrite drop_ge in Hdrop by lia. done. }
    cbn [length seq for_each].
    rewrite (getitem_col x (S n)) by (done || lia). rewrite Hd.
    cbn [mbind option_bind drop]. rewrite Hdrop.
    unfold map2. cbn [shape data]. rewrite option_guard_True by done.
    cbn [mbind option_bind take zip_with foldl]. apply IH.
    rewrite <- (Nat.add_1_r a), <- drop_drop, Hdrop. done. }
  by apply Hloop.
Qed.

Lemma sub_axis0_col x n M :
  shape x = [n; 1] -> length (data x) = n ->
  np.sub_axis0 x (NdArray [1] [M])
  = Some (NdArray [n; 1] ((fun v => v - M)%R <$> data x)).
Proof.
  intros Hs Hl. unfold np.sub_axis0. rewrite Hs. cbn [shape data].
  rewrite option_guard_True by done. cbn [mbind option_bind]. do 2 f_equal.
  change (numel [1]) with (1 * 1).
  transitivity ((fun v => v - M)%R <$> tab n (fun i => nth i (data x) 0%R));
    [|by rewrite <- Hl, <- tab_nth].
  rewrite fmap_tab, <- flat_map_singleton.
  apply flat_map_seq_ext. intros i Hi.
  rewrite take_drop_tab by lia. unfold tab. simpl.
  by replace (i * 1 + 0) with i by lia.
Qed.

Lemma Rsum_div (l : list R) s :
  Rsum ((fun e => e / s)%R <$> l) = (Rsum l / s)%R.
Proof.
  unfold Rsum. induction l as [|x l IH]; [simpl; lra|].
  rewrite fmap_cons. cbn [foldr]. rewrite IH. lra.
Qed.

Lemma Rsum_exp_pos (l : list R) :
  l <> [] -> (0 < Rsum (Rtrigo_def.exp <$> l))%R.
Proof.
  intros Hne. destruct l as [|x l]; [done|]. unfold Rsum.
  rewrite fmap_cons. cbn [foldr].
  assert (0 <= foldr Rplus 0 (Rtrigo_def.exp <$> l))%R.
  { clear. induction l as [|y l IH]; [simpl; lra|].
    rewrite fmap_cons. cbn [foldr]. pose proof (exp_pos y). lra. }
  pose proof (exp_pos x). lra.
Qed.

Lemma softmax_forward_col (self : SoftmaxLayer.t) (x : ndarray) (n : nat)
    (x0 : R) (tl : list R) :
  shape x = [S n; 1] -> data x = x0 :: tl -> length tl = n ->
  let M := foldl Rmax x0 tl in
  let E := (fun v => Rtrigo_def.exp (v - M)) <$> data x in
  let y := NdArray [S n; 1] ((fun e => e / Rsum E)%R <$> E) in
  SoftmaxLayer.forward self x = Some (SoftmaxLayer.Build (Some y), y).
Proof.
  intros Hs Hd Hl M E y. unfold SoftmaxLayer.forward.
  rewrite (max_axis0_col x n x0 tl) by done. cbn [mbind option_bind].
  assert (length (data x) = S n) as Hlx by (rewrite Hd; simpl; by rewrite Hl).
  rewrite (sub_axis0_col x (S n) _ Hs Hlx). cbn [mbind option_bind].
  unfold np.exp, np.sum, smap. cbn [shape data].
  change (foldr Rplus 0%R) with Rsum. fold M.
  subst y E. rewrite <- !list_fmap_compose. reflexivity.
Qed.

(** C5.  Softmax forward pass on a column vector of [n >= 1] entries: it
    returns a column vector of the same shape whose entries are non-negative
    and sum to one, each being [exp (v - M)] divided by the sum of these
    exponentials, where [M] is the maximum of the input. *)
Theorem softmax_forward_spec (self : SoftmaxLayer.t) (x : ndarray) (n : nat) :
  0 < n -> shape x = [n; 1] -> valid x ->
  exists self' y,
    SoftmaxLayer.forward self x = Some (self', y)
    /\ SoftmaxLayer.output self' = Some y
    /\ shape y = [n; 1]
    /\ valid y
    /\ Forall (fun p => 0 <= p)%R (data y)
    /\ np.sum y = 1%R
    /\ exists M,
         In M (data x) /\ (forall v, In v (data x) -> (v <= M)%R)
         /\ data y
            = (fun v => Rtrigo_def.exp (v - M)
                        / Rsum ((fun u => Rtrigo_def.exp (u - M)) <$> data x))%R
              <$> data x.
Proof.
  intros Hn Hs Hv. unfold valid in Hv. rewrite Hs in Hv. simpl in Hv.
  rewrite Nat.mul_1_r in Hv.
  destruct n as [|n]; [lia|]. destruct (data x) as [|x0 tl] eqn:Hd; [done|].
  injection Hv as Hl.
  rewrite (softmax_forward_col self x n x0 tl) by done. rewrite Hd.
  set (M := foldl Rmax x0 tl).
  set (E := (fun v => Rtrigo_def.exp (v - M)) <$> x0 :: tl).
  assert (0 < Rsum E)%R as Hpos.
  { unfold E. rewrite (list_fmap_compose (fun v => v - M)%R Rtrigo_def.exp).
    by apply Rsum_exp_pos. }
  eexists _, _. split; [reflexivity|]. cbn [SoftmaxLayer.output shape data].
  split; [done|]. split; [done|]. split.
  { unfold valid. cbn [shape data]. unfold E. rewrite !length_fmap.
    cbn [length numel foldr]. lia. }
  split.
  { apply Forall_fmap, Forall_fmap, Forall_forall.
    intros v _. cbn. pose proof (exp_pos (v - M)).
    apply Rlt_le, Rdiv_lt_0_compat; done. }
  split.
  { unfold np.sum. cbn [data]. change (foldr Rplus 0%R) with Rsum.
    rewrite Rsum_div. field. lra. }
  exists M. destruct (foldl_Rmax_spec tl x0) as [Hin Hle].
  split; [done|]. split; [done|].
  unfold E. by rewrite <- list_fmap_compose.
Qed.

(** ** Learning rate and input gradients *)

(** C9.  The input gradient returned by [backward] of the convolution layer
    and of the fully-connected layer is the same for every learning rate: it
    is computed from the parameters held on entry, and the learning rate only
    enters the parameters of the returned object. *)
Theorem backward_input_error_lr_independent :
  (forall (self : ConvolutionLayer.t) (g : ndarray) (lr1 lr2 : R),
     snd <$> ConvolutionLayer.backward self g lr1
     = snd <$> ConvolutionLayer.backward self g lr2)
  /\ (forall (self self' : ConvolutionLayer.t) (g ie : ndarray) (lr : R),
        ConvolutionLayer.backward self g lr = Some (self', ie) ->
        exists X fe be,
          ConvolutionLayer.input self = Some X
          /\ for_range (ConvolutionLayer.num_filters self)
               (ConvolutionLayer.backward_filter self X g)
               (np.zeros_like X,
                np.zeros_like (ConvolutionLayer.conv_filter self),
                np.zeros_like (ConvolutionLayer.bias self))
             = Some (ie, fe, be)
          /\ map2 Rminus (ConvolutionLayer.conv_filter self) (smap (Rmult lr) fe)
             = Some (ConvolutionLayer.conv_filter self'))
  /\ (forall (self : FCLayer.t) (g : ndarray) (lr1 lr2 : R),
        snd <$> FCLayer.backward self g lr1
        = snd <$> FCLayer.backward self g lr2)
  /\ (forall (self self' : FCLayer.t) (g ie : ndarray) (lr : R),
        FCLayer.backward self g lr = Some (self', ie) ->
        np.dot (FCLayer.conv_filter self) g = Some ie
        /\ exists X gt cfe,
             FCLayer.input self = Some X /\ np.T g = Some gt
             /\ np.dot X gt = Some cfe
             /\ map2 Rminus (FCLayer.conv_filter self) (smap (Rmult lr) cfe)
                = Some (FCLayer.conv_filter self')).
Proof.
  split; [|split; [|split]].
  - intros self g lr1 lr2. unfold ConvolutionLayer.backward.
    destruct (ConvolutionLayer.input self) as [X|]; [|done].
    cbn [mbind option_bind].
    destruct (for_range _ _ _) as [[[ie fe] be]|]; [|done].
    cbn [mbind option_bind].
    unfold map2, smap. cbn [shape]. repeat case_guard; done.
  - intros self self' g ie lr Hb. unfold ConvolutionLayer.backward in Hb.
    destruct (ConvolutionLayer.input self) as [X|] eqn:HX; [|done].
    cbn [mbind option_bind] in Hb.
    destruct (for_range _ _ _) as [[[ie' fe] be]|] eqn:Hloop; [|done].
    cbn [mbind option_bind] in Hb.
    destruct (map2 Rminus (ConvolutionLayer.conv_filter self) _)
      as [cf'|] eqn:Hcf; [|done].
    cbn [mbind option_bind] in Hb.
    destruct (map2 Rminus (ConvolutionLayer.bias self) _) as [b'|]; [|done].
    cbn [mbind option_bind] in Hb. injection Hb as <- <-.
    exists X, fe, be. by rewrite Hcf.
  - intros self g lr1 lr2. unfold FCLayer.backward.
    destruct (np.dot (FCLayer.conv_filter self) g) as [ie|]; [|done].
    cbn [mbind option_bind].
    destruct (FCLayer.input self) as [X|]; [|done]. cbn [mbind option_bind].
    destruct (np.T g) as [gt|]; [|done]. cbn [mbind option_bind].
    destruct (np.dot X gt) as [cfe|]; [|done]. cbn [mbind option_bind].
    unfold map2, smap. cbn [shape]. repeat case_guard; done.
  - intros self self' g ie lr Hb. unfold FCLayer.backward in Hb.
    destruct (np.dot (FCLayer.conv_filter self) g) as [ie'|] eqn:Hdot; [|done].
    cbn [mbind option_bind] in Hb.
    destruct (FCLayer.input self) as [X|] eqn:HX; [|done].
    cbn [mbind option_bind] in Hb.
    destruct (np.T g) as [gt|] eqn:Hgt; [|done]. cbn [mbind option_bind] in Hb.
    destruct (np.dot X gt) as [cfe|] eqn:Hcfe; [|done].
    cbn [mbind option_bind] in Hb.
    destruct (map2 Rminus (FCLayer.conv_filter self) _) as [cf'|] eqn:Hcf; [|done].
    cbn [mbind option_bind] in Hb.
    destruct (map2 Rminus (FCLayer.bias self) _) as [b'|]; [|done].
    cbn [mbind option_bind] in Hb. case_guard; [|done].
    simpl in Hb. injection Hb as <- <-. split; [done|].
    exists X, gt, cfe. by rewrite Hcf.
Qed.

(** ** Binary64 numbers and the number of train samples *)

Section binary64.
Local Open Scope Z_scope.

Lemma digits2_pos_size p : digits2_pos p = Pos.size p.
Proof. induction p; simpl; congruence. Qed.

Lemma digits2_bounds p :
  2 ^ (Zpos (digits2_pos p) - 1) <= Zpos p < 2 ^ Zpos (digits2_pos p).
Proof.
  rewrite digits2_pos_size. split.
  - pose proof (Pos.size_le p) as H.
    assert (2 ^ Zpos (Pos.size p) <= 2 * Zpos p) as H2.
    { rewrite <- Pos2Z.inj_pow. change (2 * Zpos p) with (Zpos p~0). lia. }
    replace (Zpos (Pos.size p)) with (Z.succ (Zpos (Pos.size p) - 1)) in H2
      by lia.
    rewrite Z.pow_succ_r in H2 by lia. lia.
  - pose proof (Pos.size_gt p) as H. rewrite <- Pos2Z.inj_pow. lia.
Qed.

Lemma digits2_lt_pow p k : 0 <= k -> Zpos p < 2 ^ k -> Zpos (digits2_pos p) <= k.
Proof.
  intros Hk Hp. destruct (digits2_bounds p) as [Hlo _].
  destruct (Z_le_gt_dec (Zpos (digits2_pos p)) k) as [|Hgt]; [done|].
  assert (2 ^ k <= 2 ^ (Zpos (digits2_pos p) - 1))
    by (apply Z.pow_le_mono_r; lia).
  lia.
Qed.

Lemma digits2_shift p k :
  digits2_pos (Pos.iter xO p k) = (digits2_pos p + k)%positive.
Proof.
  induction k as [|k IH] using Pos.peano_ind.
  - simpl. lia.
  - rewrite Pos.iter_succ. simpl. rewrite IH. lia.
Qed.

Lemma Zpos_shift p k : Zpos (Pos.iter xO p k) = Zpos p * 2 ^ Zpos k.
Proof.
  induction k as [|k IH] using Pos.peano_ind.
  - simpl. lia.
  - rewrite Pos.iter_succ, Pos2Z.inj_succ, Z.pow_succ_r by lia.
    rewrite Pos2Z.inj_xO, IH. ring.
Qed.

(** Shifting right by [p] bits. *)
Lemma iter_pos_inv {A} (f : A -> A) (P : Z -> A -> Prop) :
  (forall j x, 0 <= j -> P j x -> P (j + 1) (f x)) ->
  forall p j x, 0 <= j -> P j x -> P (j + Zpos p) (SpecFloat.iter_pos f p x).
Proof.
  intros Hf. induction p as [p IH|p IH|]; intros j x Hj Hx; simpl.
  - replace (j + Zpos p~1) with (j + 1 + Zpos p + Zpos p) by lia.
    apply IH; [lia|]. apply IH; [lia|]. by apply Hf.
  - replace (j + Zpos p~0) with (j + Zpos p + Zpos p) by lia.
    apply IH; [lia|]. by apply IH.
  - by apply Hf.
Qed.

Lemma shr_1_spec m r s :
  0 <= m ->
  shr_1 (Build_shr_record m r s)
  = Build_shr_record (m / 2) (Z.odd m) (r || s).
Proof.
  intros Hm. destruct m as [|[p|p|]|p]; try lia; cbn [shr_1].
  - done.
  - f_equal. rewrite Pos2Z.inj_xI.
    apply (Z.div_unique _ _ _ 1); lia.
  - f_equal. rewrite Pos2Z.inj_xO.
    apply (Z.div_unique _ _ _ 0); lia.
  - done.
Qed.

Lemma shr_round m p :
  0 <= m ->
  let rec := SpecFloat.iter_pos shr_1 p (Build_shr_record m false false) in
  let q := round_nearest_even (shr_m rec) (loc_of_shr_record rec) in
  shr_m rec = m / 2 ^ Zpos p
  /\ m / 2 ^ Zpos p <= q <= m / 2 ^ Zpos p + 1
  /\ (m mod 2 ^ Zpos p = 0 -> q = m / 2 ^ Zpos p).
Proof.
  intros Hm rec q.
  assert (shr_m rec = m / 2 ^ (0 + Zpos p)
          /\ (m mod 2 ^ (0 + Zpos p) = 0 ->
              shr_r rec = false /\ shr_s rec = false)) as [Hsm Hex].
  { apply (iter_pos_inv shr_1 (fun j x =>
      shr_m x = m / 2 ^ j
      /\ (m mod 2 ^ j = 0 -> shr_r x = false /\ shr_s x = false)));
      [|lia|by rewrite Z.div_1_r].
    intros j [mj rj sj] Hj [Hmj Hexj]. cbn [shr_m shr_r shr_s] in *.
    assert (0 < 2 ^ j) by (apply Z.pow_pos_nonneg; lia).
    assert (0 <= mj) by (subst mj; apply Z.div_pos; lia).
    rewrite shr_1_spec by done. cbn [shr_m shr_r shr_s].
    rewrite Z.pow_add_r by lia. change (2 ^ 1) with 2. split.
    - subst mj. by rewrite Z.div_div by lia.
    - intros Hmod.
      assert (m = 2 ^ j * 2 * (m / (2 ^ j * 2))) as Hm2.
      { pose proof (Z.div_mod m (2 ^ j * 2) ltac:(lia)). lia. }
      assert (m mod 2 ^ j = 0) as Hmodj.
      { rewrite Hm2. rewrite <- Z.mul_assoc, Z.mul_comm.
        apply Z.mod_mul. lia. }
      destruct (Hexj Hmodj) as [-> ->]. split; [|done].
      subst mj. rewrite Hm2 at 1.
      rewrite <- Z.mul_assoc, Z.mul_comm, Z.div_mul by lia.
      by rewrite Z.odd_mul. }
  change (0 + Zpos p) with (Zpos p) in Hsm, Hex. split; [exact Hsm|].
  subst q. clearbody rec. rewrite Hsm.
  destruct rec as [sm [|] [|]];
    cbn [shr_m shr_r shr_s loc_of_shr_record round_nearest_even] in *.
  - split; [lia|]. intros H. destruct (Hex H). done.
  - split; [destruct (Z.even _); lia|]. intros H. destruct (Hex H). done.
  - split; [lia|]. intros H. destruct (Hex H). done.
  - split; [lia|done].
Qed.
Lemma fexp_eq x : fexp float.prec float.emax x = Z.max (x - 53) (-1074).
Proof. reflexivity. Qed.

Lemma Zdigits2_le m k : 0 <= m -> 0 <= k -> m < 2 ^ k -> Zdigits2 m <= k.
Proof.
  destruct m as [|p|p]; cbn [Zdigits2]; try lia.
  intros _ Hk Hp. by apply digits2_lt_pow.
Qed.

Lemma shr_spec m e n rec e' :
  0 <= m ->
  shr (Build_shr_record m false false) e n = (rec, e') ->
  let s := Z.max n 0 in
  let q := round_nearest_even (shr_m rec) (loc_of_shr_record rec) in
  e' = e + s /\ shr_m rec = m / 2 ^ s /\ m / 2 ^ s <= q <= m / 2 ^ s + 1
  /\ (m mod 2 ^ s = 0 -> q = m / 2 ^ s).
Proof.
  intros Hm Hshr s q. subst s q. destruct n as [|p|p]; cbn [shr] in Hshr.
  - injection Hshr as <- <-. cbn. rewrite Z.div_1_r. lia.
  - injection Hshr as <- <-.
    replace (Z.max (Zpos p) 0) with (Zpos p) by lia.
    destruct (shr_round m p Hm) as (H1 & H2 & H3).
    split; [done|]. split; [exact H1|]. split; [exact H2|exact H3].
  - injection Hshr as <- <-. cbn. rewrite Z.div_1_r. lia.
Qed.

(** Rounding is monotone: a product between an integer multiple [L] of
    [2^ez] and a binary64 number [mz * 2^ez] rounds to a number between the
    two. *)
Lemma binary_round_aux_bounds mz ez L P E0 :
  fexp float.prec float.emax (Zpos (digits2_pos mz) + ez) = ez ->
  ez <= 0 -> E0 <= ez -> 0 <= L ->
  L * 2 ^ (ez - E0) <= P <= Zpos mz * 2 ^ (ez - E0) ->
  exists k,
    float.floor (binary_round_aux float.prec float.emax false P E0 loc_Exact)
    = Some k
    /\ L / 2 ^ (- ez) <= k <= Zpos mz / 2 ^ (- ez).
Proof.
  intros Hcan Hez HE0 HL [HPL HP]. rewrite fexp_eq in Hcan.
  assert (0 <= P) as HP0.
  { assert (0 < 2 ^ (ez - E0)) by (apply Z.pow_pos_nonneg; lia). nia. }
  pose proof (digits2_bounds mz) as [_ Hdz]. set (dz := Zpos (digits2_pos mz)) in *.
  assert (forall q e1, 0 <= q -> e1 <= ez -> q <= Zpos mz * 2 ^ (ez - e1) ->
            fexp float.prec float.emax (Zdigits2 q + e1) <= ez) as Hfexp.
  { intros q e1 Hq He1 Hle. rewrite fexp_eq.
    assert (Zdigits2 q <= dz + (ez - e1)); [|lia].
    apply Zdigits2_le; [done|lia|].
    rewrite Z.pow_add_r by lia.
    assert (0 < 2 ^ (ez - e1)) by (apply Z.pow_pos_nonneg; lia). nia. }
  unfold binary_round_aux, shr_fexp. cbn [shr_record_of_loc].
  destruct (shr _ E0 _) as [rec1 e1] eqn:H1.
  apply shr_spec in H1 as (He1 & Hm1 & Hq1 & Hex1); [|done].
  pose proof (Hfexp P E0 HP0 HE0 HP) as Hn1.
  set (s1 := Z.max (fexp _ _ (Zdigits2 P + E0) - E0) 0) in *.
  set (q1 := round_nearest_even _ _) in *.
  assert (0 <= s1 <= ez - E0) as Hs1 by lia.
  assert (0 < 2 ^ s1) as Hp1 by (apply Z.pow_pos_nonneg; lia).
  assert (0 < 2 ^ (ez - e1)) as Hp2 by (apply Z.pow_pos_nonneg; lia).
  assert (2 ^ (ez - E0) = 2 ^ (ez - e1) * 2 ^ s1) as HBu.
  { rewrite <- Z.pow_add_r by lia. f_equal. lia. }
  rewrite HBu, !Z.mul_assoc in HP, HPL.
  assert (0 <= P / 2 ^ s1) as Hd0 by (apply Z.div_pos; lia).
  assert (q1 <= Zpos mz * 2 ^ (ez - e1)) as Hq1le.
  { assert (P / 2 ^ s1 <= Zpos mz * 2 ^ (ez - e1)) as Hdle.
    { apply Z.div_le_upper_bound; lia. }
    destruct (Z.eq_dec (P / 2 ^ s1) (Zpos mz * 2 ^ (ez - e1))) as [Heq|Hne];
      [|lia].
    pose proof (Z.mul_div_le P (2 ^ s1) Hp1) as Hmd.
    assert (P = Zpos mz * 2 ^ (ez - e1) * 2 ^ s1) as HPeq by lia.
    rewrite Hex1; [lia|]. rewrite HPeq. apply Z.mod_mul. lia. }
  assert (L * 2 ^ (ez - e1) <= q1) as Hq1ge.
  { assert (L * 2 ^ (ez - e1) <= P / 2 ^ s1); [|lia].
    apply Z.div_le_lower_bound; lia. }
  assert (0 <= q1) as Hq0 by lia.
  assert (e1 <= ez) as He1le by lia.
  destruct (shr _ e1 _) as [rec2 e2] eqn:H2.
  apply shr_spec in H2 as (He2 & Hm2 & _ & _); [|done].
  pose proof (Hfexp q1 e1 Hq0 He1le Hq1le) as Hn2.
  set (s2 := Z.max (fexp _ _ (Zdigits2 q1 + e1) - e1) 0) in *.
  assert (0 <= s2) as Hs2 by lia.
  assert (e2 <= ez) as He2le by lia.
  assert (0 < 2 ^ s2) as Hp3 by (apply Z.pow_pos_nonneg; lia).
  assert (0 < 2 ^ (ez - e2)) as Hp6 by (apply Z.pow_pos_nonneg; lia).
  assert (0 <= q1 / 2 ^ s2) as Hd2 by (apply Z.div_pos; lia).
  assert (0 < 2 ^ (- ez)) as Hp4 by (apply Z.pow_pos_nonneg; lia).
  assert (L * 2 ^ (ez - e2) <= q1 / 2 ^ s2) as Hm2ge.
  { apply Z.div_le_lower_bound; [lia|].
    replace (ez - e1) with (s2 + (ez - e2)) in Hq1ge by lia.
    rewrite Z.pow_add_r in Hq1ge by lia. lia. }
  destruct (shr_m rec2) as [|m2|m2] eqn:Hrec2; [| |lia].
  { exists 0. split; [done|]. split; [|apply Z.div_pos; lia].
    assert (L = 0) as -> by nia. done. }
  replace (e2 <=? float.emax - float.prec) with true
    by (symmetry; apply Z.leb_le; unfold float.emax, float.prec; lia).
  cbn [float.floor cond_Zopp]. eexists. split; [done|].
  assert (match e2 with
          | Zneg p => Zpos m2 / 2 ^ Zpos p
          | _ => Zpos m2 * 2 ^ e2
          end = Zpos m2 / 2 ^ (- e2)) as ->.
  { destruct e2 as [|p|p]; [|lia|done]. cbn. by rewrite Z.div_1_r, Z.mul_1_r. }
  assert (0 < 2 ^ (- e2)) as Hp5 by (apply Z.pow_pos_nonneg; lia).
  assert (forall a, a * 2 ^ (ez - e2) / 2 ^ (- e2) = a / 2 ^ (- ez)) as Hcancel.
  { intros a. replace (- e2) with (- ez + (ez - e2)) by lia.
    rewrite Z.pow_add_r by lia. by rewrite Z.div_mul_cancel_r by lia. }
  split.
  - rewrite <- Hcancel. apply Z.div_le_mono; lia.
  - rewrite <- Hcancel. apply Z.div_le_mono; [lia|].
    rewrite Hm2. transitivity (Zpos mz * 2 ^ (ez - e1) / 2 ^ s2).
    { apply Z.div_le_mono; lia. }
    replace (ez - e1) with (ez - e2 + s2) by lia.
    rewrite Z.pow_add_r, Z.mul_assoc, Z.div_mul by lia. lia.
Qed.

Lemma binary_round_aux_canonical mz ez :
  fexp float.prec float.emax (Zpos (digits2_pos mz) + ez) = ez ->
  ez <= 971 ->
  binary_round_aux float.prec float.emax false (Zpos mz) ez loc_Exact
  = S754_finite false mz ez.
Proof.
  intros Hcan Hez. unfold binary_round_aux, shr_fexp.
  cbn [shr_record_of_loc Zdigits2]. rewrite Hcan, Z.sub_diag.
  cbn [shr shr_m loc_of_shr_record round_nearest_even Zdigits2
       shr_record_of_loc].
  rewrite Hcan, Z.sub_diag. cbn [shr shr_m].
  replace (ez <=? float.emax - float.prec) with true; [done|].
  symmetry; apply Z.leb_le; unfold float.emax, float.prec; lia.
Qed.

(** An integer below [2^53] is a binary64 number. *)
Lemma of_nat_spec N :
  0 < Z.of_nat N < 2 ^ 53 ->
  exists mz ez,
    float.of_nat N = S754_finite false mz ez
    /\ fexp float.prec float.emax (Zpos (digits2_pos mz) + ez) = ez
    /\ ez <= 0 /\ Zpos mz = Z.of_nat N * 2 ^ (- ez)
    /\ 2 ^ 52 <= Zpos mz < 2 ^ 53.
Proof.
  intros [HN0 HN]. unfold float.of_nat, binary_normalize.
  destruct (Z.of_nat N) as [|n|n]; [lia| |lia].
  pose proof (digits2_lt_pow n 53 ltac:(lia) HN) as Hd.
  unfold binary_round. rewrite fexp_eq.
  set (dd := Zpos (digits2_pos n)) in *.
  replace (Z.max (dd + 0 - 53) (-1074)) with (dd - 53) by lia.
  unfold shl_align. rewrite Z.sub_0_r.
  destruct (dd - 53) as [|d|d] eqn:Hdd; [| lia |].
  - exists n, 0. rewrite binary_round_aux_canonical.
    + split; [done|]. split; [rewrite fexp_eq; fold dd; lia|].
      split; [lia|]. split; [lia|].
      pose proof (digits2_bounds n) as Hb. fold dd in Hb.
      by replace dd with 53 in Hb by lia.
    + rewrite fexp_eq. fold dd. lia.
    + lia.
  - exists (Pos.iter xO n d), (Zneg d).
    assert (Zpos (digits2_pos (Pos.iter xO n d)) = 53) as Hd53.
    { rewrite digits2_shift, Pos2Z.inj_add. fold dd. lia. }
    assert (fexp float.prec float.emax
              (Zpos (digits2_pos (Pos.iter xO n d)) + Zneg d) = Zneg d) as Hc.
    { rewrite fexp_eq, Hd53. lia. }
    rewrite binary_round_aux_canonical by (done || lia).
    split; [done|]. split; [done|]. split; [lia|].
    split; [by rewrite Zpos_shift|].
    pose proof (digits2_bounds (Pos.iter xO n d)) as Hb.
    by rewrite Hd53 in Hb.
Qed.

(** The count of [split_data], for a binary64 fraction [m * 2^e] in (0, 1]
    and fewer than [2^53] samples: the floor of the exact product or one
    more, and never more than the number of samples. *)
Lemma num_train_samples_finite N (m : positive) (e : Z) :
  Z.of_nat N < 2 ^ 53 -> e <= 0 -> Zpos m <= 2 ^ (- e) ->
  exists k,
    num_train_samples N (S754_finite false m e) = Some k
    /\ Z.of_nat N * Zpos m / 2 ^ (- e) <= k
       <= Z.of_nat N * Zpos m / 2 ^ (- e) + 1
    /\ 0 <= k <= Z.of_nat N.
Proof.
  intros HN He Hm. unfold num_train_samples.
  destruct (Z.eq_dec (Z.of_nat N) 0) as [H0|H0].
  { assert (N = 0%nat) as -> by lia. exists 0. split; [done|].
    cbn. lia. }
  set (b := 2 ^ (- e)) in *. set (I := Z.of_nat N * Zpos m / b).
  assert (0 < b) as Hb by (apply Z.pow_pos_nonneg; lia).
  assert (I * b <= Z.of_nat N * Zpos m < (I + 1) * b) as [HI1 HI2].
  { unfold I.
    pose proof (Z.div_mod (Z.of_nat N * Zpos m) b ltac:(lia)) as Hdm.
    pose proof (Z.mod_pos_bound (Z.of_nat N * Zpos m) b Hb). lia. }
  assert (0 <= I) as HI0 by (apply Z.div_pos; lia).
  destruct (of_nat_spec N ltac:(lia))
    as (mz & ez & HofN & Hcan & Hez & Hmz & Hnorm).
  set (a := 2 ^ (- ez)) in *.
  assert (0 < a) as Ha by (apply Z.pow_pos_nonneg; lia).
  assert (2 ^ (ez - (ez + e)) = b) as Hpb by (unfold b; f_equal; lia).
  rewrite HofN. unfold float.mul, SFmul. cbn [xorb].
  destruct (binary_round_aux_bounds mz ez (I * a) (Zpos (mz * m)) (ez + e))
    as (k & Hk & Hklo & Hkhi); [done|done|lia|lia| |].
  { rewrite Hpb, Pos2Z.inj_mul, Hmz. split; nia. }
  fold a in Hklo, Hkhi. rewrite Z.div_mul in Hklo by lia.
  rewrite Hmz, Z.div_mul in Hkhi by lia.
  exists k. split; [done|]. split; [|lia]. split; [done|].
  destruct (Z.eq_dec I (Z.of_nat N)) as [HIN|HIN]; [lia|].
  assert (I < Z.of_nat N) as HIlt.
  { assert (I * b <= Z.of_nat N * b) by nia. nia. }
  destruct (of_nat_spec (Z.to_nat (I + 1)) ltac:(lia))
    as (mu & eu & _ & Hcanu & Heu & Hmu & Hnormu).
  rewrite Z2Nat.id in Hmu by lia.
  set (c := 2 ^ (- eu)) in *.
  assert (0 < c) as Hc by (apply Z.pow_pos_nonneg; lia).
  assert (ez + e <= eu) as HE0.
  { destruct (Z_le_gt_dec (ez + e) eu) as [|Hgt]; [done|exfalso].
    assert (2 * (a * b) <= c) as Hcab.
    { unfold a, b, c. rewrite <- Z.pow_add_r by lia.
      change 2 with (2 ^ 1) at 1. rewrite <- Z.pow_add_r by lia.
      apply Z.pow_le_mono_r; lia. }
    assert ((I + 1) * c >= (I + 1) * (2 * (a * b))) by nia.
    assert ((I + 1) * (2 * (a * b)) = 2 * a * ((I + 1) * b)) as Heq by ring.
    assert (2 * a * ((I + 1) * b) > 2 * a * (Z.of_nat N * Zpos m)) by nia.
    assert (2 * a * (Z.of_nat N * Zpos m) = 2 * Zpos mz * Zpos m) as Heq2
      by (rewrite Hmz; ring).
    assert (2 * Zpos mz * Zpos m >= 2 * Zpos mz) by nia.
    lia. }
  destruct (binary_round_aux_bounds mu eu 0 (Zpos (mz * m)) (ez + e))
    as (k' & Hk' & _ & Hk'hi); [done|done|done|done| |].
  { split; [lia|]. rewrite Pos2Z.inj_mul, Hmz, Hmu.
    assert (c * 2 ^ (eu - (ez + e)) = a * b) as Hcc.
    { unfold a, b, c. rewrite <- !Z.pow_add_r by lia. f_equal. lia. }
    rewrite <- (Z.mul_assoc (I + 1)), Hcc. nia. }
  rewrite Hk in Hk'. injection Hk' as <-.
  fold c in Hk'hi. by rewrite Hmu, Z.div_mul in Hk'hi by lia.
Qed.

Lemma digits2_53 mz : 2 ^ 52 <= Zpos mz < 2 ^ 53 -> Zpos (digits2_pos mz) = 53.
Proof.
  intros [Hlo Hhi]. pose proof (digits2_lt_pow mz 53 ltac:(lia) Hhi) as Hle.
  destruct (digits2_bounds mz) as [_ Hd].
  destruct (Z_le_gt_dec (Zpos (digits2_pos mz)) 52) as [H52|]; [|lia].
  assert (2 ^ Zpos (digits2_pos mz) <= 2 ^ 52)
    by (apply Z.pow_le_mono_r; lia).
  lia.
Qed.

(** The default ratio [0.8] on fewer than [2^50] samples: the count is the
    floor of the exact product with 8/10. *)
Lemma num_train_samples_default N :
  Z.of_nat N < 2 ^ 50 ->
  num_train_samples N train_ratio_default = Some (4 * Z.of_nat N / 5).
Proof.
  intros HN. unfold num_train_samples, train_ratio_default.
  destruct (Z.eq_dec (Z.of_nat N) 0) as [H0|H0].
  { assert (N = 0%nat) as -> by lia. done. }
  set (I := 4 * Z.of_nat N / 5).
  assert (5 * I <= 4 * Z.of_nat N < 5 * I + 5) as [HI1 HI2].
  { unfold I. pose proof (Z.div_mod (4 * Z.of_nat N) 5 ltac:(lia)).
    pose proof (Z.mod_pos_bound (4 * Z.of_nat N) 5 ltac:(lia)). lia. }
  assert (0 <= I) as HI0 by (apply Z.div_pos; lia).
  change (2 ^ 50) with 1125899906842624 in HN.
  destruct (of_nat_spec N) as (mz & ez & HofN & _ & Hez & Hmz & Hnorm).
  { change (2 ^ 53) with 9007199254740992. lia. }
  destruct (of_nat_spec (Z.to_nat (8 * I + 7)))
    as (mu & eu & _ & _ & Heu & Hmu & Hnormu).
  { change (2 ^ 53) with 9007199254740992. lia. }
  rewrite Z2Nat.id in Hmu by lia.
  set (a := 2 ^ (- ez)) in *. set (c := 2 ^ (- eu)) in *.
  assert (0 < a) as Ha by (apply Z.pow_pos_nonneg; lia).
  assert (0 < c) as Hc by (apply Z.pow_pos_nonneg; lia).
  assert (ez <= -3) as Hez3.
  { destruct (Z_le_gt_dec ez (-3)) as [|Hgt]; [done|exfalso].
    assert (a <= 2 ^ 2) by (apply Z.pow_le_mono_r; lia).
    change (2 ^ 52) with 4503599627370496 in Hnorm.
    change (2 ^ 2) with 4 in *. nia. }
  assert (-53 <= eu) as Heu53.
  { destruct (Z_le_gt_dec (-53) eu) as [|Hgt]; [done|exfalso].
    assert (2 ^ 53 <= c) by (apply Z.pow_le_mono_r; lia). nia. }
  rewrite HofN. unfold float.mul, SFmul. cbn [xorb].
  destruct (binary_round_aux_bounds mu (eu - 3) (I * (c * 2 ^ 3))
              (Zpos (mz * 7205759403792794)) (ez + -53))
    as (k & Hk & Hklo & Hkhi).
  { rewrite fexp_eq, (digits2_53 mu Hnormu). lia. }
  { lia. }
  { lia. }
  { change (2 ^ 3) with 8. nia. }
  { assert (c * 2 ^ (eu - 3 - (ez + -53)) = a * 2 ^ 50) as Hcc.
    { unfold a, c. rewrite <- !Z.pow_add_r by lia. f_equal. lia. }
    rewrite Pos2Z.inj_mul, Hmz, Hmu.
    rewrite <- (Z.mul_assoc (8 * I + 7)), Hcc.
    replace (I * (c * 2 ^ 3) * 2 ^ (eu - 3 - (ez + -53)))
      with (I * 2 ^ 3 * (c * 2 ^ (eu - 3 - (ez + -53)))) by ring.
    rewrite Hcc. change (2 ^ 50) with 1125899906842624.
    change (2 ^ 3) with 8. split; nia. }
  rewrite Hk. f_equal.
  assert (2 ^ (- (eu - 3)) = c * 2 ^ 3) as Hc3.
  { unfold c. rewrite <- Z.pow_add_r by lia. f_equal. lia. }
  rewrite Hc3 in Hklo, Hkhi.
  rewrite Z.div_mul in Hklo by (change (2 ^ 3) with 8; lia).
  rewrite Hmu, (Z.mul_comm c), Z.div_mul_cancel_r in Hkhi
    by (change (2 ^ 3) with 8; lia).
  change (2 ^ 3) with 8 in Hkhi.
  assert ((8 * I + 7) / 8 = I) as HI8.
  { symmetry. apply (Z.div_unique _ _ _ 7); lia. }
  lia.
Qed.

Lemma powerRZ_2_nonpos e :
  e <= 0 -> powerRZ 2 e = (/ IZR (2 ^ (- e)))%R.
Proof.
  intros He. destruct e as [|p|p]; [|lia|].
  - change (1 = / 1)%R. by rewrite Rinv_1.
  - cbn [powerRZ Z.opp]. rewrite pow_IZR, positive_nat_Z. done.
Qed.

(** A binary64 number in (0, 1] is a positive mantissa over a power of 2 at
    least as large. *)
Lemma value_fraction r x :
  float.value r = Some x -> (0 < x <= 1)%R ->
  exists m e,
    r = S754_finite false m e /\ e <= 0 /\ Zpos m <= 2 ^ (- e)
    /\ x = (IZR (Zpos m) / IZR (2 ^ (- e)))%R.
Proof.
  destruct r as [s|s| |s m e]; cbn [float.value]; intros [= <-] [Hx0 Hx1];
    [lra|].
  pose proof (powerRZ_lt 2 e ltac:(lra)) as Hp.
  assert (1 <= IZR (Zpos m))%R as Hm1 by (apply IZR_le; lia).
  destruct s; cbn [cond_Zopp] in *.
  { change (Z.opp (Zpos m)) with (- Zpos m) in Hx0.
    rewrite opp_IZR in Hx0. nra. }
  assert (e <= 0) as He.
  { destruct e as [|p|p]; [lia| |lia]. exfalso.
    cbn [powerRZ] in *. destruct (Pos2Nat.is_succ p) as [n Hn].
    rewrite Hn in *. cbn [pow] in *.
    pose proof (pow_R1_Rle 2 n ltac:(lra)). nra. }
  exists m, e. split; [done|]. split; [done|].
  rewrite powerRZ_2_nonpos in * by done.
  assert (0 < 2 ^ (- e)) as Hpz by (apply Z.pow_pos_nonneg; lia).
  pose proof (IZR_lt _ _ Hpz) as HpR. split; [|done].
  apply le_IZR. apply (Rmult_le_reg_r (/ IZR (2 ^ (- e)))); [done|].
  rewrite Rinv_r by lra. lra.
Qed.

Lemma Zfloor_div (N : nat) (m b : Z) :
  0 < b -> Zfloor (INR N * (IZR m / IZR b)) = Z.of_nat N * m / b.
Proof.
  intros Hb. set (z := Z.of_nat N * m / b).
  assert (z * b <= Z.of_nat N * m < (z + 1) * b) as [H1 H2].
  { unfold z. pose proof (Z.div_mod (Z.of_nat N * m) b ltac:(lia)).
    pose proof (Z.mod_pos_bound (Z.of_nat N * m) b Hb). lia. }
  apply IZR_le in H1. apply IZR_lt in H2.
  rewrite !mult_IZR, <- INR_IZR_INZ in H1, H2. rewrite plus_IZR in H2.
  pose proof (IZR_lt _ _ Hb) as HbR.
  apply Zfloor_eq.
  replace (INR N * (IZR m / IZR b))%R with (INR N * IZR m / IZR b)%R
    by (field; lra).
  split.
  - apply (Rmult_le_reg_r (IZR b)); [done|].
    replace (INR N * IZR m / IZR b * IZR b)%R with (INR N * IZR m)%R
      by (field; lra).
    done.
  - apply (Rmult_lt_reg_r (IZR b)); [done|].
    replace (INR N * IZR m / IZR b * IZR b)%R with (INR N * IZR m)%R
      by (field; lra).
    done.
Qed.

Lemma Zfloor_default (N : nat) : Zfloor (INR N * 0.8) = 4 * Z.of_nat N / 5.
Proof.
  set (z := 4 * Z.of_nat N / 5).
  assert (5 * z <= 4 * Z.of_nat N < 5 * z + 5) as [H1 H2].
  { unfold z. pose proof (Z.div_mod (4 * Z.of_nat N) 5 ltac:(lia)).
    pose proof (Z.mod_pos_bound (4 * Z.of_nat N) 5 ltac:(lia)). lia. }
  apply IZR_le in H1. apply IZR_lt in H2.
  rewrite !mult_IZR, <- INR_IZR_INZ in H1.
  rewrite plus_IZR, !mult_IZR, <- INR_IZR_INZ in H2.
  apply Zfloor_eq. lra.
Qed.

(** The count of [split_data] for a train fraction in (0, 1] and fewer than
    [2^53] samples. *)
Lemma num_train_samples_bounds N r x :
  Z.of_nat N < 2 ^ 53 -> float.value r = Some x -> (0 < x <= 1)%R ->
  exists k,
    num_train_samples N r = Some k
    /\ Zfloor (INR N * x) <= k <= Zfloor (INR N * x) + 1
    /\ 0 <= k <= Z.of_nat N.
Proof.
  intros HN Hv Hx.
  destruct (value_fraction r x Hv Hx) as (m & e & -> & He & Hm & ->).
  rewrite Zfloor_div by (apply Z.pow_pos_nonneg; lia).
  by apply num_train_samples_finite.
Qed.

(** The two literals are the binary64 numbers nearest to 8/10 and 7/10: they
    are within half a unit in the last place, [2^-54]. *)
Lemma train_ratio_default_value :
  float.value train_ratio_default
  = Some (7205759403792794 / 9007199254740992)%R.
Proof.
  unfold train_ratio_default, float.value. cbn [cond_Zopp].
  by rewrite powerRZ_2_nonpos.
Qed.

Lemma ratio_0_7_value :
  float.value ratio_0_7 = Some (6305039478318694 / 9007199254740992)%R.
Proof.
  unfold ratio_0_7, float.value. cbn [cond_Zopp].
  by rewrite powerRZ_2_nonpos.
Qed.

Lemma train_ratio_default_nearest :
  valid_binary float.prec float.emax train_ratio_default = true
  /\ exists x, float.value train_ratio_default = Some x
               /\ (Rabs (x - 0.8) < / 18014398509481984)%R.
Proof.
  split; [reflexivity|]. eexists. split; [apply train_ratio_default_value|].
  apply Rabs_def1; lra.
Qed.

Lemma ratio_0_7_nearest :
  valid_binary float.prec float.emax ratio_0_7 = true
  /\ exists x, float.value ratio_0_7 = Some x
               /\ (Rabs (x - 0.7) < / 18014398509481984)%R.
Proof.
  split; [reflexivity|]. eexists. split; [apply ratio_0_7_value|].
  apply Rabs_def1; lra.
Qed.

End binary64.

(** ** The data split *)

Lemma lookup_nth_nat (l : list nat) i :
  i < length l -> l !! i = Some (nth i l 0).
Proof.
  intros Hlt. destruct (lookup_lt_is_Some_2 _ _ Hlt) as [v Hv].
  rewrite Hv. f_equal. symmetry. by apply nth_lookup_Some.
Qed.

Lemma shuffle_perm i g (x : list nat) :
  i < length x \/ i = 0 -> (random.shuffle i g x).2 ≡ₚ x.
Proof.
  revert g x. induction i as [|i IH]; intros g x Hi; [done|].
  destruct Hi as [Hi|?]; [|done]. cbn [random.shuffle random.random_interval].
  set (j := random.draws g (random.pos g) mod S (S i)).
  assert (j < S (S i)) as Hj by (apply Nat.mod_upper_bound; lia).
  rewrite IH by (rewrite !length_insert; lia).
  apply Permutation_insert_swap.
  - by apply lookup_nth_nat.
  - apply lookup_nth_nat. lia.
Qed.

Lemma permutation_perm g n : (random.permutation g n).2 ≡ₚ seq 0 n.
Proof.
  unfold random.permutation. apply shuffle_perm. rewrite length_seq. lia.
Qed.

Lemma mapM_lookup_seq n (l : list nat) :
  Forall (fun i => i < n) l -> mapM (fun i => seq 0 n !! i) l = Some l.
Proof.
  intros Hl. apply mapM_Some. induction Hl as [|i l Hi _ IH]; constructor.
  - by rewrite lookup_seq_lt.
  - done.
Qed.

Lemma take_rows_Some {A} (X : list A) (idx : list nat) :
  Forall (fun i => i < length X) idx ->
  exists rows, take_rows X idx = Some rows /\ length rows = length idx.
Proof.
  intros Hidx. unfold take_rows.
  destruct (mapM_is_Some_2 (fun i => X !! i) idx) as [rows Hrows].
  { eapply Forall_impl; [exact Hidx|]. intros i Hi. by apply lookup_lt_is_Some_2. }
  exists rows. split; [done|]. symmetry. by eapply length_mapM.
Qed.

Section split.
Context (g : random.RandomState) (N : nat) (r : spec_float) (k : Z).
Context (Hk : num_train_samples N r = Some k).
Context (Hb : (0 <= k <= Z.of_nat N)%Z).

Lemma split_indices_spec :
  exists g' tr va,
    split_indices g N r = Some (g', tr, va)
    /\ Z.of_nat (length tr) = k
    /\ length va = N - length tr
    /\ NoDup tr /\ NoDup va
    /\ (forall i, i ∈ tr -> i ∉ va)
    /\ (forall i, i ∈ tr \/ i ∈ va <-> i < N).
Proof using Hk Hb.
  destruct Hb as [Hk0 HkN].
  unfold split_indices, random.choice. rewrite Hk, length_seq.
  cbn [mbind option_bind].
  rewrite !option_guard_True by done. cbn [mbind option_bind].
  pose proof (permutation_perm g N) as Hperm.
  destruct (random.permutation g N) as [g' idx]. cbn [snd] in Hperm.
  set (n := Z.to_nat k).
  assert (length idx = N) as Hlen by (by rewrite Hperm, length_seq).
  assert (NoDup idx) as Hnd by (rewrite Hperm; apply NoDup_seq).
  assert (forall i, i ∈ idx <-> i < N) as Hin.
  { intros i. rewrite Hperm, elem_of_seq. lia. }
  rewrite mapM_lookup_seq.
  2:{ apply Forall_forall. intros i Hi. apply Hin.
      by apply (subseteq_take n idx). }
  cbn [mbind option_bind].
  set (tr := take n idx).
  set (va := elements (list_to_set (seq 0 N) ∖ list_to_set tr : gset nat)).
  assert (NoDup tr) as Htr.
  { apply (sublist_NoDup tr idx); [done | apply sublist_take]. }
  assert (forall i, i ∈ va <-> i < N /\ i ∉ tr) as Hva.
  { intros i. unfold va. rewrite elem_of_elements, elem_of_difference,
      !elem_of_list_to_set, elem_of_seq. intuition lia. }
  assert (forall i, i ∈ tr -> i < N) as HtrN.
  { intros i Hi. apply Hin. by apply (subseteq_take n idx). }
  exists g', tr, va. split; [done|].
  assert (length tr = n) as Hltr by (unfold tr; rewrite length_take; lia).
  split; [rewrite Hltr; unfold n; lia|]. split.
  { unfold va. change (length (elements ?X)) with (size X).
    rewrite size_difference.
    - rewrite !size_list_to_set by (done || apply NoDup_seq).
      by rewrite length_seq.
    - intros i. rewrite !elem_of_list_to_set, elem_of_seq. intros Hi.
      specialize (HtrN i Hi). lia. }
  split; [done|]. split; [apply NoDup_elements|]. split.
  - intros i Hi Hi'. apply Hva in Hi'. tauto.
  - intros i. rewrite Hva. split.
    + intros [Hi|[Hi _]]; auto.
    + intros Hi. destruct (decide (i ∈ tr)); auto.
Qed.
End split.

(** C3.  [split_data] on [N] samples, fewer than [2^53], and a binary64 train
    fraction [r] with [0 < r <= 1], for every state of the generator: the
    train indices are as many as the floor of the binary64 product of [N] and
    [r], which is [floor (N * r)] or one more, the validation indices [N]
    minus that many, neither list repeats an index, no index is in both, and
    together they are exactly [0 .. N - 1]; the four returned arrays are the
    rows at these indices. *)
Theorem split_data_spec {A B : Type} (g : random.RandomState) (X : list A)
    (Y : list B) (r : spec_float) (x : R) :
  (Z.of_nat (length X) < 2 ^ 53)%Z ->
  float.value r = Some x -> (0 < x <= 1)%R -> length Y = length X ->
  exists g' tr va X_train Y_train X_val Y_val,
    split_indices g (length X) r = Some (g', tr, va)
    /\ split_data g X Y r = Some (g', (X_train, Y_train, X_val, Y_val))
    /\ take_rows X tr = Some X_train /\ take_rows Y tr = Some Y_train
    /\ take_rows X va = Some X_val /\ take_rows Y va = Some Y_val
    /\ num_train_samples (length X) r = Some (Z.of_nat (length tr))
    /\ (Zfloor (INR (length X) * x) <= Z.of_nat (length tr)
        <= Zfloor (INR (length X) * x) + 1)%Z
    /\ length va = length X - length tr
    /\ length X_train = length tr /\ length Y_train = length tr
    /\ length X_val = length va /\ length Y_val = length va
    /\ NoDup tr /\ NoDup va
    /\ (forall i, i ∈ tr -> i ∉ va)
    /\ (forall i, i ∈ tr \/ i ∈ va <-> i < length X).
Proof.
  intros HN Hv Hr HY.
  destruct (num_train_samples_bounds (length X) r x HN Hv Hr)
    as (k & Hk & Hfl & Hb).
  destruct (split_indices_spec g (length X) r k Hk Hb)
    as (g' & tr & va & Hsplit & Hltr & Hlva & Htr & Hva & Hdisj & Hcover).
  assert (Forall (fun i => i < length X) tr) as HtrX.
  { apply Forall_forall. intros i Hi. apply Hcover. by left. }
  assert (Forall (fun i => i < length X) va) as HvaX.
  { apply Forall_forall. intros i Hi. apply Hcover. by right. }
  destruct (take_rows_Some X tr HtrX) as (X_train & HXt & ?).
  destruct (take_rows_Some X va HvaX) as (X_val & HXv & ?).
  rewrite <- HY in HtrX, HvaX.
  destruct (take_rows_Some Y tr HtrX) as (Y_train & HYt & ?).
  destruct (take_rows_Some Y va HvaX) as (Y_val & HYv & ?).
  exists g', tr, va, X_train, Y_train, X_val, Y_val.
  split; [done|]. split.
  { unfold split_data. rewrite Hsplit. cbn [mbind option_bind].
    rewrite HXt, HYt, HXv, HYv. done. }
  do 4 (split; [done|]). split; [by rewrite Hltr|].
  split; [by rewrite Hltr|].
  repeat (split; [done|]). done.
Qed.

(** ** The training step *)

Lemma forward_clear_cache l x : forward (clear_cache l) x = forward l x.
Proof. by destruct l as [[]|[]|[]|[]|[]|[]]. Qed.

Lemma forward_all_clear_cache ls x :
  forward_all (clear_cache <$> ls) x = forward_all ls x.
Proof.
  revert x. induction ls as [|l ls IH]; intros x; [done|].
  rewrite fmap_cons. cbn [forward_all]. rewrite forward_clear_cache.
  destruct (forward l x) as [[l' out]|]; [|done].
  cbn [mbind option_bind]. by rewrite IH.
Qed.

(** C8.  The training step is deterministic: its loss, accuracy flag and
    resulting layer objects are a function of the sample, the label, the
    learning rate and the parameters of the layers alone; what the layers had
    cached before the call does not matter. *)
Theorem train_deterministic (image : ndarray) (label : nat)
    (layers1 layers2 : list layer) (lr : R) :
  clear_cache <$> layers1 = clear_cache <$> layers2 ->
  train image label layers1 lr = train image label layers2 lr.
Proof.
  intros Hparams. unfold train.
  rewrite <- (forward_all_clear_cache layers1), Hparams.
  by rewrite forward_all_clear_cache.
Qed.

Lemma initial_error_col out n label :
  shape out = [n; 1] -> valid out -> label < n ->
  exists output_error,
    initial_error out label = Some output_error
    /\ shape output_error = [n; 1]
    /\ valid output_error
    /\ forall i, i < n ->
         get output_error [i; 0]
         = Some (if decide (i = label) then (-1 / cell out [label; 0]%nat)%R
                 else 0%R).
Proof.
  intros Hs Hv Hl. unfold valid in Hv. rewrite Hs in Hv. simpl in Hv.
  unfold initial_error. rewrite (getitem_col out n) by done.
  cbn [mbind option_bind]. unfold setitem, np.zeros, smap. cbn [shape data].
  rewrite Hs. rewrite !option_guard_True by done. cbn [mbind option_bind].
  change (numel [1]) with (1 * 1). change (numel [n; 1]) with (n * (1 * 1)).
  rewrite !Nat.mul_1_r.
  assert (take 1 (drop label (data out)) = [cell out [label; 0]]) as ->.
  { rewrite take_drop_tab by lia. unfold tab. simpl.
    rewrite (cell2 out n 1) by (done || lia). do 2 f_equal. lia. }
  cbn [fmap list_fmap take].
  rewrite take_replicate, drop_replicate, Nat.min_l by lia.
  eexists. split; [reflexivity|]. split; [done|]. split.
  { unfold valid. cbn [shape data]. rewrite length_app, !length_replicate.
    simpl. rewrite length_replicate. lia. }
  intros i Hi.
  rewrite (get_lookup _ [n; 1] _ (i * 1 + 0)) by (done || apply offset2; lia).
  cbn [data]. replace (i * 1 + 0) with i by lia.
  destruct (decide (i = label)) as [->|Hne].
  - rewrite lookup_app_r by (rewrite length_replicate; lia).
    by rewrite length_replicate, Nat.sub_diag.
  - destruct (decide (i < label)).
    + rewrite lookup_app_l by (rewrite length_replicate; lia).
      by rewrite lookup_replicate_2.
    + rewrite lookup_app_r by (rewrite length_replicate; lia).
      rewrite length_replicate.
      replace (i - label) with (S (i - label - 1)) by lia. simpl.
      rewrite lookup_replicate_2 by lia. done.
Qed.

Lemma train_unfold (image : ndarray) (label : nat) (layers layers1 : list layer)
    (lr : R) (out oe : ndarray) (n am : nat) :
  forward_all layers (smap (fun x => x / 255 - 0.5)%R image)
  = Some (layers1, out) ->
  shape out = [n; 1] -> valid out -> label < n ->
  initial_error out label = Some oe -> np.argmax out = Some am ->
  train image label layers lr
  = '(layers2, _) ← backward_all layers1 oe lr;
    Some ((- ln (cell out [label; 0]%nat))%R,
          if decide (am = label) then 1 else 0, layers2).
Proof.
  intros Hfwd Hs Hv Hl Hoe Ham.
  assert (length (data out) = n) as Hlen.
  { unfold valid in Hv. rewrite Hv, Hs. simpl. lia. }
  unfold train. rewrite Hfwd. cbn [mbind option_bind]. rewrite Hoe.
  cbn [mbind option_bind].
  destruct (backward_all layers1 oe lr) as [[layers2 ie]|]; [|done].
  cbn [mbind option_bind]. rewrite (getitem_col out n) by done.
  cbn [mbind option_bind]. rewrite Ham. cbn [mbind option_bind].
  do 3 f_equal. unfold np.sum, np.log, smap. cbn [data].
  rewrite (cell2 out n 1) by (done || lia).
  rewrite take_drop_tab by lia. unfold tab. simpl.
  rewrite !Nat.add_0_r, Nat.mul_1_r. lra.
Qed.

(** C6.  The training driver, once the forward pass has returned a column
    vector [out] of [n] entries and the label is below [n]: the gradient it
    starts the backward pass from is zero but at the label, where it is
    [-1 / out[label]]; the loss is [- ln out[label]]; the accuracy flag is 1
    exactly when the first maximal entry of [out] is at the label. *)
Theorem train_spec (image : ndarray) (label : nat) (layers layers1 : list layer)
    (lr : R) (out : ndarray) (n : nat) :
  forward_all layers (smap (fun x => x / 255 - 0.5)%R image)
  = Some (layers1, out) ->
  shape out = [n; 1] -> valid out -> label < n ->
  exists output_error am,
    initial_error out label = Some output_error
    /\ shape output_error = [n; 1]
    /\ (forall i, i < n ->
          get output_error [i; 0]
          = Some (if decide (i = label) then (-1 / cell out [label; 0]%nat)%R
                  else 0%R))
    /\ np.argmax out = Some am
    /\ am < n
    /\ (forall i, i < n -> (cell out [i; 0]%nat <= cell out [am; 0]%nat)%R)
    /\ (forall i, i < am -> (cell out [i; 0]%nat < cell out [am; 0]%nat)%R)
    /\ train image label layers lr
       = '(layers2, _) ← backward_all layers1 output_error lr;
         Some ((- ln (cell out [label; 0]%nat))%R,
               if decide (am = label) then 1 else 0, layers2).
Proof.
  intros Hfwd Hs Hv Hl.
  destruct (initial_error_col out n label Hs Hv Hl)
    as (oe & Hoe & Hoes & _ & Hoec).
  assert (length (data out) = n) as Hlen.
  { unfold valid in Hv. rewrite Hv, Hs. simpl. lia. }
  destruct (argmax_spec out) as (am & Ham & Hamn & Hmax & Hfirst).
  { intros Hnil. rewrite Hnil in Hlen. simpl in Hlen. lia. }
  rewrite Hlen in Hamn, Hmax.
  assert (forall i, i < n -> cell out [i; 0] = nth i (data out) 0%R) as Hcell.
  { intros i Hi. rewrite (cell2 out n 1) by (done || lia). f_equal. lia. }
  exists oe, am. split; [done|]. split; [done|]. split; [done|].
  split; [done|]. split; [done|]. split.
  { intros i Hi. rewrite !Hcell by done. by apply Hmax. }
  split.
  { intros i Hi. rewrite !Hcell by lia. by apply Hfirst. }
  by apply (train_unfold image label layers layers1 lr out oe n am).
Qed.

(** ** The script's network *)

Lemma valid_smap f a : valid a -> valid (smap f a).
Proof. unfold valid, smap. cbn [shape data]. by rewrite length_fmap. Qed.

Lemma np_max_is_Some a : data a <> [] -> is_Some (np.max a).
Proof. unfold np.max. destruct (data a); [done | eauto]. Qed.

Section pool_forward.
Import MaxPoolingLayer.
Context (self : MaxPoolingLayer.t) (X : ndarray) (F OH OW : nat).
Let k := filter_size self.
Context (Hk : 0 < k).
Context (Hs : shape X = [F; OH * k; OW * k]) (Hv : valid X).

Lemma pool_forward_Some :
  exists out,
    forward self X = Some (Build k (Some X), out)
    /\ shape out = [F; OH; OW] /\ valid out.
Proof using Hk Hs Hv.
  unfold forward. rewrite Hs. cbn [filter_size]. fold k.
  rewrite option_guard_True by done. cbn [mbind option_bind].
  rewrite !Nat.div_mul by lia.
  set (v := fun f i j => default 0%R (r ← region X k f i j; np.max r)).
  erewrite (writes_zeros (fun _ v => v) _ _ (tab3 F OH OW v)).
  - cbn [mbind option_bind]. eexists. split; [done|]. split; [done|].
    unfold valid. cbn [shape data].
    rewrite zip_with_snd by (rewrite length_replicate, length_tab3; simpl; lia).
    by rewrite length_tab3, numel3.
  - apply writes_fill3. intros f i j Hf Hi Hj.
    eapply writes_ext; [|apply (writes_set _ [f; i; j]); by apply offset3].
    intros s. cbv beta. unfold v.
    rewrite (region_tab self X F OH OW) by done. cbn [mbind option_bind].
    fold k. destruct (np_max_is_Some (NdArray [k; k]
      (tab2 k k (fun r c => cell X [f; i * k + r; j * k + c])))) as [m ->]; [|done].
    cbn [data]. intros Hnil. apply (f_equal length) in Hnil.
    rewrite length_tab2 in Hnil. simpl in Hnil. nia.
  - rewrite length_tab3. simpl. lia.
Qed.
End pool_forward.

Lemma map2_Some op a b :
  shape a = shape b ->
  map2 op a b = Some (NdArray (shape a) (zip_with op (data a) (data b))).
Proof. intros Hs. unfold map2. by rewrite option_guard_True by done. Qed.

Lemma valid_zip_with op sh (l1 l2 : list R) :
  length l1 = numel sh -> length l2 = numel sh ->
  valid (NdArray sh (zip_with op l1 l2)).
Proof.
  intros H1 H2. unfold valid. cbn [shape data]. rewrite length_zip_with. lia.
Qed.

Lemma T_Some a n m :
  shape a = [n; m] ->
  exists t, np.T a = Some t /\ shape t = [m; n] /\ valid t.
Proof.
  intros Hs. unfold np.T. rewrite Hs. eexists. split; [done|]. split; [done|].
  unfold valid. cbn [shape data].
  rewrite (length_flat_map_seq _ _ n); [simpl; lia|].
  intros. by rewrite length_fmap, length_seq.
Qed.

Lemma dot_Some a b n p m :
  shape a = [n; p] -> shape b = [p; m] ->
  exists c, np.dot a b = Some c /\ shape c = [n; m] /\ valid c.
Proof.
  intros Ha Hb. unfold np.dot. rewrite Ha, Hb.
  rewrite option_guard_True by done. cbn [mbind option_bind].
  eexists. split; [done|]. split; [done|].
  unfold valid. cbn [shape data].
  rewrite (length_flat_map_seq _ _ m); [simpl; lia|].
  intros. by rewrite length_fmap, length_seq.
Qed.

Lemma fc_forward_Some (self : FCLayer.t) (x : ndarray) :
  fc_wf self -> shape x = [FCLayer.input_size self; 1] ->
  exists y,
    FCLayer.forward self x
    = Some (FCLayer.Build (FCLayer.input_size self) (FCLayer.output_size self)
              (FCLayer.conv_filter self) (FCLayer.bias self) (Some x) (Some y),
            y)
    /\ shape y = [FCLayer.output_size self; 1] /\ valid y.
Proof.
  intros (HWs & _ & HBs & HBv) Hx. unfold FCLayer.forward.
  destruct (T_Some _ _ _ HWs) as (wt & -> & Hwts & _).
  cbn [mbind option_bind].
  destruct (dot_Some wt x _ _ _ Hwts Hx) as (prod & -> & Hps & Hpv).
  cbn [mbind option_bind].
  rewrite map2_Some by (by rewrite Hps, HBs). cbn [mbind option_bind shape].
  rewrite Hps. rewrite option_guard_True by done. cbn [mbind option_bind].
  eexists. split; [done|]. split; [done|].
  apply valid_zip_with; [by rewrite Hpv, Hps | by rewrite HBv, HBs].
Qed.

Lemma fc_backward_Some (self : FCLayer.t) (x g : ndarray) (lr : R) :
  fc_wf self -> FCLayer.input self = Some x ->
  shape x = [FCLayer.input_size self; 1] ->
  shape g = [FCLayer.output_size self; 1] ->
  exists self' input_error,
    FCLayer.backward self g lr = Some (self', input_error)
    /\ shape input_error = [FCLayer.input_size self; 1]
    /\ valid input_error.
Proof.
  intros (HWs & _ & HBs & _) Hin Hx Hg. unfold FCLayer.backward.
  destruct (dot_Some _ g _ _ _ HWs Hg) as (ie & -> & Hies & Hiev).
  cbn [mbind option_bind]. rewrite Hin. cbn [mbind option_bind].
  destruct (T_Some _ _ _ Hg) as (gt & -> & Hgts & _).
  cbn [mbind option_bind].
  destruct (dot_Some x gt _ _ _ Hx Hgts) as (cfe & -> & Hcs & _).
  cbn [mbind option_bind].
  rewrite !map2_Some by (cbn [smap shape]; congruence).
  cbn [mbind option_bind].
  rewrite option_guard_True by congruence. cbn [mbind option_bind].
  eauto.
Qed.

Lemma softmax_backward_Some (self : SoftmaxLayer.t) (y g : ndarray) (n : nat)
    (lr : R) :
  SoftmaxLayer.output self = Some y ->
  shape y = [n; 1] -> valid y -> shape g = [n; 1] -> valid g ->
  exists input_error,
    SoftmaxLayer.backward self g lr = Some (self, input_error)
    /\ shape input_error = [n; 1] /\ valid input_error.
Proof.
  intros Hout Hys Hyv Hgs Hgv. unfold SoftmaxLayer.backward. rewrite Hout.
  cbn [mbind option_bind].
  rewrite map2_Some by congruence. cbn [mbind option_bind].
  destruct (T_Some _ _ _ Hys) as (ot & -> & Hots & _).
  cbn [mbind option_bind].
  destruct (dot_Some ot g _ _ _ Hots Hgs) as (s & -> & Hss & Hsv).
  cbn [mbind option_bind]. rewrite option_guard_True by done.
  cbn [mbind option_bind].
  erewrite (get_cell s); [|done|apply offset2; lia|].
  2:{ rewrite Hsv, Hss. simpl. lia. }
  cbn [mbind option_bind].
  rewrite map2_Some by done. cbn [mbind option_bind shape data smap].
  eexists. split; [done|]. rewrite Hys. split; [done|].
  unfold valid in Hyv, Hgv. rewrite Hys in Hyv. rewrite Hgs in Hgv.
  apply valid_zip_with.
  - rewrite length_zip_with. lia.
  - by rewrite length_fmap.
Qed.

Lemma relu_backward_Some (self : ReLULayer.t) (x g : ndarray) (lr : R) :
  ReLULayer.input self = Some x -> shape g = shape x -> valid x -> valid g ->
  exists input_error,
    ReLULayer.backward self g lr = Some (self, input_error)
    /\ shape input_error = shape g /\ valid input_error.
Proof.
  intros Hin Hs Hxv Hgv. unfold ReLULayer.backward. rewrite Hin.
  cbn [mbind option_bind]. rewrite map2_Some by done.
  cbn [mbind option_bind]. eexists. split; [done|]. split; [done|].
  apply valid_zip_with; [done|]. by rewrite Hs.
Qed.

Lemma flatten_forward_Some (self : FlattenLayer.t) (x : ndarray) (a b c : nat) :
  shape x = [a; b; c] -> valid x ->
  FlattenLayer.forward self x
  = Some (FlattenLayer.Build (Some [a; b; c]), NdArray [a * b * c; 1] (data x)).
Proof.
  intros Hs Hv. unfold valid in Hv. rewrite Hs, numel3 in Hv.
  unfold FlattenLayer.forward, np.reshape, np.flatten. cbn [shape data].
  rewrite Hs. rewrite option_guard_True by (simpl; lia).
  cbn [mbind option_bind shape]. rewrite option_guard_True by congruence.
  cbn [mbind option_bind]. by rewrite Hv.
Qed.

Lemma flatten_backward_Some (self : FlattenLayer.t) (g : ndarray) (a b c : nat)
    (lr : R) :
  FlattenLayer.input_shape self = Some [a; b; c] ->
  length (data g) = a * b * c ->
  FlattenLayer.backward self g lr = Some (self, NdArray [a; b; c] (data g)).
Proof.
  intros Hin Hl. unfold FlattenLayer.backward, np.reshape. rewrite Hin.
  cbn [mbind option_bind]. by rewrite option_guard_True by (by rewrite numel3).
Qed.

Section train_cnn.
Context (conv : ConvolutionLayer.t) (relu : ReLULayer.t)
  (pool : MaxPoolingLayer.t) (flatten : FlattenLayer.t) (fc : FCLayer.t)
  (softmax : SoftmaxLayer.t).
Context (image : ndarray) (label : nat) (lr : R) (H W OH OW : nat).
Let k := ConvolutionLayer.filter_size conv.
Let F := ConvolutionLayer.num_filters conv.
Let p := MaxPoolingLayer.filter_size pool.
Let n := FCLayer.output_size fc.
Context (Hconv : conv_wf conv) (Hfc : fc_wf fc) (Hk : 0 < k) (Hp : 0 < p).
Context (Hs : shape image = [H; W]) (Hv : valid image).
Context (HkH : k <= H) (HkW : k <= W).
Context (HOH : H - k + 1 = OH * p) (HOW : W - k + 1 = OW * p).
Context (Hin : FCLayer.input_size fc = F * OH * OW) (Hlabel : label < n).

Let x0 := smap (fun x => x / 255 - 0.5)%R image.
Let y1 := NdArray [F; OH * p; OW * p] (tab3 F (OH * p) (OW * p) (conv_out conv x0)).
Let y2 := np.maximum y1 0.

Lemma cnn_forward :
  exists y3 y5 out,
    forward_all (cnn conv relu pool flatten fc softmax) x0
    = Some (cnn (ConvolutionLayer.Build F k (ConvolutionLayer.conv_filter conv)
                   (ConvolutionLayer.bias conv) (Some x0))
                (ReLULayer.Build (Some y1))
                (MaxPoolingLayer.Build p (Some y2))
                (FlattenLayer.Build (Some [F; OH; OW]))
                (FCLayer.Build (FCLayer.input_size fc) n
                   (FCLayer.conv_filter fc) (FCLayer.bias fc)
                   (Some (NdArray [F * OH * OW; 1] (data y3))) (Some y5))
                (SoftmaxLayer.Build (Some out)),
            out)
    /\ length (data y3) = F * OH * OW
    /\ shape out = [n; 1] /\ valid out.
Proof using Hconv Hfc Hk Hp Hs Hv HkH HkW HOH HOW Hin Hlabel.
  assert (shape x0 = [H; W]) as Hx0s by done.
  assert (valid x0) as Hx0v by (by apply valid_smap).
  assert (valid y1) as Hy1v.
  { unfold valid. cbn [shape data y1]. by rewrite length_tab3, numel3. }
  assert (valid y2) as Hy2v by (by apply valid_smap).
  unfold cnn. cbn [forward_all forward].
  rewrite (conv_forward_tab conv x0 H W) by done. fold k F.
  rewrite HOH, HOW. fold y1. cbn [lift mbind option_bind].
  unfold ReLULayer.forward. fold y2. cbn [lift mbind option_bind].
  destruct (pool_forward_Some pool y2 F OH OW Hp eq_refl Hy2v)
    as (y3 & -> & Hy3s & Hy3v). fold p.
  cbn [lift mbind option_bind].
  rewrite (flatten_forward_Some flatten y3 F OH OW) by done.
  cbn [lift mbind option_bind].
  destruct (fc_forward_Some fc (NdArray [F * OH * OW; 1] (data y3)) Hfc)
    as (y5 & -> & Hy5s & Hy5v); [by rewrite Hin|]. fold n in Hy5s |- *.
  cbn [lift mbind option_bind].
  assert (length (data y5) = n) as Hy5l.
  { unfold valid in Hy5v. rewrite Hy5v, Hy5s. simpl. lia. }
  destruct n as [|n'] eqn:Hn; [lia|].
  destruct (data y5) as [|v0 tl] eqn:Hy5d; [done|]. injection Hy5l as Htl.
  rewrite (softmax_forward_col softmax y5 n' v0 tl) by done.
  cbn [lift mbind option_bind]. rewrite Hy5d.
  eexists y3, y5, _. split; [reflexivity|]. split.
  { unfold valid in Hy3v. by rewrite Hy3v, Hy3s, numel3. }
  split; [done|]. unfold valid. cbn [shape data]. rewrite !length_fmap.
  cbn [length numel foldr]. lia.
Qed.

(** One training step of the script's network returns, with the loss and the
    accuracy flag of the driver, whatever the layers had cached. *)
Theorem train_cnn_returns :
  exists layers1 out am layers',
    forward_all (cnn conv relu pool flatten fc softmax) x0 = Some (layers1, out)
    /\ shape out = [n; 1]
    /\ np.argmax out = Some am
    /\ train image label (cnn conv relu pool flatten fc softmax) lr
       = Some ((- ln (cell out [label; 0]%nat))%R,
               if decide (am = label) then 1 else 0, layers').
Proof using Hconv Hfc Hk Hp Hs Hv HkH HkW HOH HOW Hin Hlabel.
  destruct cnn_forward as (y3 & y5 & out & Hfwd & Hy3l & Houts & Houtv).
  destruct (initial_error_col out n label Houts Houtv Hlabel)
    as (oe & Hoe & Hoes & Hoev & _).
  destruct (argmax_spec out) as (am & Ham & _).
  { intros Hnil. unfold valid in Houtv. rewrite Hnil, Houts in Houtv.
    simpl in Houtv. lia. }
  pose proof (train_unfold image label _ _ lr out oe n am Hfwd Houts Houtv
                Hlabel Hoe Ham) as Htrain.
  match type of Htrain with
  | _ = (backward_all ?ls _ _ ≫= _) =>
      assert (exists layers' ie, backward_all ls oe lr = Some (layers', ie))
        as (layers' & ie & Hbwd)
  end.
  2:{ rewrite Hbwd in Htrain. cbn [mbind option_bind] in Htrain.
      eexists _, out, am, layers'. eauto. }
  clear Htrain Hfwd.
  assert (valid y1) as Hy1v.
  { unfold valid. cbn [shape data y1]. by rewrite length_tab3, numel3. }
  assert (valid y2) as Hy2v by (by apply valid_smap).
  unfold cnn. cbn [backward_all backward mbind option_bind].
  destruct (softmax_backward_Some (SoftmaxLayer.Build (Some out)) out oe n lr)
    as (e5 & -> & He5s & He5v); [done..|].
  cbn [lift mbind option_bind].
  edestruct (fc_backward_Some
    (FCLayer.Build (FCLayer.input_size fc) n (FCLayer.conv_filter fc)
       (FCLayer.bias fc) (Some (NdArray [F * OH * OW; 1] (data y3))) (Some y5))
    (NdArray [F * OH * OW; 1] (data y3)) e5 lr)
    as (fc' & e4 & -> & He4s & He4v); [exact Hfc|done|by rewrite Hin|done|].
  cbn [FCLayer.input_size] in He4s.
  cbn [lift mbind option_bind].
  rewrite (flatten_backward_Some _ e4 F OH OW) by
    (done || (rewrite He4v, He4s, Hin; simpl; lia)).
  cbn [lift mbind option_bind].
  assert (valid (NdArray [F; OH; OW] (data e4))) as He3v.
  { unfold valid. cbn [shape data]. rewrite He4v, He4s, Hin. simpl. lia. }
  rewrite (pool_backward_tab (MaxPoolingLayer.Build p (Some y2)) y2
             (NdArray [F; OH; OW] (data e4)) F OH OW Hp eq_refl Hy2v eq_refl
             He3v lr eq_refl).
  cbn [lift mbind option_bind MaxPoolingLayer.filter_size].
  edestruct (relu_backward_Some (ReLULayer.Build (Some y1)) y1) as
    (e1 & -> & He1s & He1v); [done|..].
  { done. }
  { done. }
  { unfold valid. cbn [shape data]. by rewrite length_tab, numel3. }
  cbn [lift mbind option_bind]. cbn [shape] in He1s.
  edestruct (conv_backward_tab
    (ConvolutionLayer.Build F k (ConvolutionLayer.conv_filter conv)
       (ConvolutionLayer.bias conv) (Some x0)) x0 e1 H W)
    as (conv' & -> & _); [exact Hconv|done|done|by apply valid_smap
                          |done|done| |done|done|].
  { cbn [ConvolutionLayer.num_filters ConvolutionLayer.filter_size].
    fold k F. by rewrite He1s, HOH, HOW. }
  cbn [lift mbind option_bind]. eauto.
Qed.
End train_cnn.

(** ** The fully-connected layer *)

Lemma T_tab a n m :
  shape a = [n; m] ->
  np.T a
  = Some (NdArray [m; n] (tab2 m n (fun j i => nth (i * m + j) (data a) 0%R))).
Proof. intros Hs. unfold np.T. by rewrite Hs. Qed.

Lemma dot_tab a b n p m :
  shape a = [n; p] -> shape b = [p; m] ->
  np.dot a b
  = Some (NdArray [n; m]
            (tab2 n m (fun i j => bigsum p (fun l =>
               (nth (i * p + l) (data a) 0 * nth (l * m + j) (data b) 0)%R)))).
Proof.
  intros Ha Hb. unfold np.dot. rewrite Ha, Hb.
  by rewrite option_guard_True by done.
Qed.

Lemma get_tab2 h w g i j :
  i < h -> j < w -> get (NdArray [h; w] (tab2 h w g)) [i; j] = Some (g i j).
Proof.
  intros Hi Hj.
  rewrite (get_lookup _ [h; w] _ (i * w + j)) by (done || by apply offset2).
  cbn [data]. rewrite lookup_nth_lt by (rewrite length_tab2; by apply ravel2_lt).
  by rewrite nth_tab2.
Qed.

Lemma fmap_tab2 (f : R -> R) h w g :
  f <$> tab2 h w g = tab2 h w (fun i j => f (g i j)).
Proof.
  induction h as [|h IH]; [done|].
  by rewrite !tab2_S, fmap_app, IH, fmap_tab.
Qed.

Lemma valid_tab2 h w g : valid (NdArray [h; w] (tab2 h w g)).
Proof. unfold valid. cbn [shape data]. rewrite length_tab2. simpl. lia. Qed.

Lemma data_tab2 a h w :
  shape a = [h; w] -> valid a ->
  data a = tab2 h w (fun i j => cell a [i; j]).
Proof.
  intros Hs Hv. unfold valid in Hv. rewrite Hs in Hv. simpl in Hv.
  rewrite (tab2_nth (data a) h w) at 1 by lia.
  apply tab2_ext. intros i j Hi Hj. by rewrite (cell2 a h w).
Qed.

Section fc.
Import FCLayer.
Context (self : FCLayer.t) (x : ndarray).
Let n := input_size self.
Let m := output_size self.
Context (Hwf : fc_wf self) (Hxs : shape x = [n; 1]) (Hxv : valid x).

Lemma fc_forward_tab :
  let y := NdArray [m; 1]
             (tab2 m 1 (fun o _ =>
                (bigsum n (fun i => cell (conv_filter self) [i; o]
                                    * cell x [i; 0]%nat)
                 + cell (bias self) [o; 0]%nat)%R)) in
  forward self x
  = Some (Build n m (conv_filter self) (bias self) (Some x) (Some y), y).
Proof using Hwf Hxs Hxv.
  destruct Hwf as (HWs & HWv & HBs & HBv). fold n m in HWs, HBs.
  intros y. unfold forward. rewrite (T_tab _ n m) by done.
  cbn [mbind option_bind]. rewrite (dot_tab _ x m n 1) by done.
  cbn [mbind option_bind]. rewrite map2_Some by (by rewrite HBs).
  cbn [mbind option_bind shape data]. fold m.
  rewrite option_guard_True by done. cbn [mbind option_bind].
  rewrite (data_tab2 (bias self) m 1) by done. rewrite zip_with_tab2.
  assert (tab2 m 1 (fun i j =>
            (bigsum n (fun l =>
               nth (i * n + l)
                 (tab2 m n (fun j0 i0 => nth (i0 * m + j0) (data (conv_filter self)) 0))
                 0 * nth (l * 1 + j) (data x) 0)
             + cell (bias self) [i; j])%R)
          = data y) as ->; [|done].
  subst y. cbn [data]. apply tab2_ext. intros o j Ho Hj.
  assert (j = 0) as -> by lia. f_equal.
  apply bigsum_ext. intros i Hi.
  rewrite nth_tab2 by done.
  by rewrite (cell2 (conv_filter self) n m), (cell2 x n 1) by (done || lia).
Qed.

Context (g : ndarray) (lr : R).
Context (Hin : input self = Some x) (Hgs : shape g = [m; 1]) (Hgv : valid g).

Lemma fc_backward_tab :
  backward self g lr
  = Some (Build n m
            (NdArray [n; m]
               (tab2 n m (fun i o =>
                  (cell (conv_filter self) [i; o]
                   - lr * (cell x [i; 0]%nat * cell g [o; 0]%nat))%R)))
            (NdArray [m; 1]
               (tab2 m 1 (fun o _ =>
                  (cell (bias self) [o; 0]%nat - lr * cell g [o; 0]%nat)%R)))
            (Some x) (output self),
          NdArray [n; 1]
            (tab2 n 1 (fun i _ =>
               bigsum m (fun o => (cell (conv_filter self) [i; o]
                                   * cell g [o; 0]%nat)%R)))).
Proof using Hwf Hxs Hxv Hin Hgs Hgv.
  destruct Hwf as (HWs & HWv & HBs & HBv). fold n m in HWs, HBs.
  unfold backward. rewrite (dot_tab _ g n m 1) by done.
  cbn [mbind option_bind]. rewrite Hin. cbn [mbind option_bind].
  rewrite (T_tab g m 1) by done. cbn [mbind option_bind].
  rewrite (dot_tab x _ n 1 m) by done. cbn [mbind option_bind].
  rewrite !map2_Some by (cbn [smap shape]; congruence).
  cbn [mbind option_bind shape data smap].
  rewrite option_guard_True by congruence. cbn [mbind option_bind].
  rewrite HWs, HBs. fold n m. do 2 f_equal; [f_equal|].
  - f_equal. rewrite (data_tab2 (conv_filter self) n m) at 1 by done.
    rewrite fmap_tab2, zip_with_tab2. apply tab2_ext. intros i o Hi Ho.
    f_equal. f_equal. rewrite bigsum_S. unfold bigsum at 1, Rsum. cbn [seq fmap list_fmap foldr].
    rewrite (nth_tab2 1 m _ 0 o) by lia.
    rewrite (cell2 x n 1), (cell2 g m 1) by (done || lia). lra.
  - f_equal. rewrite (data_tab2 (bias self) m 1) at 1 by done.
    rewrite (data_tab2 g m 1) at 1 by done.
    rewrite fmap_tab2, zip_with_tab2. apply tab2_ext. intros o j Ho Hj.
    by assert (j = 0) as -> by lia.
  - f_equal. apply tab2_ext. intros i j Hi Hj. assert (j = 0) as -> by lia.
    apply bigsum_ext. intros o Ho.
    by rewrite (cell2 (conv_filter self) n m), (cell2 g m 1) by (done || lia).
Qed.
End fc.

Lemma cell_tab2 h w g i j :
  i < h -> j < w -> cell (NdArray [h; w] (tab2 h w g)) [i; j] = g i j.
Proof. intros Hi Hj. unfold cell. by rewrite get_tab2. Qed.

Lemma bigsum_minus n F G :
  bigsum n (fun i => F i - G i)%R = (bigsum n F - bigsum n G)%R.
Proof.
  induction n as [|n IH]; [unfold bigsum; simpl; lra|].
  rewrite !bigsum_S, IH. lra.
Qed.

Lemma inner_tab2 h w g1 g2 :
  inner (NdArray [h; w] (tab2 h w g1)) (NdArray [h; w] (tab2 h w g2))
  = bigsum h (fun i => bigsum w (fun j => (g1 i j * g2 i j)%R)).
Proof. unfold inner. cbn [data]. by rewrite zip_with_tab2, Rsum_tab2. Qed.

Lemma fc_wf_zero_bias (self : FCLayer.t) :
  fc_wf self ->
  fc_wf (FCLayer.Build (FCLayer.input_size self) (FCLayer.output_size self)
           (FCLayer.conv_filter self) (np.zeros [FCLayer.output_size self; 1])
           None None).
Proof.
  intros (HWs & HWv & _). split; [done|]. split; [done|]. split; [done|].
  unfold valid, np.zeros. cbn [shape data FCLayer.bias].
  by rewrite length_replicate.
Qed.

Lemma cell_zeros2 h w i j : cell (np.zeros [h; w]) [i; j] = 0%R.
Proof.
  unfold cell, get, np.zeros. cbn [shape data offset].
  repeat case_decide; try done. cbn [mbind option_bind].
  destruct (replicate _ _ !! _) as [v|] eqn:E; [|done].
  by apply lookup_replicate in E as [-> _].
Qed.

(** X1.  Forward pass of the fully-connected layer on a column vector [x] of
    [input_size] entries: it returns the column vector of [output_size]
    entries whose entry [o] is the sum over [i] of [conv_filter[i, o] * x[i]]
    plus [bias[o]], caches [x] and the result, and leaves the parameters as
    they are. *)
Theorem fc_forward_spec (self : FCLayer.t) (x : ndarray) :
  let n := FCLayer.input_size self in
  let m := FCLayer.output_size self in
  fc_wf self -> shape x = [n; 1] -> valid x ->
  exists self' y,
    FCLayer.forward self x = Some (self', y)
    /\ shape y = [m; 1]
    /\ valid y
    /\ FCLayer.conv_filter self' = FCLayer.conv_filter self
    /\ FCLayer.bias self' = FCLayer.bias self
    /\ FCLayer.input self' = Some x
    /\ FCLayer.output self' = Some y
    /\ forall o, o < m ->
         get y [o; 0]
         = Some (bigsum n (fun i => cell (FCLayer.conv_filter self) [i; o]
                                    * cell x [i; 0]%nat)
                 + cell (FCLayer.bias self) [o; 0]%nat)%R.
Proof.
  intros n m Hwf Hxs Hxv. eexists _, _.
  split; [by apply fc_forward_tab|].
  split; [done|]. split; [apply valid_tab2|]. do 4 (split; [done|]).
  intros o Ho. by rewrite get_tab2 by lia.
Qed.

(** X2.  Backward pass of the fully-connected layer, with [x] the cached input
    and [g] a column vector of [output_size] entries: the returned gradient is
    the column vector whose entry [i] is the sum over [o] of [conv_filter[i,
    o] * g[o]], taken with the weights as they were on entry; afterwards
    [conv_filter[i, o]] has gone down by [learning_rate * x[i] * g[o]] and
    [bias[o]] by [learning_rate * g[o]], and the parameters have the shapes
    they had. *)
Theorem fc_backward_spec (self : FCLayer.t) (x g : ndarray) (lr : R) :
  let n := FCLayer.input_size self in
  let m := FCLayer.output_size self in
  fc_wf self -> FCLayer.input self = Some x ->
  shape x = [n; 1] -> valid x -> shape g = [m; 1] -> valid g ->
  exists self' input_error,
    FCLayer.backward self g lr = Some (self', input_error)
    /\ shape input_error = [n; 1]
    /\ valid input_error
    /\ (forall i, i < n ->
          get input_error [i; 0]
          = Some (bigsum m (fun o =>
                    (cell (FCLayer.conv_filter self) [i; o]
                     * cell g [o; 0]%nat)%R)))
    /\ fc_wf self'
    /\ FCLayer.input_size self' = n /\ FCLayer.output_size self' = m
    /\ FCLayer.input self' = Some x
    /\ (forall i o, i < n -> o < m ->
          get (FCLayer.conv_filter self') [i; o]
          = Some (cell (FCLayer.conv_filter self) [i; o]
                  - lr * (cell x [i; 0]%nat * cell g [o; 0]%nat))%R)
    /\ (forall o, o < m ->
          get (FCLayer.bias self') [o; 0]
          = Some (cell (FCLayer.bias self) [o; 0]%nat
                  - lr * cell g [o; 0]%nat)%R).
Proof.
  intros n m Hwf Hin Hxs Hxv Hgs Hgv. eexists _, _.
  split; [by apply (fc_backward_tab self x)|].
  split; [done|]. split; [apply valid_tab2|].
  split; [intros i Hi; by rewrite get_tab2 by lia|].
  split.
  { repeat split; cbn [FCLayer.conv_filter FCLayer.bias shape data];
      try done; apply valid_tab2. }
  do 3 (split; [done|]). cbn [FCLayer.conv_filter FCLayer.bias].
  split; [intros i o Hi Ho; by rewrite get_tab2|].
  intros o Ho. by rewrite get_tab2 by lia.
Qed.

(** X3.  The gradient [backward] of the fully-connected layer returns is the
    transpose of its forward map: for every column vector [x'] the inner
    product of the bias-free forward output on [x'] with [g] is the inner
    product of [x'] with the returned gradient. *)
Theorem fc_backward_adjoint (self : FCLayer.t) (x x' g : ndarray) (lr : R) :
  let n := FCLayer.input_size self in
  let m := FCLayer.output_size self in
  fc_wf self -> FCLayer.input self = Some x ->
  shape x = [n; 1] -> valid x -> shape g = [m; 1] -> valid g ->
  shape x' = [n; 1] -> valid x' ->
  exists self' input_error self0 y,
    FCLayer.backward self g lr = Some (self', input_error)
    /\ FCLayer.forward
         (FCLayer.Build n m (FCLayer.conv_filter self) (np.zeros [m; 1])
            None None) x'
       = Some (self0, y)
    /\ inner y g = inner x' input_error.
Proof.
  intros n m Hwf Hin Hxs Hxv Hgs Hgv Hxs' Hxv'. eexists _, _, _, _.
  split; [by apply (fc_backward_tab self x)|].
  split; [by apply (fc_forward_tab _ x' (fc_wf_zero_bias self Hwf))|].
  cbn [FCLayer.input_size FCLayer.output_size FCLayer.conv_filter FCLayer.bias].
  fold n m.
  pose proof (data_tab2 g m 1 Hgs Hgv) as Hgd.
  pose proof (data_tab2 x' n 1 Hxs' Hxv') as Hxd.
  unfold inner in *. cbn [data]. rewrite Hgd, Hxd, !zip_with_tab2, !Rsum_tab2.
  transitivity (bigsum m (fun o => bigsum n (fun i =>
    (cell (FCLayer.conv_filter self) [i; o] * cell x' [i; 0]%nat
     * cell g [o; 0]%nat)%R))).
  { apply bigsum_ext. intros o Ho. rewrite bigsum_S.
    unfold bigsum at 1, Rsum. cbn [seq fmap list_fmap foldr].
    rewrite cell_zeros2, bigsum_scal_r. lra. }
  rewrite bigsum_exchange. apply bigsum_ext. intros i Hi. rewrite bigsum_S.
  unfold bigsum at 2, Rsum. cbn [seq fmap list_fmap foldr].
  rewrite <- bigsum_scal, Rplus_0_l.
  apply bigsum_ext. intros o Ho. lra.
Qed.

(** X4.  One gradient step moves the output of the fully-connected layer
    against the gradient: after [forward] on [x] and [backward] with [g], a
    second [forward] on the same [x] returns, entry by entry, the first output
    minus [learning_rate * (|x|^2 + 1) * g]. *)
Theorem fc_step_moves_output (self : FCLayer.t) (x g : ndarray) (lr : R) :
  let n := FCLayer.input_size self in
  let m := FCLayer.output_size self in
  fc_wf self -> shape x = [n; 1] -> valid x -> shape g = [m; 1] -> valid g ->
  exists self1 y self2 input_error self3 y',
    FCLayer.forward self x = Some (self1, y)
    /\ FCLayer.backward self1 g lr = Some (self2, input_error)
    /\ FCLayer.forward self2 x = Some (self3, y')
    /\ forall o, o < m ->
         get y' [o; 0]
         = Some (cell y [o; 0]%nat
                 - lr * (bigsum n (fun i => cell x [i; 0]%nat * cell x [i; 0]%nat)
                         + 1) * cell g [o; 0]%nat)%R.
Proof.
  intros n m Hwf Hxs Hxv Hgs Hgv. eexists _, _, _, _, _, _.
  split; [by apply fc_forward_tab|].
  assert (fc_wf (FCLayer.Build n m (FCLayer.conv_filter self)
                   (FCLayer.bias self) (Some x)
                   (Some (NdArray [m; 1]
                      (tab2 m 1 (fun o _ =>
                         (bigsum n (fun i =>
                            cell (FCLayer.conv_filter self) [i; o]
                            * cell x [i; 0]%nat)
                          + cell (FCLayer.bias self) [o; 0]%nat)%R)))))) as Hwf1
    by exact Hwf.
  split; [by apply (fc_backward_tab _ x Hwf1)|].
  cbn [FCLayer.input_size FCLayer.output_size FCLayer.conv_filter FCLayer.bias
       FCLayer.output].
  split.
  { apply fc_forward_tab; [|done..].
    repeat split; cbn [FCLayer.conv_filter FCLayer.bias shape data];
      try done; apply valid_tab2. }
  intros o Ho.
  cbn [FCLayer.input_size FCLayer.output_size FCLayer.conv_filter FCLayer.bias].
  rewrite get_tab2 by lia. f_equal. rewrite !cell_tab2 by lia.
  rewrite (bigsum_ext n _ (fun i =>
    (cell (FCLayer.conv_filter self) [i; o] * cell x [i; 0]%nat
     - lr * cell g [o; 0]%nat * (cell x [i; 0]%nat * cell x [i; 0]%nat))%R)).
  2:{ intros i Hi. rewrite cell_tab2 by done. lra. }
  rewrite bigsum_minus, bigsum_scal. fold n. lra.
Qed.

(** ** The softmax layer, backward *)

Lemma softmax_forward_map (self : SoftmaxLayer.t) (x : ndarray) (n : nat) :
  0 < n -> shape x = [n; 1] -> valid x ->
  exists M S,
    (0 < S)%R
    /\ S = Rsum ((fun u => Rtrigo_def.exp (u - M)) <$> data x)
    /\ let y := NdArray [n; 1]
                  ((fun v => Rtrigo_def.exp (v - M) / S)%R <$> data x) in
       SoftmaxLayer.forward self x = Some (SoftmaxLayer.Build (Some y), y).
Proof.
  intros Hn Hs Hv. unfold valid in Hv. rewrite Hs in Hv. simpl in Hv.
  rewrite Nat.mul_1_r in Hv.
  destruct n as [|n]; [lia|]. destruct (data x) as [|x0 tl] eqn:Hd; [done|].
  injection Hv as Hl.
  exists (foldl Rmax x0 tl),
    (Rsum ((fun u => Rtrigo_def.exp (u - foldl Rmax x0 tl)) <$> x0 :: tl)).
  split.
  { rewrite (list_fmap_compose (fun u => u - foldl Rmax x0 tl)%R Rtrigo_def.exp).
    by apply Rsum_exp_pos. }
  split; [done|].
  rewrite (softmax_forward_col self x n x0 tl) by done. rewrite Hd.
  by rewrite <- !list_fmap_compose.
Qed.

Lemma Rsum_ge_elem (l : list R) e :
  Forall (fun v => 0 <= v)%R l -> In e l -> (e <= Rsum l)%R.
Proof.
  unfold Rsum. induction 1 as [|v l Hv Hl IH]; intros Hin; [done|].
  cbn [foldr].
  assert (0 <= foldr Rplus 0 l)%R as Hpos.
  { clear -Hl. induction Hl as [|u l Hu _ IH]; simpl; lra. }
  destruct Hin as [->|Hin]; [lra|]. specialize (IH Hin). lra.
Qed.

Lemma softmax_backward_tab (self : SoftmaxLayer.t) (y g : ndarray) (n : nat)
    (lr : R) :
  SoftmaxLayer.output self = Some y ->
  shape y = [n; 1] -> valid y -> shape g = [n; 1] -> valid g ->
  SoftmaxLayer.backward self g lr
  = Some (self,
          NdArray [n; 1]
            (tab2 n 1 (fun i _ =>
               (cell y [i; 0]%nat * cell g [i; 0]%nat
                - bigsum n (fun l => cell y [l; 0]%nat * cell g [l; 0]%nat)
                  * cell y [i; 0]%nat)%R))).
Proof.
  intros Hout Hys Hyv Hgs Hgv. unfold SoftmaxLayer.backward. rewrite Hout.
  cbn [mbind option_bind]. rewrite map2_Some by congruence.
  cbn [mbind option_bind]. rewrite (T_tab y n 1) by done.
  cbn [mbind option_bind]. rewrite (dot_tab _ g 1 n 1) by done.
  cbn [mbind option_bind shape]. rewrite option_guard_True by done.
  cbn [mbind option_bind]. rewrite get_tab2 by lia.
  cbn [mbind option_bind]. rewrite map2_Some by done.
  cbn [mbind option_bind shape data smap]. rewrite Hys. do 3 f_equal.
  rewrite (data_tab2 y n 1) by done. rewrite (data_tab2 g n 1) by done.
  rewrite fmap_tab2, !zip_with_tab2. apply tab2_ext. intros i j Hi Hj.
  assert (j = 0) as -> by lia. f_equal. f_equal.
  apply bigsum_ext. intros l Hl.
  rewrite (nth_tab2 1 n _ 0 l), (nth_tab2 n 1 _ l 0), (nth_tab2 n 1 _ l 0)
    by lia.
  done.
Qed.

Lemma np_sum_tab2 h w g :
  np.sum (NdArray [h; w] (tab2 h w g)) = bigsum h (fun i => bigsum w (g i)).
Proof. unfold np.sum. cbn [data]. apply Rsum_tab2. Qed.

Lemma bigsum_1 F : bigsum 1 F = F 0.
Proof. unfold bigsum, Rsum. simpl. lra. Qed.

Lemma cell_fmap_col (f : R -> R) x n i :
  shape x = [n; 1] -> valid x -> i < n ->
  cell (NdArray [n; 1] (f <$> data x)) [i; 0] = f (cell x [i; 0]).
Proof.
  intros Hs Hv Hi. rewrite (data_tab2 x n 1) by done.
  rewrite fmap_tab2, cell_tab2 by lia. done.
Qed.

(** X5.  Backward pass of the softmax layer, with [y] the cached output and
    [g] a column vector of the same length: the returned gradient has entry
    [i] equal to [y[i] * g[i] - (sum over l of y[l] * g[l]) * y[i]]; the layer
    holds no parameter and stays as it is. *)
Theorem softmax_backward_spec (self : SoftmaxLayer.t) (y g : ndarray)
    (n : nat) (lr : R) :
  SoftmaxLayer.output self = Some y ->
  shape y = [n; 1] -> valid y -> shape g = [n; 1] -> valid g ->
  exists input_error,
    SoftmaxLayer.backward self g lr = Some (self, input_error)
    /\ shape input_error = [n; 1]
    /\ valid input_error
    /\ forall i, i < n ->
         get input_error [i; 0]
         = Some (cell y [i; 0]%nat * cell g [i; 0]%nat
                 - bigsum n (fun l => cell y [l; 0]%nat * cell g [l; 0]%nat)
                   * cell y [i; 0]%nat)%R.
Proof.
  intros Hout Hys Hyv Hgs Hgv. eexists.
  split; [by apply (softmax_backward_tab self y g n)|].
  split; [done|]. split; [apply valid_tab2|].
  intros i Hi. by rewrite get_tab2 by lia.
Qed.

(** X6.  After a forward pass of the softmax layer on a column vector, the
    gradient [backward] returns sums to zero, whatever the output gradient:
    the softmax output does not move when a constant is added to the input,
    and the gradient says so. *)
Theorem softmax_backward_sum_zero (self : SoftmaxLayer.t) (x g : ndarray)
    (n : nat) (lr : R) :
  0 < n -> shape x = [n; 1] -> valid x -> shape g = [n; 1] -> valid g ->
  exists self' y input_error,
    SoftmaxLayer.forward self x = Some (self', y)
    /\ SoftmaxLayer.backward self' g lr = Some (self', input_error)
    /\ np.sum input_error = 0%R.
Proof.
  intros Hn Hxs Hxv Hgs Hgv.
  destruct (softmax_forward_map self x n Hn Hxs Hxv) as (M & S & HS & HSd & Hf).
  cbv zeta in Hf.
  set (y := NdArray [n; 1]
              ((fun v => Rtrigo_def.exp (v - M) / S)%R <$> data x)) in *.
  assert (valid y) as Hyv.
  { unfold valid in *. cbn [shape data y]. rewrite length_fmap.
    by rewrite Hxv, Hxs. }
  assert (np.sum y = 1%R) as Hsum.
  { unfold np.sum. cbn [data y]. change (foldr Rplus 0%R) with Rsum.
    rewrite (list_fmap_compose (fun u => Rtrigo_def.exp (u - M))
               (fun e => e / S)%R), Rsum_div, <- HSd.
    field. lra. }
  exists (SoftmaxLayer.Build (Some y)), y. eexists.
  split; [exact Hf|].
  split; [by apply (softmax_backward_tab _ y g n)|].
  rewrite np_sum_tab2.
  rewrite (bigsum_ext n _ (fun i =>
    (cell y [i; 0]%nat * cell g [i; 0]%nat
     - bigsum n (fun l => cell y [l; 0]%nat * cell g [l; 0]%nat)
       * cell y [i; 0]%nat)%R)) by (intros; apply bigsum_1).
  rewrite bigsum_minus, bigsum_scal.
  assert (bigsum n (fun i => cell y [i; 0]%nat) = 1%R) as ->; [|lra].
  rewrite <- Hsum. unfold np.sum. change (foldr Rplus 0%R) with Rsum.
  rewrite (data_tab2 y n 1 eq_refl Hyv), Rsum_tab2. apply bigsum_ext. intros i Hi. by rewrite bigsum_1.
Qed.

Lemma argmax_from_mono (f : R -> R) (l : list R) best besti i :
  (forall a b, (a < b)%R <-> (f a < f b)%R) ->
  argmax_from (f best) besti i (f <$> l) = argmax_from best besti i l.
Proof.
  intros Hf. revert best besti i.
  induction l as [|v l IH]; intros best besti i; [done|].
  rewrite fmap_cons. cbn [argmax_from].
  destruct (Rlt_dec best v) as [Hlt|Hge], (Rlt_dec (f best) (f v)) as [Hlt'|Hge'].
  - apply IH.
  - by apply Hf in Hlt.
  - by apply Hf in Hlt'.
  - apply IH.
Qed.

(** X7.  The softmax layer does not change the predicted class: on a column
    vector the first maximal entry of its output is at the index of the first
    maximal entry of its input. *)
Theorem softmax_forward_argmax (self : SoftmaxLayer.t) (x : ndarray) (n : nat) :
  0 < n -> shape x = [n; 1] -> valid x ->
  exists self' y am,
    SoftmaxLayer.forward self x = Some (self', y)
    /\ np.argmax x = Some am
    /\ np.argmax y = Some am.
Proof.
  intros Hn Hxs Hxv.
  destruct (softmax_forward_map self x n Hn Hxs Hxv) as (M & S & HS & _ & Hf).
  cbv zeta in Hf.
  destruct (data x) as [|x0 tl] eqn:Hd.
  { unfold valid in Hxv. rewrite Hd, Hxs in Hxv. simpl in Hxv. lia. }
  eexists _, _, (argmax_from x0 0 1 tl). split; [exact Hf|].
  unfold np.argmax. cbn [data]. rewrite Hd, fmap_cons.
  split; [done|]. f_equal.
  apply (argmax_from_mono (fun v => Rtrigo_def.exp (v - M) / S)%R).
  intros a b. split; intros Hab.
  - apply Rmult_lt_compat_r; [by apply Rinv_0_lt_compat|].
    apply exp_increasing. lra.
  - apply Rmult_lt_reg_r in Hab; [|by apply Rinv_0_lt_compat].
    apply exp_lt_inv in Hab. lra.
Qed.

(** ** Parameter update of the convolution layer *)

Lemma tab3_app a1 a2 b c g :
  tab3 (a1 + a2) b c g = tab3 a1 b c g ++ tab3 a2 b c (fun f => g (a1 + f)).
Proof.
  unfold tab3. rewrite seq_app, flat_map_app. f_equal.
  by rewrite (flat_map_seq_shift _ (0 + a1)).
Qed.

Lemma tab3_ext a b c g g' :
  (forall f i j, f < a -> i < b -> j < c -> g f i j = g' f i j) ->
  tab3 a b c g = tab3 a b c g'.
Proof.
  intros H. unfold tab3. apply flat_map_seq_ext. intros f Hf.
  apply tab2_ext. auto.
Qed.

Lemma tab3_split a b c g f :
  f < a ->
  tab3 a b c g
  = tab3 f b c g ++ tab2 b c (g f)
    ++ tab3 (a - f - 1) b c (fun f' => g (f + 1 + f')).
Proof.
  intros Hf. replace a with (f + 1 + (a - f - 1)) at 1 by lia.
  rewrite !tab3_app, <- app_assoc. do 2 f_equal.
  unfold tab3 at 1. simpl. by rewrite app_nil_r, Nat.add_0_r.
Qed.

Lemma setitem_tab3 F b c g f B :
  f < F ->
  setitem (NdArray [F; b; c] (tab3 F b c g)) f (NdArray [b; c] (tab2 b c B))
  = Some (NdArray [F; b; c]
            (tab3 F b c (fun f' i j =>
               if decide (f' = f) then B i j else g f' i j))).
Proof.
  intros Hf. unfold setitem. cbn [shape data].
  rewrite !option_guard_True by done. cbn [mbind option_bind]. do 2 f_equal.
  change (numel [b; c]) with (b * (c * 1)). rewrite Nat.mul_1_r.
  rewrite (tab3_split F b c g f) by done.
  rewrite (tab3_split F b c (fun f' i j =>
             if decide (f' = f) then B i j else g f' i j) f) by done.
  rewrite take_app_length' by (rewrite length_tab3; lia).
  rewrite (take_ge (tab2 b c B)) by (rewrite length_tab2; lia).
  rewrite (app_assoc (tab3 f b c g) (tab2 b c (g f))), drop_app_length'
    by (rewrite length_app, length_tab3, length_tab2; lia).
  f_equal; [|f_equal].
  - apply tab3_ext. intros f' i j Hf' _ _. cbv beta.
    by rewrite decide_False by lia.
  - apply tab2_ext. intros i j _ _. by rewrite decide_True.
  - apply tab3_ext. intros f' i j Hf' _ _. cbv beta.
    by rewrite decide_False by lia.
Qed.

Lemma valid_tab3 a b c g : valid (NdArray [a; b; c] (tab3 a b c g)).
Proof. unfold valid. cbn [shape data]. by rewrite length_tab3, numel3. Qed.

Lemma data_tab3 x a b c :
  shape x = [a; b; c] -> valid x ->
  data x = tab3 a b c (fun f i j => cell x [f; i; j]).
Proof.
  intros Hs Hv. unfold valid in Hv. rewrite Hs, numel3 in Hv.
  rewrite (tab3_nth (data x) a b c) at 1 by done.
  apply tab3_ext. intros f i j Hf Hi Hj. by rewrite (cell3 x a b c).
Qed.

Lemma data_tab x n :
  shape x = [n] -> valid x -> data x = tab n (fun f => cell x [f]).
Proof.
  intros Hs Hv. unfold valid in Hv. rewrite Hs in Hv. simpl in Hv.
  rewrite (tab_nth (data x)) at 1. rewrite Hv, Nat.mul_1_r.
  apply tab_ext. intros f Hf. by rewrite (cell1 x n).
Qed.

Lemma fmap_tab3 (f : R -> R) a b c g :
  f <$> tab3 a b c g = tab3 a b c (fun u i j => f (g u i j)).
Proof.
  induction a as [|a IH]; [done|].
  by rewrite !tab3_S, fmap_app, IH, fmap_tab2.
Qed.

Lemma get_tab n g i : i < n -> get (NdArray [n] (tab n g)) [i] = Some (g i).
Proof.
  intros Hi. rewrite (get_lookup _ [n] _ i) by (done || by apply offset1).
  cbn [data]. by rewrite lookup_tab.
Qed.

Lemma cell_tab n g i : i < n -> cell (NdArray [n] (tab n g)) [i] = g i.
Proof. intros Hi. unfold cell. by rewrite get_tab. Qed.

Lemma cell_tab3 a b c g f i j :
  f < a -> i < b -> j < c ->
  cell (NdArray [a; b; c] (tab3 a b c g)) [f; i; j] = g f i j.
Proof. intros. unfold cell. by rewrite get_tab3. Qed.

Lemma for_range_eq {St} (Q : nat -> St) n (body : nat -> St -> option St) :
  (forall i, i < n -> body i (Q i) = Some (Q (S i))) ->
  for_range n body (Q 0) = Some (Q n).
Proof.
  intros Hstep.
  destruct (for_range_inv (fun i s => s = Q i) n body (Q 0)) as (s & -> & ->);
    [done| |done].
  intros i s Hi ->. eauto.
Qed.

Section conv_backward_params.
Import ConvolutionLayer.
Context (self : ConvolutionLayer.t) (X g : ndarray) (H W : nat).
Let k := filter_size self.
Let F := num_filters self.
Context (Hwf : conv_wf self) (Hk : 0 < k).
Context (Hs : shape X = [H; W]) (Hv : valid X) (HkH : k <= H) (HkW : k <= W).
Context (Hgs : shape g = [F; H - k + 1; W - k + 1]) (Hgv : valid g).

Lemma conv_backward_filter_step f i j FE BE :
  f < F -> i < H - k + 1 -> j < W - k + 1 ->
  (patch ← slice2 X i (i + k) j (j + k);
   g0 ← get g [f; i; j];
   fe_f ← getitem (NdArray [F; k; k] (tab3 F k k FE)) f;
   fe_f ← map2 Rplus fe_f (smap (fun x => x * g0)%R patch);
   filter_error ← setitem (NdArray [F; k; k] (tab3 F k k FE)) f fe_f;
   old ← get (NdArray [F] (tab F BE)) [f];
   bias_error ← set (NdArray [F] (tab F BE)) [f] (old + g0)%R;
   Some (filter_error, bias_error))
  = Some (NdArray [F; k; k]
            (tab3 F k k (fun f' a b =>
               if decide (f' = f)
               then (FE f a b + cell X [i + a; j + b]%nat * cell g [f; i; j])%R
               else FE f' a b)),
          NdArray [F]
            (tab F (fun f' =>
               if decide (f' = f) then (BE f + cell g [f; i; j])%R
               else BE f'))).
Proof using Hk Hs Hv HkH HkW Hgs Hgv.
  intros Hf Hi Hj.
  rewrite (slice2_tab X H W) by (done || lia). cbn [mbind option_bind].
  erewrite (get_cell g); [|done|by apply offset3|].
  2:{ unfold valid in Hgv. rewrite Hgv, Hgs, numel3. by apply ravel3_lt. }
  cbn [mbind option_bind].
  rewrite (getitem_tab2 _ F k k) by (done || apply valid_tab3).
  cbn [mbind option_bind data]. rewrite map2_Some by done.
  cbn [mbind option_bind shape data smap].
  rewrite fmap_tab2, zip_with_tab2, setitem_tab3 by done.
  cbn [mbind option_bind]. rewrite get_tab by done. cbn [mbind option_bind].
  erewrite set_Some; [|done|by apply offset1|cbn [data]; by rewrite length_tab].
  cbn [mbind option_bind data]. rewrite insert_tab by done.
  do 3 f_equal. apply tab3_ext. intros f' a b Hf' Ha Hb.
  destruct (decide (f' = f)) as [->|]; [|done].
  rewrite nth_tab3 by done. by rewrite (cell2 X H W) by (done || lia).
Qed.

Lemma conv_backward_filter_loop f FE BE :
  f < F ->
  for_range (H - k + 1) (fun i acc =>
    for_range (W - k + 1) (fun j '(filter_error, bias_error) =>
      patch ← slice2 X i (i + k) j (j + k);
      g0 ← get g [f; i; j];
      fe_f ← getitem filter_error f;
      fe_f ← map2 Rplus fe_f (smap (fun x => x * g0)%R patch);
      filter_error ← setitem filter_error f fe_f;
      old ← get bias_error [f];
      bias_error ← set bias_error [f] (old + g0)%R;
      Some (filter_error, bias_error)) acc)
    (NdArray [F; k; k] (tab3 F k k FE), NdArray [F] (tab F BE))
  = Some (NdArray [F; k; k]
            (tab3 F k k (fun f' a b =>
               if decide (f' = f)
               then (FE f a b
                     + conv_filter_grad X g (H - k + 1) (W - k + 1) f a b)%R
               else FE f' a b)),
          NdArray [F]
            (tab F (fun f' =>
               if decide (f' = f)
               then (BE f + conv_bias_grad g (H - k + 1) (W - k + 1) f)%R
               else BE f'))).
Proof using Hk Hs Hv HkH HkW Hgs Hgv.
  intros Hf.
  set (Q := fun (n : nat) (rest : nat -> nat -> nat -> R) (restb : nat -> R) =>
    (NdArray [F; k; k]
       (tab3 F k k (fun f' a b =>
          if decide (f' = f)
          then (FE f a b
                + bigsum n (fun i => bigsum (W - k + 1) (fun j =>
                    cell X [i + a; j + b]%nat * cell g [f; i; j]))
                + rest f' a b)%R
          else FE f' a b)),
     NdArray [F]
       (tab F (fun f' =>
          if decide (f' = f)
          then (BE f + bigsum n (fun i => bigsum (W - k + 1) (fun j =>
                         cell g [f; i; j])) + restb f')%R
          else BE f')))).
  assert (forall n r1 r2 r1' r2',
            (forall a b, a < k -> b < k -> r1 f a b = r1' f a b) ->
            r2 f = r2' f -> Q n r1 r2 = Q n r1' r2') as HQext.
  { intros n r1 r2 r1' r2' H1 H2. unfold Q. f_equal; f_equal.
    - apply tab3_ext. intros f' a b _ Ha Hb.
      destruct (decide (f' = f)) as [->|]; [|done]. by rewrite H1.
    - apply tab_ext. intros f' _. destruct (decide (f' = f)) as [->|]; [|done].
      by rewrite H2. }
  transitivity (Some (Q (H - k + 1) (fun _ _ _ => 0%R) (fun _ => 0%R))).
  2:{ f_equal. unfold Q, conv_filter_grad, conv_bias_grad. f_equal; f_equal.
      - apply tab3_ext. intros f' a b _ _ _.
        destruct (decide (f' = f)); [lra|done].
      - apply tab_ext. intros f' _. destruct (decide (f' = f)); [lra|done]. }
  assert ((NdArray [F; k; k] (tab3 F k k FE), NdArray [F] (tab F BE))
          = Q 0 (fun _ _ _ => 0%R) (fun _ => 0%R)) as ->.
  { unfold Q. f_equal; f_equal.
    - apply tab3_ext. intros f' a b _ _ _.
      destruct (decide (f' = f)) as [->|]; [|done].
      unfold bigsum, Rsum. simpl. lra.
    - apply tab_ext. intros f' _. destruct (decide (f' = f)) as [->|]; [|done].
      unfold bigsum, Rsum. simpl. lra. }
  apply (for_range_eq (fun n => Q n (fun _ _ _ => 0%R) (fun _ => 0%R))).
  intros i Hi.
  transitivity (Some (Q i
    (fun _ a b => bigsum (W - k + 1) (fun j =>
       cell X [i + a; j + b]%nat * cell g [f; i; j])%R)
    (fun _ => bigsum (W - k + 1) (fun j => cell g [f; i; j])))).
  2:{ f_equal. unfold Q. f_equal; f_equal.
      - apply tab3_ext. intros f' a b _ _ _.
        destruct (decide (f' = f)); [|done]. rewrite bigsum_S. lra.
      - apply tab_ext. intros f' _. destruct (decide (f' = f)); [|done].
        rewrite bigsum_S. lra. }
  assert (Q i (fun _ _ _ => 0%R) (fun _ => 0%R)
          = Q i (fun _ a b => bigsum 0 (fun j =>
                   cell X [i + a; j + b]%nat * cell g [f; i; j])%R)
                (fun _ => bigsum 0 (fun j => cell g [f; i; j]))) as ->.
  { by apply HQext. }
  apply (for_range_eq (fun m => Q i
    (fun _ a b => bigsum m (fun j =>
       cell X [i + a; j + b]%nat * cell g [f; i; j])%R)
    (fun _ => bigsum m (fun j => cell g [f; i; j])))).
  intros j Hj. unfold Q at 1. cbv beta iota.
  rewrite conv_backward_filter_step by done.
  unfold Q. f_equal. f_equal; f_equal.
  - apply tab3_ext. intros f' a b _ _ _.
    destruct (decide (f' = f)); [|done].
    rewrite decide_True by done. rewrite bigsum_S. lra.
  - apply tab_ext. intros f' _. destruct (decide (f' = f)); [|done].
    rewrite decide_True by done. rewrite bigsum_S. lra.
Qed.
End conv_backward_params.

Section conv_backward_full.
Import ConvolutionLayer.
Context (self : ConvolutionLayer.t) (X g : ndarray) (H W : nat).
Let k := filter_size self.
Let F := num_filters self.
Context (Hwf : conv_wf self) (Hk : 0 < k).
Context (Hs : shape X = [H; W]) (Hv : valid X) (HkH : k <= H) (HkW : k <= W).
Context (Hgs : shape g = [F; H - k + 1; W - k + 1]) (Hgv : valid g).

Lemma conv_backward_filter_full f ied FE BE :
  f < F -> length ied = H * W ->
  backward_filter self X g f
    (NdArray [H; W] ied, NdArray [F; k; k] (tab3 F k k FE),
     NdArray [F] (tab F BE))
  = Some (NdArray [H; W]
            (zip_with Rplus ied (tab2 H W (conv_in_grad self g f))),
          NdArray [F; k; k]
            (tab3 F k k (fun f' a b =>
               if decide (f' = f)
               then (FE f a b
                     + conv_filter_grad X g (H - k + 1) (W - k + 1) f a b)%R
               else FE f' a b)),
          NdArray [F]
            (tab F (fun f' =>
               if decide (f' = f)
               then (BE f + conv_bias_grad g (H - k + 1) (W - k + 1) f)%R
               else BE f'))).
Proof using Hwf Hk Hs Hv HkH HkW Hgs Hgv.
  intros Hf Hied.
  unfold backward_filter. rewrite Hgs, Hs. fold k.
  destruct (oe_f ← getitem g f; np.pad oe_f (k - 1)) as [padded|] eqn:Hpad.
  2:{ rewrite (getitem_tab2 _ F (H - k + 1) (W - k + 1)) in Hpad by done.
      simpl in Hpad. erewrite pad_tab in Hpad; [done|done|].
      unfold valid; simpl; rewrite length_tab2; lia. }
  destruct (getitem g f) as [oe_f|] eqn:Hoe; [|done]. simpl in Hpad.
  cbn [mbind option_bind]. rewrite option_guard_True by done.
  cbn [mbind option_bind]. rewrite Hpad. cbn [mbind option_bind].
  erewrite (writes_whole Rplus [H; W]).
  2:{ apply writes_fill2. intros i j Hi Hj.
      eapply writes_ext.
      - intros s. apply (conv_backward_cell self X g H W Hwf Hk Hs Hv HkH HkW
                           Hgs Hgv f i j padded s); try done.
        by rewrite Hoe.
      - apply writes_add. by apply offset2. }
  2:{ by rewrite length_tab2. }
  cbn [mbind option_bind].
  rewrite (conv_backward_filter_loop self X g H W Hk Hs Hv HkH HkW Hgs Hgv)
    by done.
  done.
Qed.

Lemma conv_backward_full lr :
  input self = Some X ->
  backward self g lr
  = Some (Build F k
            (NdArray [F; k; k]
               (tab3 F k k (fun f a b =>
                  (cell (conv_filter self) [f; a; b]
                   - lr * conv_filter_grad X g (H - k + 1) (W - k + 1) f a b)%R)))
            (NdArray [F]
               (tab F (fun f =>
                  (cell (bias self) [f]
                   - lr * conv_bias_grad g (H - k + 1) (W - k + 1) f)%R)))
            (Some X),
          NdArray [H; W]
            (tab2 H W (fun i j => bigsum F (fun f => conv_in_grad self g f i j)))).
Proof using Hwf Hk Hs Hv HkH HkW Hgs Hgv.
  intros Hin. unfold backward. rewrite Hin. cbn [mbind option_bind].
  destruct Hwf as (HKs & HKv & HBs & HBv).
  set (Q := fun n =>
    (NdArray [H; W]
       (tab2 H W (fun i j => bigsum n (fun f => conv_in_grad self g f i j))),
     NdArray [F; k; k]
       (tab3 F k k (fun f a b =>
          if decide (f < n)
          then conv_filter_grad X g (H - k + 1) (W - k + 1) f a b else 0%R)),
     NdArray [F]
       (tab F (fun f =>
          if decide (f < n)
          then conv_bias_grad g (H - k + 1) (W - k + 1) f else 0%R)))).
  assert ((np.zeros_like X, np.zeros_like (conv_filter self),
           np.zeros_like (bias self)) = Q 0) as ->.
  { unfold Q, np.zeros_like, np.zeros. rewrite Hs, HKs, HBs.
    f_equal; [f_equal|]; f_equal.
    - simpl. by rewrite Nat.mul_1_r, tab2_const0.
    - fold k F. rewrite numel3, (tab3_nth (replicate (F * k * k) 0%R) F k k)
        by (by rewrite length_replicate).
      apply tab3_ext. intros f a b Hf Ha Hb.
      rewrite decide_False by lia.
      rewrite nth_lookup, lookup_replicate_2 by (by apply ravel3_lt). done.
    - simpl. rewrite Nat.mul_1_r, tab_replicate. done. }
  fold F. rewrite (for_range_eq Q).
  2:{ intros f Hf. unfold Q at 1.
      rewrite conv_backward_filter_full by (done || by rewrite length_tab2).
      unfold Q. f_equal. f_equal; [f_equal|]; f_equal.
      - rewrite zip_with_tab2. apply tab2_ext. intros i j _ _.
        by rewrite bigsum_S.
      - apply tab3_ext. intros f' a b Hf' _ _. cbv beta.
        repeat case_decide; subst; try lia; try done; lra.
      - apply tab_ext. intros f' Hf'. cbv beta.
        repeat case_decide; subst; try lia; try done; lra. }
  unfold Q. cbn [mbind option_bind].
  rewrite !map2_Some by (cbn [smap shape]; first [exact HKs | exact HBs]).
  cbn [mbind option_bind shape data smap]. rewrite HKs, HBs. fold k F.
  do 3 f_equal.
  - f_equal. rewrite (data_tab3 (conv_filter self) F k k) at 1 by done.
    rewrite fmap_tab3, zip_with_tab3. apply tab3_ext. intros f a b Hf _ _.
    by rewrite decide_True by done.
  - f_equal. rewrite (data_tab (bias self) F) at 1 by done.
    rewrite fmap_tab, zip_with_tab. apply tab_ext. intros f Hf.
    by rewrite decide_True by done.
Qed.
End conv_backward_full.

(** X8.  Parameter update of the convolution layer: [backward] takes from
    [conv_filter[f, a, b]] the learning rate times the sum over the output
    cells [(i, j)] of [input[i + a, j + b] * g[f, i, j]], and from [bias[f]]
    the learning rate times the sum of [g[f]]; the sizes, the cached input and
    the shapes of the parameters stay as they were. *)
Theorem conv_backward_update (self : ConvolutionLayer.t) (X g : ndarray)
    (H W : nat) (lr : R) :
  let k := ConvolutionLayer.filter_size self in
  let F := ConvolutionLayer.num_filters self in
  conv_wf self -> 0 < k ->
  ConvolutionLayer.input self = Some X ->
  shape X = [H; W] -> valid X -> k <= H -> k <= W ->
  shape g = [F; H - k + 1; W - k + 1] -> valid g ->
  exists self' input_error,
    ConvolutionLayer.backward self g lr = Some (self', input_error)
    /\ conv_wf self'
    /\ ConvolutionLayer.num_filters self' = F
    /\ ConvolutionLayer.filter_size self' = k
    /\ ConvolutionLayer.input self' = Some X
    /\ (forall f a b, f < F -> a < k -> b < k ->
          get (ConvolutionLayer.conv_filter self') [f; a; b]
          = Some (cell (ConvolutionLayer.conv_filter self) [f; a; b]
                  - lr * bigsum (H - k + 1) (fun i =>
                           bigsum (W - k + 1) (fun j =>
                             cell X [i + a; j + b]%nat * cell g [f; i; j])))%R)
    /\ (forall f, f < F ->
          get (ConvolutionLayer.bias self') [f]
          = Some (cell (ConvolutionLayer.bias self) [f]
                  - lr * bigsum (H - k + 1) (fun i =>
                           bigsum (W - k + 1) (fun j => cell g [f; i; j])))%R).
Proof.
  intros k F Hwf Hk Hin Hs Hv HkH HkW Hgs Hgv. eexists _, _.
  split; [by apply (conv_backward_full self X g H W)|].
  split.
  { repeat split; cbn [ConvolutionLayer.conv_filter ConvolutionLayer.bias
                       ConvolutionLayer.num_filters ConvolutionLayer.filter_size
                       shape]; try done.
    - apply valid_tab3.
    - unfold valid. cbn [shape data]. rewrite length_tab. simpl. lia. }
  do 3 (split; [done|]).
  cbn [ConvolutionLayer.conv_filter ConvolutionLayer.bias].
  split; [intros f a b Hf Ha Hb; by rewrite get_tab3|].
  intros f Hf. by rewrite get_tab.
Qed.

(** ** The ReLU layer and the forward pass of max pooling *)

Lemma Rmax_0_idem v : Rmax (Rmax v 0) 0 = Rmax v 0.
Proof. unfold Rmax. repeat destruct (Rle_dec _ _); lra. Qed.

Lemma Rmax_0_pos v : (0 < Rmax v 0)%R <-> (0 < v)%R.
Proof. unfold Rmax. destruct (Rle_dec _ _); lra. Qed.

(** X11.  Forward pass of the ReLU layer: it accepts every array and returns
    an array of the same shape with every entry replaced by its maximum with
    0; no entry of the result is negative, and the layer applied to its own
    output returns it unchanged. *)
Theorem relu_forward_spec (self : ReLULayer.t) (x : ndarray) :
  exists y,
    ReLULayer.forward self x = Some (ReLULayer.Build (Some x), y)
    /\ shape y = shape x
    /\ (forall i v, data x !! i = Some v -> data y !! i = Some (Rmax v 0))
    /\ length (data y) = length (data x)
    /\ Forall (fun v => 0 <= v)%R (data y)
    /\ forall self', ReLULayer.forward self' y
                     = Some (ReLULayer.Build (Some y), y).
Proof.
  eexists. split; [reflexivity|]. split; [done|]. split.
  { intros i v Hi. cbn [np.maximum smap data].
    by rewrite list_lookup_fmap, Hi. }
  split; [cbn [np.maximum smap data]; by rewrite length_fmap|]. split.
  { cbn [np.maximum smap data]. apply Forall_fmap, Forall_forall.
    intros v _. cbn. apply Rmax_r. }
  intros self'. unfold ReLULayer.forward. do 2 f_equal.
  unfold np.maximum, smap. cbn [shape data]. f_equal.
  rewrite <- list_fmap_compose. apply list_fmap_ext. intros i v _. cbn.
  apply Rmax_0_idem.
Qed.

(** X12.  Backward pass of the ReLU layer after a forward pass on [x]: for an
    output gradient [g] of the shape of [x], the gradient that comes back has
    the entry of [g] wherever the forward output is positive and 0 wherever it
    is 0, so also where the input was exactly 0. *)
Theorem relu_backward_spec (self : ReLULayer.t) (x g : ndarray) (lr : R) :
  shape g = shape x -> valid x -> valid g ->
  exists self' y input_error,
    ReLULayer.forward self x = Some (self', y)
    /\ ReLULayer.backward self' g lr = Some (self', input_error)
    /\ shape input_error = shape g
    /\ valid input_error
    /\ forall i yi gi, data y !! i = Some yi -> data g !! i = Some gi ->
         data input_error !! i = Some (if Rlt_dec 0 yi then gi else 0%R).
Proof.
  intros Hs Hxv Hgv. eexists _, _, _. split; [reflexivity|].
  unfold ReLULayer.backward. cbn [ReLULayer.input mbind option_bind].
  rewrite map2_Some by done. cbn [mbind option_bind].
  split; [reflexivity|]. split; [done|]. split.
  { apply valid_zip_with; [done|]. by rewrite Hs. }
  intros i yi gi Hy Hg. cbn [data np.maximum smap] in Hy |- *.
  rewrite list_lookup_fmap in Hy.
  destruct (data x !! i) as [v|] eqn:Hx; [|done]. injection Hy as <-.
  rewrite lookup_zip_with, Hg. cbn [mbind option_bind]. rewrite Hx.
  cbn [mbind option_bind]. f_equal.
  pose proof (Rmax_0_pos v) as [H1 H2].
  destruct (Rlt_dec 0 v) as [Hv|Hv], (Rlt_dec 0 (Rmax v 0)) as [Hm|Hm];
    try lra; tauto.
Qed.

Lemma region_tab_gen (X : ndarray) (F H W k f i j : nat) :
  shape X = [F; H; W] -> valid X ->
  f < F -> (i + 1) * k <= H -> (j + 1) * k <= W ->
  MaxPoolingLayer.region X k f i j
  = Some (NdArray [k; k]
            (tab2 k k (fun r c => cell X [f; i * k + r; j * k + c]))).
Proof.
  intros Hs Hv Hf Hi Hj. unfold MaxPoolingLayer.region. rewrite Hs.
  rewrite (getitem_tab2 X F H W) by done.
  cbn [mbind option_bind].
  replace ((i + 1) * k) with (i * k + k) by lia.
  replace ((j + 1) * k) with (j * k + k) by lia.
  erewrite slice2_tab; [|done| |nia|nia].
  2:{ unfold valid. simpl. rewrite length_tab2. lia. }
  do 2 f_equal. cbn [data]. apply tab2_ext. intros r c Hr Hc.
  rewrite nth_tab2 by nia.
  rewrite (cell3 X F H W) by (done || nia). done.
Qed.

Lemma In_tab2 h w g v :
  In v (tab2 h w g) <-> exists i j, i < h /\ j < w /\ v = g i j.
Proof.
  unfold tab2, tab. rewrite in_flat_map. split.
  - intros (i & Hi & Hv). apply in_seq in Hi.
    apply list_elem_of_In, list_elem_of_fmap in Hv as (j & -> & Hj).
    apply elem_of_seq in Hj. exists i, j. repeat split; lia.
  - intros (i & j & Hi & Hj & ->). exists i. split; [apply in_seq; lia|].
    apply list_elem_of_In, list_elem_of_fmap. exists j. split; [done|].
    apply elem_of_seq. lia.
Qed.

Lemma np_max_tab2 k B :
  0 < k ->
  exists r c,
    r < k /\ c < k
    /\ np.max (NdArray [k; k] (tab2 k k B)) = Some (B r c)
    /\ forall r' c', r' < k -> c' < k -> (B r' c' <= B r c)%R.
Proof.
  intros Hk. unfold np.max. cbn [data].
  destruct (tab2 k k B) as [|x0 tl] eqn:Hd.
  { apply (f_equal length) in Hd. rewrite length_tab2 in Hd. simpl in Hd. nia. }
  destruct (foldl_Rmax_spec tl x0) as [Hin Hle]. rewrite <- Hd in Hin, Hle.
  apply In_tab2 in Hin as (r & c & Hr & Hc & HM).
  exists r, c. split; [done|]. split; [done|]. split; [by rewrite HM|].
  intros r' c' Hr' Hc'. rewrite <- HM. apply Hle, In_tab2. eauto.
Qed.

Section pool_forward_gen.
Import MaxPoolingLayer.
Context (self : MaxPoolingLayer.t) (X : ndarray) (F H W : nat).
Let k := filter_size self.
Context (Hk : 0 < k).
Context (Hs : shape X = [F; H; W]) (Hv : valid X).

Lemma pool_forward_tab :
  forward self X
  = Some (Build k (Some X),
          NdArray [F; H / k; W / k]
            (tab3 F (H / k) (W / k) (fun f i j =>
               default 0%R (r ← region X k f i j; np.max r)))).
Proof using Hk Hs Hv.
  unfold forward. rewrite Hs. cbn [filter_size]. fold k.
  rewrite option_guard_True by done. cbn [mbind option_bind].
  set (v := fun f i j => default 0%R (r ← region X k f i j; np.max r)).
  erewrite (writes_zeros (fun _ v => v) _ _ (tab3 F (H / k) (W / k) v)).
  - cbn [mbind option_bind]. do 3 f_equal.
    apply zip_with_snd. rewrite length_replicate, length_tab3. simpl. lia.
  - apply writes_fill3. intros f i j Hf Hi Hj.
    eapply writes_ext; [|apply (writes_set _ [f; i; j]); by apply offset3].
    intros s. cbv beta. unfold v.
    assert ((i + 1) * k <= H) as HiH.
    { pose proof (Nat.Div0.mul_div_le H k). nia. }
    assert ((j + 1) * k <= W) as HjW.
    { pose proof (Nat.Div0.mul_div_le W k). nia. }
    rewrite (region_tab_gen X F H W) by done. cbn [mbind option_bind].
    destruct (np_max_tab2 k (fun r c => cell X [f; i * k + r; j * k + c]) Hk)
      as (r & c & _ & _ & -> & _).
    done.
  - rewrite length_tab3. simpl. lia.
Qed.
End pool_forward_gen.

(** X13.  Forward pass of the max-pooling layer with window size [k >= 1] on
    an input of shape [(F, H, W)]: the result has shape [(F, H / k, W / k)]
    with the quotients rounded down, and its cell [(f, i, j)] is the largest
    entry of the [k] by [k] block of channel [f] that starts at [(i * k, j *
    k)]; rows and columns beyond the last full block are not looked at. *)
Theorem maxpool_forward_spec (self : MaxPoolingLayer.t) (X : ndarray)
    (F H W : nat) :
  let k := MaxPoolingLayer.filter_size self in
  0 < k -> shape X = [F; H; W] -> valid X ->
  exists out,
    MaxPoolingLayer.forward self X
    = Some (MaxPoolingLayer.Build k (Some X), out)
    /\ shape out = [F; H / k; W / k]
    /\ valid out
    /\ forall f i j, f < F -> i < H / k -> j < W / k ->
         exists r c,
           r < k /\ c < k
           /\ get out [f; i; j] = Some (cell X [f; i * k + r; j * k + c])
           /\ forall r' c', r' < k -> c' < k ->
                (cell X [f; i * k + r'; j * k + c']%nat
                 <= cell X [f; i * k + r; j * k + c]%nat)%R.
Proof.
  intros k Hk Hs Hv. eexists.
  split; [by apply (pool_forward_tab self X F H W)|].
  split; [done|]. split; [apply valid_tab3|].
  intros f i j Hf Hi Hj. fold k.
  assert ((i + 1) * k <= H) as HiH.
  { pose proof (Nat.Div0.mul_div_le H k). nia. }
  assert ((j + 1) * k <= W) as HjW.
  { pose proof (Nat.Div0.mul_div_le W k). nia. }
  destruct (np_max_tab2 k (fun r c => cell X [f; i * k + r; j * k + c]) Hk)
    as (r & c & Hr & Hc & Hmax & Hle).
  exists r, c. split; [done|]. split; [done|]. split; [|done].
  rewrite get_tab3 by done.
  rewrite (region_tab_gen X F H W) by done. cbn [mbind option_bind].
  by rewrite Hmax.
Qed.

(** X14.  The max-pooling layer returns exactly when its window size is not 0:
    on every three-dimensional input a positive window size gives a result,
    and the window size 0 raises ([height // 0]) before anything is computed. *)
Theorem maxpool_forward_returns_iff (self : MaxPoolingLayer.t) (X : ndarray)
    (F H W : nat) :
  shape X = [F; H; W] -> valid X ->
  is_Some (MaxPoolingLayer.forward self X)
  <-> 0 < MaxPoolingLayer.filter_size self.
Proof.
  intros Hs Hv. split.
  - intros [r Hr]. unfold MaxPoolingLayer.forward in Hr. rewrite Hs in Hr.
    cbn [MaxPoolingLayer.filter_size] in Hr.
    destruct (decide (0 < MaxPoolingLayer.filter_size self)) as [|Hn]; [done|].
    by rewrite (option_guard_False _ Hn) in Hr.
  - intros Hk. rewrite (pool_forward_tab self X F H W) by done. eauto.
Qed.

Lemma pool_backward_get (self : MaxPoolingLayer.t) (X g : ndarray)
    (F OH OW : nat) (lr : R) :
  let k := MaxPoolingLayer.filter_size self in
  0 < k ->
  MaxPoolingLayer.input self = Some X ->
  shape X = [F; OH * k; OW * k] -> valid X ->
  shape g = [F; OH; OW] -> valid g ->
  exists input_error,
    MaxPoolingLayer.backward self g lr = Some (self, input_error)
    /\ forall f i j, f < F -> i < OH -> j < OW ->
         exists r c,
           first_max (fun r c => cell X [f; i * k + r; j * k + c]) k r c
           /\ get input_error [f; i * k + r; j * k + c]
              = Some (cell g [f; i; j]).
Proof.
  intros k Hk Hin Hs Hv Hgs Hgv.
  rewrite (pool_backward_tab self X g F OH OW Hk Hs Hv Hgs Hgv lr Hin).
  fold k. set (H := OH * k). set (W := OW * k). set (N := F * H * W).
  pose proof (pool_target_spec self X F OH OW Hk Hs Hv) as Htarget.
  fold k H W N in Htarget.
  eexists. split; [done|].
  intros f i j Hf Hi Hj.
  destruct (Htarget f i j Hf Hi Hj) as (r & c & Hfm & Ht & _).
  exists r, c. split; [done|].
  destruct Hfm as (Hr & Hc & _).
  rewrite (get_lookup _ [F; H; W] _ ((f * H + (i * k + r)) * W + (j * k + c)));
    [|done|apply offset3; [done|unfold H; nia|unfold W; nia]].
  cbn [data].
  assert ((f * H + (i * k + r)) * W + (j * k + c) < N) as Hlt
    by (apply ravel3_lt; [done|unfold H; nia|unfold W; nia]).
  rewrite lookup_tab by done. f_equal. unfold pool_in_grad.
  rewrite (bigsum3_single F OH OW _ f i j Hf Hi Hj).
  - rewrite Ht, Rplus_0_l. by rewrite decide_True.
  - intros f1 i1 j1 Hf1 Hi1 Hj1 Hne.
    destruct (Htarget f1 i1 j1 Hf1 Hi1 Hj1) as (r1 & c1 & Hfm1 & Ht1 & _).
    destruct Hfm1 as (Hr1 & Hc1 & _).
    rewrite decide_False; [done|]. rewrite Ht1. intros Heq.
    destruct (pool_offset_inj self OH OW Hk f i j r c f1 i1 j1 r1 c1)
      as (? & ? & ? & _); [done..|]. by apply Hne.
Qed.

(** X15.  Forward and backward pass of the max-pooling layer fit together:
    after a forward pass on an input whose height and width are multiples of
    the window size, the gradient of every output cell lands on an input cell
    that holds exactly the value the forward pass returned in that output
    cell. *)
Theorem maxpool_backward_hits_max (self : MaxPoolingLayer.t) (X g : ndarray)
    (F OH OW : nat) (lr : R) :
  let k := MaxPoolingLayer.filter_size self in
  0 < k ->
  shape X = [F; OH * k; OW * k] -> valid X ->
  shape g = [F; OH; OW] -> valid g ->
  exists self' out input_error,
    MaxPoolingLayer.forward self X = Some (self', out)
    /\ MaxPoolingLayer.backward self' g lr = Some (self', input_error)
    /\ forall f i j, f < F -> i < OH -> j < OW ->
         exists r c,
           r < k /\ c < k
           /\ get out [f; i; j] = Some (cell X [f; i * k + r; j * k + c])
           /\ get input_error [f; i * k + r; j * k + c]
              = Some (cell g [f; i; j]).
Proof.
  intros k Hk Hs Hv Hgs Hgv.
  destruct (pool_backward_get (MaxPoolingLayer.Build k (Some X)) X g F OH OW lr
              Hk eq_refl Hs Hv Hgs Hgv) as (ie & Hbw & Hget).
  eexists _, _, ie.
  split; [by apply (pool_forward_tab self X F (OH * k) (OW * k))|].
  split; [exact Hbw|].
  intros f i j Hf Hi Hj.
  destruct (Hget f i j Hf Hi Hj) as (r & c & (Hr & Hc & Hmax & _) & Hie).
  cbn [MaxPoolingLayer.filter_size] in *.
  exists r, c. split; [done|]. split; [done|]. split; [|done].
  fold k. rewrite !Nat.div_mul by lia. rewrite get_tab3 by done.
  rewrite (region_tab_gen X F (OH * k) (OW * k)) by (done || nia).
  cbn [mbind option_bind].
  destruct (np_max_tab2 k (fun r c => cell X [f; i * k + r; j * k + c]) Hk)
    as (r0 & c0 & Hr0 & Hc0 & -> & Hle).
  cbn [default]. unfold Datatypes.id. f_equal.
  pose proof (Hmax r0 c0 Hr0 Hc0). pose proof (Hle r c Hr Hc). cbv beta in *.
  lra.
Qed.

(** ** Edge cases of the convolution layer *)

Lemma for_range_id {St} n (body : nat -> St -> option St) s :
  (forall i s, i < n -> body i s = Some s) -> for_range n body s = Some s.
Proof. intros Hb. apply (for_range_eq (fun _ => s)). auto. Qed.

(** X9.  The forward pass of the convolution layer returns exactly when the
    filter is at most one larger than the input in both directions: a filter
    of size [H + 1] or [W + 1] gives an empty output, a larger one asks
    [np.zeros] for a negative dimension, which raises. *)
Theorem conv_forward_returns_iff (self : ConvolutionLayer.t) (x : ndarray)
    (H W : nat) :
  let k := ConvolutionLayer.filter_size self in
  conv_wf self -> shape x = [H; W] -> valid x ->
  is_Some (ConvolutionLayer.forward self x) <-> k <= H + 1 /\ k <= W + 1.
Proof.
  intros k Hwf Hs Hv. split.
  - intros [r Hr]. unfold ConvolutionLayer.forward in Hr. rewrite Hs in Hr.
    cbn [ConvolutionLayer.filter_size] in Hr. fold k in Hr.
    destruct (decide (k <= H + 1)) as [HkH|HkH];
      [|by rewrite (option_guard_False _ HkH) in Hr].
    destruct (decide (k <= W + 1)) as [HkW|HkW]; [done|].
    rewrite option_guard_True in Hr by done.
    by rewrite (option_guard_False _ HkW) in Hr.
  - intros [HkH HkW].
    destruct (decide (k <= H /\ k <= W)) as [[? ?]|Hbig].
    { rewrite (conv_forward_tab self x H W) by done. eauto. }
    unfold ConvolutionLayer.forward. rewrite Hs.
    cbn [ConvolutionLayer.filter_size ConvolutionLayer.num_filters]. fold k.
    rewrite !option_guard_True by done. cbn [mbind option_bind].
    rewrite for_range_id; [eauto|].
    intros f s _.
    destruct (decide (k <= H)).
    + assert (W + 1 - k = 0) as -> by lia.
      apply for_range_id. intros i s' _. done.
    + assert (H + 1 - k = 0) as -> by lia. done.
Qed.

(** X10.  A convolution layer of filter size 0 can run forward but never
    backward: whatever was cached and whatever gradient comes in, [backward]
    raises as soon as there is one filter, because it asks [np.pad] for the
    width -1. *)
Theorem conv_backward_zero_filter (self : ConvolutionLayer.t) (g : ndarray)
    (lr : R) :
  ConvolutionLayer.filter_size self = 0 ->
  0 < ConvolutionLayer.num_filters self ->
  ConvolutionLayer.backward self g lr = None.
Proof.
  intros Hk HF. unfold ConvolutionLayer.backward.
  destruct (ConvolutionLayer.input self) as [X|]; [|done].
  cbn [mbind option_bind].
  destruct (ConvolutionLayer.num_filters self) as [|n]; [lia|].
  unfold for_range. cbn [seq for_each].
  assert (forall acc, ConvolutionLayer.backward_filter self X g 0 acc = None)
    as ->; [|done].
  intros [[ie fe] be]. unfold ConvolutionLayer.backward_filter.
  destruct (shape g) as [|? [|? [|? [|? ?]]]]; try done.
  destruct (shape X) as [|? [|? [|? ?]]]; try done.
  destruct (getitem g 0); [|done]. cbn [mbind option_bind].
  by rewrite option_guard_False by lia.
Qed.

(** ** The driver and the softmax layer *)

Lemma softmax_forward_vec (self : SoftmaxLayer.t) (x : ndarray) (n : nat) :
  0 < n -> shape x = [n; 1] -> valid x ->
  exists y,
    SoftmaxLayer.forward self x = Some (SoftmaxLayer.Build (Some y), y)
    /\ shape y = [n; 1] /\ valid y
    /\ forall i, i < n -> (0 < cell y [i; 0]%nat <= 1)%R.
Proof.
  intros Hn Hxs Hxv.
  destruct (softmax_forward_map self x n Hn Hxs Hxv) as (M & S & HS & HSd & Hf).
  cbv zeta in Hf. eexists. split; [exact Hf|]. split; [done|].
  assert (length (data x) = n) as Hl.
  { unfold valid in Hxv. rewrite Hxv, Hxs. simpl. lia. }
  split.
  { unfold valid. cbn [shape data]. rewrite length_fmap, Hl. simpl. lia. }
  intros i Hi. rewrite cell_fmap_col by done.
  pose proof (exp_pos (cell x [i; 0] - M)) as Hpos.
  assert (Rtrigo_def.exp (cell x [i; 0]%nat - M) <= S)%R as Hle.
  { rewrite HSd. apply Rsum_ge_elem.
    - apply Forall_fmap, Forall_forall. intros v _. cbn.
      pose proof (exp_pos (v - M)). lra.
    - apply list_elem_of_In, list_elem_of_fmap. exists (cell x [i; 0]).
      split; [done|]. rewrite (cell2 x n 1) by (done || lia).
      apply list_elem_of_In, nth_In. lia. }
  split.
  - apply Rdiv_lt_0_compat; lra.
  - apply (Rmult_le_reg_r S); [lra|]. unfold Rdiv.
    rewrite Rmult_assoc, Rinv_l by lra. lra.
Qed.

(** X16.  Cross-entropy through softmax: after a forward pass of the softmax
    layer with output [y], the gradient the driver starts from for the label,
    pushed back through the softmax layer, is [y] minus the one-hot vector of
    the label. *)
Theorem train_softmax_gradient (self : SoftmaxLayer.t) (x : ndarray)
    (n label : nat) (lr : R) :
  shape x = [n; 1] -> valid x -> label < n ->
  exists self' y output_error input_error,
    SoftmaxLayer.forward self x = Some (self', y)
    /\ initial_error y label = Some output_error
    /\ SoftmaxLayer.backward self' output_error lr = Some (self', input_error)
    /\ forall i, i < n ->
         get input_error [i; 0]
         = Some (cell y [i; 0]%nat - (if decide (i = label) then 1 else 0))%R.
Proof.
  intros Hxs Hxv Hlabel.
  destruct (softmax_forward_vec self x n ltac:(lia) Hxs Hxv)
    as (y & Hf & Hys & Hyv & Hy).
  destruct (initial_error_col y n label Hys Hyv Hlabel)
    as (oe & Hoe & Hoes & Hoev & Hget).
  eexists _, y, oe, _. split; [exact Hf|]. split; [exact Hoe|].
  split; [by apply (softmax_backward_tab _ y oe n)|].
  intros i Hi. rewrite get_tab2 by lia. f_equal.
  assert (forall l, l < n ->
            cell oe [l; 0]
            = if decide (l = label) then (-1 / cell y [label; 0]%nat)%R
              else 0%R) as Hoec.
  { intros l Hl. unfold cell at 1. rewrite Hget by done. done. }
  rewrite (bigsum_single n _ label Hlabel).
  2:{ intros l Hl Hne. rewrite Hoec, decide_False by done. lra. }
  rewrite !Hoec by done. rewrite (decide_True (P := label = label)) by done.
  pose proof (Hy label Hlabel) as Hpos.
  destruct (decide (i = label)) as [->|Hne]; field; lra.
Qed.

Lemma forward_all_app ls1 ls2 x :
  forward_all (ls1 ++ ls2) x
  = '(ls1', y) ← forward_all ls1 x;
    '(ls2', z) ← forward_all ls2 y;
    Some (ls1' ++ ls2', z).
Proof.
  revert x. induction ls1 as [|l ls1 IH]; intros x.
  - cbn [app forward_all mbind option_bind].
    by destruct (forward_all ls2 x) as [[??]|].
  - cbn [app forward_all]. destruct (forward l x) as [[l' y]|]; [|done].
    cbn [mbind option_bind]. rewrite IH.
    destruct (forward_all ls1 y) as [[ls1' y1]|]; [|done].
    cbn [mbind option_bind].
    by destruct (forward_all ls2 y1) as [[??]|].
Qed.

(** X17.  The loss of a network that ends in the softmax layer is never
    negative: when the layers before it return a column vector, whatever
    [train] returns as loss is at least 0, and the accuracy flag is 0 or 1. *)
Theorem train_loss_nonneg (image : ndarray) (label : nat) (ls ls1 : list layer)
    (s : SoftmaxLayer.t) (z : ndarray) (n : nat) (lr : R) (loss : R) (acc : nat)
    (layers' : list layer) :
  forward_all ls (smap (fun x => x / 255 - 0.5)%R image) = Some (ls1, z) ->
  shape z = [n; 1] -> valid z -> label < n ->
  train image label (ls ++ [Softmax s]) lr = Some (loss, acc, layers') ->
  (0 <= loss)%R /\ acc <= 1.
Proof.
  intros Hfwd Hzs Hzv Hlabel Htrain.
  destruct (softmax_forward_vec s z n ltac:(lia) Hzs Hzv)
    as (y & Hf & Hys & Hyv & Hy).
  assert (forward_all (ls ++ [Softmax s]) (smap (fun x => x / 255 - 0.5)%R image)
          = Some (ls1 ++ [Softmax (SoftmaxLayer.Build (Some y))], y)) as Hall.
  { rewrite forward_all_app, Hfwd. cbn [mbind option_bind forward_all forward].
    by rewrite Hf. }
  destruct (initial_error_col y n label Hys Hyv Hlabel) as (oe & Hoe & _).
  destruct (argmax_spec y) as (am & Ham & _).
  { intros Hnil. unfold valid in Hyv. rewrite Hnil, Hys in Hyv.
    simpl in Hyv. lia. }
  rewrite (train_unfold image label _ _ lr y oe n am Hall Hys Hyv Hlabel Hoe Ham)
    in Htrain.
  destruct (backward_all _ oe lr) as [[layers2 ie]|]; [|done].
  cbn [mbind option_bind] in Htrain. injection Htrain as Hloss Hacc _. subst loss acc.
  split; [|case_decide; lia].
  destruct (Hy label Hlabel) as [Hpos Hle1].
  assert (ln (cell y [label; 0]%nat) <= 0)%R; [|lra].
  rewrite <- ln_1. destruct Hle1 as [Hlt | ->]; [|lra].
  left. by apply ln_increasing.
Qed.

(** X18.  A label that is not a row of the network output makes [train] raise:
    [out[label]] is out of bounds. *)
Theorem train_label_out_of_range (image : ndarray) (label : nat)
    (layers layers1 : list layer) (out : ndarray) (n : nat) (rest : list nat)
    (lr : R) :
  forward_all layers (smap (fun x => x / 255 - 0.5)%R image)
  = Some (layers1, out) ->
  shape out = n :: rest -> n <= label ->
  train image label layers lr = None.
Proof.
  intros Hfwd Hs Hl. unfold train. rewrite Hfwd. cbn [mbind option_bind].
  unfold initial_error, getitem. rewrite Hs.
  by rewrite option_guard_False by lia.
Qed.

(** X19.  No layer can run backward before it has run forward: on a layer that
    has cached nothing, [backward] raises, whatever the gradient. *)
Theorem backward_before_forward (l : layer) (g : ndarray) (lr : R) :
  backward (clear_cache l) g lr = None.
Proof.
  destruct l as [c| | | |fc|]; cbn [clear_cache backward]; try done.
  unfold FCLayer.backward. cbn [FCLayer.conv_filter FCLayer.input].
  by destruct (np.dot _ g).
Qed.

(** ** When the split returns, and what it keeps *)

Lemma split_indices_perm (g : random.RandomState) (N : nat) (r : spec_float)
    (k : Z) :
  num_train_samples N r = Some k -> (0 <= k <= Z.of_nat N)%Z ->
  exists g' tr va,
    split_indices g N r = Some (g', tr, va)
    /\ length tr = Z.to_nat k
    /\ tr ++ va ≡ₚ seq 0 N.
Proof.
  intros Hk [Hk0 HkN]. set (n := Z.to_nat k).
  unfold split_indices, random.choice. rewrite Hk, length_seq.
  cbn [mbind option_bind].
  rewrite !option_guard_True by done. cbn [mbind option_bind].
  pose proof (permutation_perm g N) as Hperm.
  destruct (random.permutation g N) as [g' idx]. cbn [snd] in Hperm.
  fold n.
  assert (length idx = N) as Hlen by (by rewrite Hperm, length_seq).
  assert (NoDup idx) as Hnd by (rewrite Hperm; apply NoDup_seq).
  assert (forall i, i ∈ idx <-> i < N) as Hin.
  { intros i. rewrite Hperm, elem_of_seq. lia. }
  rewrite mapM_lookup_seq.
  2:{ apply Forall_forall. intros i Hi. apply Hin.
      by apply (subseteq_take n idx). }
  cbn [mbind option_bind]. eexists _, _, _. split; [done|].
  split; [rewrite length_take; lia|].
  rewrite <- Hperm. transitivity (take n idx ++ drop n idx);
    [|by rewrite take_drop].
  apply Permutation_app_head, NoDup_Permutation.
  - apply NoDup_elements.
  - apply (sublist_NoDup (drop n idx) idx); [done | apply sublist_drop].
  - intros i. rewrite elem_of_elements, elem_of_difference,
      !elem_of_list_to_set.
    rewrite <- (take_drop n idx) in Hnd.
    apply NoDup_app in Hnd as (_ & Hdisj & _).
    rewrite <- (take_drop n idx) at 1. rewrite elem_of_app. split.
    + intros [[Hi|Hi] Hni]; done.
    + intros Hi. split; [by right|]. intros Hi'. by apply (Hdisj i).
Qed.

Lemma split_indices_Some_bounds (g : random.RandomState) (N : nat)
    (r : spec_float) res :
  split_indices g N r = Some res ->
  exists k, num_train_samples N r = Some k /\ (0 <= k <= Z.of_nat N)%Z.
Proof.
  unfold split_indices, random.choice. rewrite length_seq. intros H.
  destruct (num_train_samples N r) as [k|]; [|done].
  cbn [mbind option_bind] in H. exists k. split; [done|].
  destruct (decide (0 <= k)%Z) as [H0|H0];
    [|by rewrite (option_guard_False _ H0) in H].
  rewrite option_guard_True in H by done.
  destruct (decide (k <= Z.of_nat N)%Z) as [H1|H1];
    [done|by rewrite (option_guard_False _ H1) in H].
Qed.

Lemma take_rows_omap {A} (X : list A) (idx : list nat) rows :
  take_rows X idx = Some rows -> rows = omap (fun i => X !! i) idx.
Proof.
  unfold take_rows. intros H. apply mapM_Some in H.
  induction H as [|i x idx rows Hi _ IH]; [done|].
  cbn [omap list_omap]. rewrite Hi. by f_equal.
Qed.

Lemma take_rows_lt {A} (X : list A) (idx : list nat) rows :
  take_rows X idx = Some rows -> Forall (fun i => i < length X) idx.
Proof.
  unfold take_rows. intros H. apply mapM_Some in H.
  induction H as [|i x idx rows Hi _ IH]; constructor; [|done].
  by apply lookup_lt_Some in Hi.
Qed.

Lemma take_rows_zip {A B} (X : list A) (Y : list B) idx Xr Yr :
  take_rows X idx = Some Xr -> take_rows Y idx = Some Yr ->
  take_rows (zip X Y) idx = Some (zip Xr Yr).
Proof.
  unfold take_rows. intros HX HY. apply mapM_Some in HX, HY. apply mapM_Some.
  revert Yr HY. induction HX as [|i x idx Xr Hi _ IH]; intros Yr HY.
  - inversion HY. constructor.
  - inversion HY as [|? y ? Yr' Hy HY']; subst. cbn [zip zip_with].
    constructor; [|by apply IH].
    apply lookup_zip_with_Some. eauto.
Qed.

Lemma omap_lookup_seq {A} (X : list A) :
  omap (fun i => X !! i) (seq 0 (length X)) = X.
Proof.
  induction X as [|x X IH] using rev_ind; [done|].
  rewrite length_app. cbn [length]. rewrite Nat.add_1_r, seq_S, omap_app.
  cbn [omap list_omap Nat.add].
  rewrite lookup_app_r, Nat.sub_diag by lia. cbn [lookup list_lookup].
  f_equal. rewrite <- IH at 2. apply list_omap_ext, Forall_Forall2_diag.
  apply Forall_forall. intros i Hi. apply elem_of_seq in Hi.
  by rewrite lookup_app_l by lia.
Qed.

Lemma split_data_Some_inv {A B : Type} (g : random.RandomState)
    (X : list A) (Y : list B) (r : spec_float) :
  is_Some (split_data g X Y r) ->
  (exists k, num_train_samples (length X) r = Some k
             /\ (0 <= k <= Z.of_nat (length X))%Z)
  /\ length X <= length Y.
Proof.
  intros [res Hres]. unfold split_data in Hres.
  destruct (split_indices g (length X) r) as [[[g' tr] va]|] eqn:Hsplit;
    [|done].
  destruct (split_indices_Some_bounds _ _ _ _ Hsplit) as (k & Hk & Hb).
  split; [by exists k|].
  destruct (split_indices_perm g (length X) r k Hk Hb)
    as (g1 & tr1 & va1 & Hsplit1 & _ & Hperm).
  rewrite Hsplit in Hsplit1. injection Hsplit1 as <- <- <-.
  cbn [mbind option_bind] in Hres.
  destruct (take_rows X tr); [|done]. cbn [mbind option_bind] in Hres.
  destruct (take_rows Y tr) as [Yt|] eqn:HYt; [|done].
  cbn [mbind option_bind] in Hres.
  destruct (take_rows X va); [|done]. cbn [mbind option_bind] in Hres.
  destruct (take_rows Y va) as [Yv|] eqn:HYv; [|done].
  apply take_rows_lt in HYt, HYv.
  destruct (decide (length X = 0)) as [|Hne]; [lia|].
  assert (length X - 1 ∈ tr ++ va) as Hin.
  { rewrite Hperm. apply elem_of_seq. lia. }
  apply elem_of_app in Hin as [Hin|Hin].
  - rewrite Forall_forall in HYt. specialize (HYt _ Hin). lia.
  - rewrite Forall_forall in HYv. specialize (HYv _ Hin). lia.
Qed.

Lemma split_data_Some_intro {A B : Type} (g : random.RandomState)
    (X : list A) (Y : list B) (r : spec_float) (k : Z) :
  num_train_samples (length X) r = Some k ->
  (0 <= k <= Z.of_nat (length X))%Z ->
  length X <= length Y ->
  is_Some (split_data g X Y r).
Proof.
  intros Hk Hb HY.
  destruct (split_indices_perm g (length X) r k Hk Hb)
    as (g' & tr & va & Hsplit & _ & Hperm).
  assert (Forall (fun i => i < length X) (tr ++ va)) as Hlt.
  { rewrite Hperm. apply Forall_forall. intros i Hi.
    apply elem_of_seq in Hi. lia. }
  apply Forall_app in Hlt as [HtrX HvaX].
  destruct (take_rows_Some X tr HtrX) as (X_train & HXt & _).
  destruct (take_rows_Some X va HvaX) as (X_val & HXv & _).
  destruct (take_rows_Some Y tr) as (Y_train & HYt & _).
  { eapply Forall_impl; [exact HtrX|]. intros; simpl in *; lia. }
  destruct (take_rows_Some Y va) as (Y_val & HYv & _).
  { eapply Forall_impl; [exact HvaX|]. intros; simpl in *; lia. }
  unfold split_data. rewrite Hsplit. cbn [mbind option_bind].
  rewrite HXt, HYt, HXv, HYv. cbn [mbind option_bind]. eauto.
Qed.

(** X20.  [split_data] returns exactly when the binary64 product of the
    number [N] of rows of [X] and [train_ratio] is finite, its floor, the
    number of train samples, is between 0 and [N], and [Y] has at least [N]
    rows: for an infinite ratio or NaN the conversion to [int] raises, for a
    negative ratio or one that asks for more samples than there are
    [np.random.choice] raises, and a shorter [Y] makes the row selection
    raise; a longer [Y] is accepted. *)
Theorem split_data_returns_iff {A B : Type} (g : random.RandomState)
    (X : list A) (Y : list B) (r : spec_float) :
  is_Some (split_data g X Y r)
  <-> (exists k, num_train_samples (length X) r = Some k
                 /\ (0 <= k <= Z.of_nat (length X))%Z)
      /\ length X <= length Y.
Proof.
  split.
  - apply split_data_Some_inv.
  - intros [(k & Hk & Hb) HY]. by apply (split_data_Some_intro g X Y r k).
Qed.

(** X21.  [split_data] loses no sample, repeats none and keeps every label
    with its sample: whenever it returns, the train pairs followed by the
    validation pairs are a rearrangement of the pairs of [X] and [Y] (rows of
    [Y] beyond the length of [X] are dropped silently). *)
Theorem split_data_keeps_pairs {A B : Type} (g g' : random.RandomState)
    (X X_train X_val : list A) (Y Y_train Y_val : list B) (r : spec_float) :
  split_data g X Y r = Some (g', (X_train, Y_train, X_val, Y_val)) ->
  zip X_train Y_train ++ zip X_val Y_val ≡ₚ zip X Y.
Proof.
  intros Hres.
  assert (is_Some (split_data g X Y r)) as HS by eauto.
  apply split_data_Some_inv in HS as [(k & Hk & Hb) HY].
  destruct (split_indices_perm g (length X) r k Hk Hb)
    as (g1 & tr & va & Hsplit & _ & Hperm).
  unfold split_data in Hres. rewrite Hsplit in Hres.
  cbn [mbind option_bind] in Hres.
  destruct (take_rows X tr) as [Xt|] eqn:HXt; [|done].
  cbn [mbind option_bind] in Hres.
  destruct (take_rows Y tr) as [Yt|] eqn:HYt; [|done].
  cbn [mbind option_bind] in Hres.
  destruct (take_rows X va) as [Xv|] eqn:HXv; [|done].
  cbn [mbind option_bind] in Hres.
  destruct (take_rows Y va) as [Yv|] eqn:HYv; [|done].
  cbn [mbind option_bind] in Hres.
  injection Hres as _ <- <- <- <-.
  rewrite (take_rows_omap _ _ _ (take_rows_zip X Y tr Xt Yt HXt HYt)).
  rewrite (take_rows_omap _ _ _ (take_rows_zip X Y va Xv Yv HXv HYv)).
  rewrite <- omap_app, Hperm.
  assert (length (zip X Y) = length X) as <-
    by (rewrite length_zip_with; lia).
  by rewrite omap_lookup_seq.
Qed.

(** ** Training steps of the script's network *)

Lemma ndarray_eq a sh d : shape a = sh -> data a = d -> NdArray sh d = a.
Proof. destruct a. simpl. by intros -> ->. Qed.

Lemma conv_backward_wf (self : ConvolutionLayer.t) (X g : ndarray)
    (H W : nat) (lr : R) :
  let k := ConvolutionLayer.filter_size self in
  let F := ConvolutionLayer.num_filters self in
  conv_wf self -> 0 < k ->
  ConvolutionLayer.input self = Some X ->
  shape X = [H; W] -> valid X -> k <= H -> k <= W ->
  shape g = [F; H - k + 1; W - k + 1] -> valid g ->
  exists self' input_error,
    ConvolutionLayer.backward self g lr = Some (self', input_error)
    /\ conv_wf self'
    /\ ConvolutionLayer.num_filters self' = F
    /\ ConvolutionLayer.filter_size self' = k
    /\ (lr = 0%R ->
        ConvolutionLayer.conv_filter self' = ConvolutionLayer.conv_filter self
        /\ ConvolutionLayer.bias self' = ConvolutionLayer.bias self).
Proof.
  intros k F Hwf Hk Hin Hs Hv HkH HkW Hgs Hgv. eexists _, _.
  split; [by apply (conv_backward_full self X g H W)|].
  destruct Hwf as (HKs & HKv & HBs & HBv).
  split.
  { repeat split; cbn [ConvolutionLayer.conv_filter ConvolutionLayer.bias
                       ConvolutionLayer.num_filters ConvolutionLayer.filter_size
                       shape]; try done.
    - apply valid_tab3.
    - unfold valid. cbn [shape data]. rewrite length_tab. simpl. lia. }
  do 2 (split; [done|]). intros ->.
  cbn [ConvolutionLayer.conv_filter ConvolutionLayer.bias]. split.
  - apply ndarray_eq; [done|].
    rewrite (data_tab3 (ConvolutionLayer.conv_filter self) F k k) by done.
    apply tab3_ext. intros. lra.
  - apply ndarray_eq; [done|].
    rewrite (data_tab (ConvolutionLayer.bias self) F) by done.
    apply tab_ext. intros. lra.
Qed.

Lemma fc_backward_wf (self : FCLayer.t) (x g : ndarray) (lr : R) :
  let n := FCLayer.input_size self in
  let m := FCLayer.output_size self in
  fc_wf self -> FCLayer.input self = Some x ->
  shape x = [n; 1] -> valid x -> shape g = [m; 1] -> valid g ->
  exists self' input_error,
    FCLayer.backward self g lr = Some (self', input_error)
    /\ shape input_error = [n; 1]
    /\ valid input_error
    /\ fc_wf self'
    /\ FCLayer.input_size self' = n /\ FCLayer.output_size self' = m
    /\ (lr = 0%R ->
        FCLayer.conv_filter self' = FCLayer.conv_filter self
        /\ FCLayer.bias self' = FCLayer.bias self).
Proof.
  intros n m Hwf Hin Hxs Hxv Hgs Hgv. eexists _, _.
  split; [by apply (fc_backward_tab self x)|].
  split; [done|]. split; [apply valid_tab2|].
  destruct Hwf as (HWs & HWv & HBs & HBv).
  split.
  { repeat split; cbn [FCLayer.conv_filter FCLayer.bias shape data];
      try done; apply valid_tab2. }
  do 2 (split; [done|]). intros ->.
  cbn [FCLayer.conv_filter FCLayer.bias]. split.
  - apply ndarray_eq; [done|].
    rewrite (data_tab2 (FCLayer.conv_filter self) n m) by done.
    apply tab2_ext. intros. lra.
  - apply ndarray_eq; [done|].
    rewrite (data_tab2 (FCLayer.bias self) m 1) by done.
    apply tab2_ext. intros i j Hi Hj. assert (j = 0) as -> by lia. lra.
Qed.

Section train_cnn_step.
Context (conv : ConvolutionLayer.t) (relu : ReLULayer.t)
  (pool : MaxPoolingLayer.t) (flatten : FlattenLayer.t) (fc : FCLayer.t)
  (softmax : SoftmaxLayer.t).
Context (image : ndarray) (label : nat) (lr : R) (H W OH OW : nat).
Let k := ConvolutionLayer.filter_size conv.
Let F := ConvolutionLayer.num_filters conv.
Let p := MaxPoolingLayer.filter_size pool.
Let n := FCLayer.output_size fc.
Context (Hconv : conv_wf conv) (Hfc : fc_wf fc) (Hk : 0 < k) (Hp : 0 < p).
Context (Hs : shape image = [H; W]) (Hv : valid image).
Context (HkH : k <= H) (HkW : k <= W).
Context (HOH : H - k + 1 = OH * p) (HOW : W - k + 1 = OW * p).
Context (Hin : FCLayer.input_size fc = F * OH * OW) (Hlabel : label < n).

Let x0 := smap (fun x => x / 255 - 0.5)%R image.
Let y1 := NdArray [F; OH * p; OW * p] (tab3 F (OH * p) (OW * p) (conv_out conv x0)).
Let y2 := np.maximum y1 0.

Lemma train_cnn_step :
  exists loss acc conv' relu' pool' flatten' fc' softmax',
    train image label (cnn conv relu pool flatten fc softmax) lr
    = Some (loss, acc, cnn conv' relu' pool' flatten' fc' softmax')
    /\ conv_wf conv' /\ fc_wf fc'
    /\ ConvolutionLayer.num_filters conv' = F
    /\ ConvolutionLayer.filter_size conv' = k
    /\ MaxPoolingLayer.filter_size pool' = p
    /\ FCLayer.input_size fc' = FCLayer.input_size fc
    /\ FCLayer.output_size fc' = n
    /\ (lr = 0%R ->
        ConvolutionLayer.conv_filter conv' = ConvolutionLayer.conv_filter conv
        /\ ConvolutionLayer.bias conv' = ConvolutionLayer.bias conv
        /\ FCLayer.conv_filter fc' = FCLayer.conv_filter fc
        /\ FCLayer.bias fc' = FCLayer.bias fc).
Proof using Hconv Hfc Hk Hp Hs Hv HkH HkW HOH HOW Hin Hlabel.
  destruct (cnn_forward conv relu pool flatten fc softmax image label H W OH OW
              Hconv Hfc Hk Hp Hs Hv HkH HkW HOH HOW Hin Hlabel)
    as (y3 & y5 & out & Hfwd & Hy3l & Houts & Houtv).
  fold k F p n x0 y1 y2 in Hfwd, Hy3l, Houts.
  destruct (initial_error_col out n label Houts Houtv Hlabel)
    as (oe & Hoe & Hoes & Hoev & _).
  destruct (argmax_spec out) as (am & Ham & _).
  { intros Hnil. unfold valid in Houtv. rewrite Hnil, Houts in Houtv.
    simpl in Houtv. lia. }
  rewrite (train_unfold image label _ _ lr out oe n am Hfwd Houts Houtv
             Hlabel Hoe Ham).
  assert (valid y1) as Hy1v.
  { unfold valid. cbn [shape data y1]. by rewrite length_tab3, numel3. }
  assert (valid y2) as Hy2v by (by apply valid_smap).
  unfold cnn. cbn [backward_all backward mbind option_bind].
  destruct (softmax_backward_Some (SoftmaxLayer.Build (Some out)) out oe n lr)
    as (e5 & -> & He5s & He5v); [done..|].
  cbn [lift mbind option_bind].
  edestruct (fc_backward_wf
    (FCLayer.Build (FCLayer.input_size fc) n (FCLayer.conv_filter fc)
       (FCLayer.bias fc) (Some (NdArray [F * OH * OW; 1] (data y3))) (Some y5))
    (NdArray [F * OH * OW; 1] (data y3)) e5 lr)
    as (fc' & e4 & -> & He4s & He4v & Hfc' & Hfcn & Hfcm & Hfc0);
    [exact Hfc|done|by rewrite Hin| |done|done|].
  { unfold valid. cbn [shape data]. rewrite Hy3l. simpl. lia. }
  cbn [FCLayer.input_size FCLayer.output_size FCLayer.conv_filter FCLayer.bias]
    in He4s, Hfcn, Hfcm, Hfc0.
  cbn [lift mbind option_bind].
  rewrite (flatten_backward_Some _ e4 F OH OW) by
    (done || (rewrite He4v, He4s, Hin; simpl; lia)).
  cbn [lift mbind option_bind].
  assert (valid (NdArray [F; OH; OW] (data e4))) as He3v.
  { unfold valid. cbn [shape data]. rewrite He4v, He4s, Hin. simpl. lia. }
  rewrite (pool_backward_tab (MaxPoolingLayer.Build p (Some y2)) y2
             (NdArray [F; OH; OW] (data e4)) F OH OW Hp eq_refl Hy2v eq_refl
             He3v lr eq_refl).
  cbn [lift mbind option_bind MaxPoolingLayer.filter_size].
  edestruct (relu_backward_Some (ReLULayer.Build (Some y1)) y1) as
    (e1 & -> & He1s & He1v); [done|..].
  { done. }
  { done. }
  { unfold valid. cbn [shape data]. by rewrite length_tab, numel3. }
  cbn [lift mbind option_bind]. cbn [shape] in He1s.
  edestruct (conv_backward_wf
    (ConvolutionLayer.Build F k (ConvolutionLayer.conv_filter conv)
       (ConvolutionLayer.bias conv) (Some x0)) x0 e1 H W lr)
    as (conv' & e0 & -> & Hconv' & HF' & Hk' & Hconv0);
    [exact Hconv|done|done|done|by apply valid_smap|done|done| |done|].
  { cbn [ConvolutionLayer.num_filters ConvolutionLayer.filter_size].
    fold k F. by rewrite He1s, HOH, HOW. }
  cbn [ConvolutionLayer.num_filters ConvolutionLayer.filter_size
       ConvolutionLayer.conv_filter ConvolutionLayer.bias] in HF', Hk', Hconv0.
  cbn [lift mbind option_bind].
  eexists _, _, conv', _, (MaxPoolingLayer.Build p (Some y2)), _, fc', _.
  split; [reflexivity|]. do 7 (split; [done|]).
  intros Hlr. destruct (Hconv0 Hlr) as [-> ->]. destruct (Hfc0 Hlr) as [-> ->].
  done.
Qed.
End train_cnn_step.

Lemma train_cnn_wf_step (image : ndarray) (label : nat)
    (layers : list layer) (lr : R) (H W n : nat) :
  cnn_wf H W n layers -> shape image = [H; W] -> valid image -> label < n ->
  exists loss acc layers',
    train image label layers lr = Some (loss, acc, layers')
    /\ cnn_wf H W n layers'.
Proof.
  intros (conv & relu & pool & flatten & fc & softmax & OH & OW & Hwf)
    Hs Hv Hlabel.
  cbv zeta in Hwf.
  destruct Hwf as (-> & Hconv & Hfc & Hk & Hp & HkH & HkW & HOH & HOW & Hin & Hn).
  subst n.
  destruct (train_cnn_step conv relu pool flatten fc softmax image label lr
              H W OH OW Hconv Hfc Hk Hp Hs Hv HkH HkW HOH HOW Hin Hlabel)
    as (loss & acc & conv' & relu' & pool' & flatten' & fc' & softmax'
        & Htrain & Hconv' & Hfc' & HF' & Hk' & Hp' & Hin' & Hn' & _).
  exists loss, acc, (cnn conv' relu' pool' flatten' fc' softmax').
  split; [exact Htrain|].
  exists conv', relu', pool', flatten', fc', softmax', OH, OW. cbv zeta.
  rewrite HF', Hk', Hp', Hin', Hn'. done.
Qed.

(** X22.  One training step keeps the script's network in shape: on an image
    of the height and width the network fits and a label among its classes,
    [train] returns, and the layers it leaves behind are again the script's
    network, with parameters of the same shapes, fitting the same images; so
    the step can be repeated. *)
Theorem train_cnn_keeps_wf (image : ndarray) (label : nat)
    (layers : list layer) (lr : R) (H W n : nat) :
  cnn_wf H W n layers -> shape image = [H; W] -> valid image -> label < n ->
  exists loss acc layers',
    train image label layers lr = Some (loss, acc, layers')
    /\ cnn_wf H W n layers'.
Proof.
  intros (conv & relu & pool & flatten & fc & softmax & OH & OW & Hwf)
    Hs Hv Hlabel.
  cbv zeta in Hwf.
  destruct Hwf as (-> & Hconv & Hfc & Hk & Hp & HkH & HkW & HOH & HOW & Hin & Hn).
  subst n.
  destruct (train_cnn_step conv relu pool flatten fc softmax image label lr
              H W OH OW Hconv Hfc Hk Hp Hs Hv HkH HkW HOH HOW Hin Hlabel)
    as (loss & acc & conv' & relu' & pool' & flatten' & fc' & softmax'
        & Htrain & Hconv' & Hfc' & HF' & Hk' & Hp' & Hin' & Hn' & _).
  exists loss, acc, (cnn conv' relu' pool' flatten' fc' softmax').
  split; [exact Htrain|].
  exists conv', relu', pool', flatten', fc', softmax', OH, OW. cbv zeta.
  rewrite HF', Hk', Hp', Hin', Hn'. done.
Qed.

(** X23.  With learning rate 0 a training step of the script's network changes
    no parameter: the layers that come back differ from the ones that went in
    only in what they cached. *)
Theorem train_cnn_lr0 (image : ndarray) (label : nat) (layers : list layer)
    (H W n : nat) :
  cnn_wf H W n layers -> shape image = [H; W] -> valid image -> label < n ->
  exists loss acc layers',
    train image label layers 0 = Some (loss, acc, layers')
    /\ clear_cache <$> layers' = clear_cache <$> layers.
Proof.
  intros (conv & relu & pool & flatten & fc & softmax & OH & OW & Hwf)
    Hs Hv Hlabel.
  cbv zeta in Hwf.
  destruct Hwf as (-> & Hconv & Hfc & Hk & Hp & HkH & HkW & HOH & HOW & Hin & Hn).
  subst n.
  destruct (train_cnn_step conv relu pool flatten fc softmax image label 0%R
              H W OH OW Hconv Hfc Hk Hp Hs Hv HkH HkW HOH HOW Hin Hlabel)
    as (loss & acc & conv' & relu' & pool' & flatten' & fc' & softmax'
        & Htrain & _ & _ & HF' & Hk' & Hp' & Hin' & Hn' & H0).
  destruct (H0 eq_refl) as (HK & HB & HW & HBf).
  exists loss, acc, (cnn conv' relu' pool' flatten' fc' softmax').
  split; [exact Htrain|].
  unfold cnn. cbn [fmap list_fmap clear_cache].
  by rewrite HF', Hk', Hp', Hin', Hn', HK, HB, HW, HBf.
Qed.

(** ** The script *)

Ltac divmod := zify; Z.div_mod_to_equations; lia.

Lemma train_acc_le_1 image label layers lr loss acc layers' :
  train image label layers lr = Some (loss, acc, layers') -> acc <= 1.
Proof.
  unfold train. intros H.
  destruct (forward_all _ _) as [[ls out]|]; [|done].
  cbn [mbind option_bind] in H.
  destruct (initial_error out label); [|done]. cbn [mbind option_bind] in H.
  destruct (backward_all _ _ _) as [[ls' ie]|]; [|done].
  cbn [mbind option_bind] in H.
  destruct (getitem out label); [|done]. cbn [mbind option_bind] in H.
  destruct (np.argmax out); [|done]. cbn [mbind option_bind] in H.
  injection H as _ <- _. case_decide; lia.
Qed.

(** The bound on [num_correct] when step [i] begins. *)
Lemma train_loop_lines samples : forall i layers loss nc out layers' loss' nc' out',
  train_loop i samples (layers, loss, nc, out) = Some (layers', loss', nc', out') ->
  nc <= (if decide (i < 100) then i else (i - 100) mod 100 + 1) ->
  exists lines,
    out' = out ++ lines
    /\ length lines = (i + length samples) / 100 - i / 100
    /\ forall k l, lines !! k = Some l ->
         exists average_loss accuracy,
           l = StepLine (100 * (i / 100 + k + 1)) average_loss accuracy
           /\ accuracy <= (if decide (i / 100 + k = 0) then 99 else 100).
Proof.
  induction samples as [|[im label] samples IH];
    intros i layers loss nc out layers' loss' nc' out' Hloop Hnc.
  { cbn [train_loop] in Hloop. injection Hloop as <- <- <- <-.
    exists []. rewrite app_nil_r. split; [done|]. split.
    - cbn [length]. rewrite Nat.add_0_r. lia.
    - intros k l Hl. done. }
  cbn [train_loop] in Hloop.
  destruct (train_step i im label (layers, loss, nc, out))
    as [[[[layers1 loss1] nc1] out1]|] eqn:Hstep; [|done].
  cbn [mbind option_bind] in Hloop.
  unfold train_step in Hstep.
  destruct (decide (i mod 100 = 99)) as [Hrep|Hrep].
  - destruct (train im label layers 0.005) as [[[l0 acc] ls]|] eqn:Htrain;
      [|done].
    cbn [mbind option_bind] in Hstep. injection Hstep as <- <- <- <-.
    apply train_acc_le_1 in Htrain.
    destruct (IH _ _ _ _ _ _ _ _ _ Hloop) as (lines & -> & Hlen & Hlines).
    { repeat case_decide; divmod. }
    exists (StepLine (i + 1) (loss / 100) nc :: lines).
    split; [by rewrite <- app_assoc|]. split.
    + cbn [length]. rewrite Hlen. divmod.
    + intros [|k] l Hl.
      * injection Hl as <-. exists (loss / 100)%R, nc. split.
        -- f_equal. divmod.
        -- repeat case_decide; divmod.
      * cbn [lookup list_lookup] in Hl.
        destruct (Hlines k l Hl) as (avg & acc' & -> & Hacc).
        exists avg, acc'. split.
        -- f_equal. divmod.
        -- repeat case_decide; divmod.
  - destruct (train im label layers 0.005) as [[[l0 acc] ls]|] eqn:Htrain;
      [|done].
    cbn [mbind option_bind] in Hstep. injection Hstep as <- <- <- <-.
    apply train_acc_le_1 in Htrain.
    destruct (IH _ _ _ _ _ _ _ _ _ Hloop) as (lines & -> & Hlen & Hlines).
    { repeat case_decide; divmod. }
    exists lines. split; [done|]. split.
    + cbn [length]. rewrite Hlen. divmod.
    + intros k l Hl.
      destruct (Hlines k l Hl) as (avg & acc' & -> & Hacc).
      exists avg, acc'. split.
      * f_equal. divmod.
      * repeat case_decide; divmod.
Qed.

Lemma train_loop_step_lines samples layers out layers' loss' nc' out' :
  train_loop 0 samples (layers, 0%R, 0, out) = Some (layers', loss', nc', out') ->
  exists lines, out' = out ++ lines /\ step_lines (length samples) lines.
Proof.
  intros Hloop.
  destruct (train_loop_lines samples 0 _ _ _ _ _ _ _ _ Hloop)
    as (lines & -> & Hlen & Hlines); [case_decide; lia|].
  exists lines. split; [done|]. split.
  - rewrite Hlen. cbn [Nat.add]. divmod.
  - intros k l Hl. destruct (Hlines k l Hl) as (avg & acc & -> & Hacc).
    exists avg, acc. split; [f_equal; divmod|].
    repeat case_decide; divmod.
Qed.

(** X24.  What one pass over the training samples prints: whenever the loop
    over the samples of an epoch returns, it has printed one step line for
    every full hundred of samples, in order, line [k] carrying the step number
    [100 * (k + 1)]; the accuracy a line shows is at most 100, and at most 99
    in the first line, which is printed before the hundredth sample is trained
    on. *)
Theorem train_loop_prints (samples : list (ndarray * nat))
    (layers layers' : list layer) (out out' : list line) (loss' : R)
    (nc' : nat) :
  train_loop 0 samples (layers, 0%R, 0, out) = Some (layers', loss', nc', out') ->
  exists lines, out' = out ++ lines /\ step_lines (length samples) lines.
Proof.
  intros Hloop.
  destruct (train_loop_lines samples 0 _ _ _ _ _ _ _ _ Hloop)
    as (lines & -> & Hlen & Hlines); [case_decide; lia|].
  exists lines. split; [done|]. split.
  - rewrite Hlen. cbn [Nat.add]. divmod.
  - intros k l Hl. destruct (Hlines k l Hl) as (avg & acc & -> & Hacc).
    exists avg, acc. split; [f_equal; divmod|].
    repeat case_decide; divmod.
Qed.

Lemma train_loop_returns (H W n : nat) samples :
  forall i layers loss nc out,
    cnn_wf H W n layers -> Forall (sample_ok H W n) samples ->
    exists layers' loss' nc' out',
      train_loop i samples (layers, loss, nc, out)
      = Some (layers', loss', nc', out')
      /\ cnn_wf H W n layers'.
Proof.
  induction samples as [|[im label] samples IH];
    intros i layers loss nc out Hwf Hok.
  { cbn [train_loop]. eauto 10. }
  apply Forall_cons in Hok as [(Hs & Hv & Hl) Hok]. cbn [fst snd] in Hs, Hv, Hl.
  cbn [train_loop]. unfold train_step.
  destruct (train_cnn_wf_step im label layers 0.005%R H W n Hwf Hs Hv Hl)
    as (l & acc & layers1 & Htrain & Hwf1).
  destruct (decide (i mod 100 = 99)); rewrite Htrain;
    cbn [mbind option_bind]; by apply IH.
Qed.

Lemma take_rows_Forall {A} (P : A -> Prop) (X : list A) idx rows :
  take_rows X idx = Some rows -> Forall P X -> Forall P rows.
Proof.
  unfold take_rows. intros H HP. apply mapM_Some in H.
  induction H as [|i x idx rows Hi _ IH]; constructor; [|done].
  rewrite Forall_forall in HP. apply HP. by eapply list_elem_of_lookup_2.
Qed.

Lemma sample_ok_zip (H W n : nat) (images : list ndarray) (labels : list nat) :
  Forall (fun im => shape im = [H; W] /\ valid im) images ->
  Forall (fun l => l < n) labels ->
  Forall (sample_ok H W n) (zip images labels).
Proof.
  intros Hi. revert labels. induction Hi as [|im images [Hs Hv] _ IH];
    intros labels Hl; [constructor|].
  destruct Hl as [|l labels Hl Hls]; [constructor|].
  cbn [zip zip_with]. constructor; [done|by apply IH].
Qed.

Section epochs.
Context (H W n : nat).
Let image_ok := fun im : ndarray => shape im = [H; W] /\ valid im.

Lemma epoch_body_returns e g images labels layers out :
  cnn_wf H W n layers ->
  Forall image_ok images -> Forall (fun l => l < n) labels ->
  length images <= length labels ->
  exists g' images' labels' layers' lines,
    epoch_body e (g, images, labels, layers, out)
    = Some (g', images', labels', layers',
            out ++ EpochLine (e + 1) :: lines)
    /\ cnn_wf H W n layers'
    /\ Forall image_ok images' /\ Forall (fun l => l < n) labels'
    /\ length images' = length images /\ length labels' = length images
    /\ step_lines (length images) lines.
Proof.
  intros Hwf Hi Hl Hlen. unfold epoch_body.
  pose proof (permutation_perm g (length images)) as Hperm.
  destruct (random.permutation g (length images)) as [g' idx].
  cbn [snd] in Hperm.
  assert (Forall (fun i => i < length images) idx) as Hidx.
  { rewrite Hperm. apply Forall_forall. intros i Hin.
    apply elem_of_seq in Hin. lia. }
  assert (length idx = length images) as Hlidx
    by (by rewrite Hperm, length_seq).
  destruct (take_rows_Some images idx Hidx) as (images' & HX & HlX).
  destruct (take_rows_Some labels idx) as (labels' & HY & HlY).
  { eapply Forall_impl; [exact Hidx|]. intros; simpl in *; lia. }
  rewrite HX, HY. cbn [mbind option_bind].
  pose proof (take_rows_Forall _ _ _ _ HX Hi) as Hi'.
  pose proof (take_rows_Forall _ _ _ _ HY Hl) as Hl'.
  destruct (train_loop_returns H W n (zip images' labels') 0 layers 0%R 0
              (out ++ [EpochLine (e + 1)]) Hwf (sample_ok_zip H W n _ _ Hi' Hl'))
    as (layers' & loss' & nc' & out' & Hloop & Hwf').
  rewrite Hloop. cbn [mbind option_bind].
  destruct (train_loop_step_lines _ _ _ _ _ _ _ Hloop) as (lines & -> & Hlines).
  rewrite length_zip_with in Hlines.
  replace (length images' `min` length labels') with (length images)
    in Hlines by lia.
  exists g', images', labels', layers', lines.
  split; [by rewrite <- app_assoc|]. do 3 (split; [done|]).
  split; [lia|]. split; [lia|]. done.
Qed.
End epochs.

Lemma valid_zeros sh : valid (np.zeros sh).
Proof. unfold valid, np.zeros. cbn [shape data]. by rewrite length_replicate. Qed.

Lemma conv_init_wf randn g F k :
  well_shaped randn ->
  let self := (ConvolutionLayer_init randn g F k).2 in
  conv_wf self
  /\ ConvolutionLayer.num_filters self = F
  /\ ConvolutionLayer.filter_size self = k
  /\ ConvolutionLayer.input self = None
  /\ ConvolutionLayer.bias self = np.zeros [F].
Proof.
  intros Hr. unfold ConvolutionLayer_init.
  destruct (Hr g [F; k; k]) as [Hs Hv].
  destruct (randn g [F; k; k]) as [g' w]. cbn [snd] in *.
  repeat split; try done.
  - by apply valid_smap.
  - apply valid_zeros.
Qed.

Lemma fc_init_wf random_sample g n m :
  well_shaped random_sample ->
  let self := (FCLayer_init random_sample g n m).2 in
  fc_wf self
  /\ FCLayer.input_size self = n
  /\ FCLayer.output_size self = m
  /\ FCLayer.input self = None.
Proof.
  intros Hr. unfold FCLayer_init.
  destruct (Hr g [n; m]) as [Hs Hv].
  destruct (random_sample g [n; m]) as [g1 w]. cbn [snd] in *.
  destruct (Hr g1 [m; 1]) as [Hbs Hbv].
  destruct (random_sample g1 [m; 1]) as [g2 b]. cbn [snd] in *.
  repeat split; try done; by apply valid_smap.
Qed.

Lemma split_data_train_rows {A B : Type} (g : random.RandomState)
    (X : list A) (Y : list B) (r : spec_float) (k : Z)
    (PA : A -> Prop) (PB : B -> Prop) :
  num_train_samples (length X) r = Some k ->
  (0 <= k <= Z.of_nat (length X))%Z ->
  length X <= length Y -> Forall PA X -> Forall PB Y ->
  exists g' X_train Y_train X_val Y_val,
    split_data g X Y r = Some (g', (X_train, Y_train, X_val, Y_val))
    /\ length X_train = Z.to_nat k
    /\ length Y_train = Z.to_nat k
    /\ Forall PA X_train /\ Forall PB Y_train.
Proof.
  intros Hk Hb HY HPA HPB.
  destruct (split_indices_perm g (length X) r k Hk Hb)
    as (g' & tr & va & Hsplit & Hltr & Hperm).
  assert (Forall (fun i => i < length X) (tr ++ va)) as Hlt.
  { rewrite Hperm. apply Forall_forall. intros i Hi.
    apply elem_of_seq in Hi. lia. }
  apply Forall_app in Hlt as [HtrX HvaX].
  destruct (take_rows_Some X tr HtrX) as (X_train & HXt & HlXt).
  destruct (take_rows_Some X va HvaX) as (X_val & HXv & _).
  destruct (take_rows_Some Y tr) as (Y_train & HYt & HlYt).
  { eapply Forall_impl; [exact HtrX|]. intros; simpl in *; lia. }
  destruct (take_rows_Some Y va) as (Y_val & HYv & _).
  { eapply Forall_impl; [exact HvaX|]. intros; simpl in *; lia. }
  exists g', X_train, Y_train, X_val, Y_val. split.
  { unfold split_data. rewrite Hsplit. cbn [mbind option_bind].
    by rewrite HXt, HYt, HXv, HYv. }
  split; [lia|]. split; [lia|]. split.
  - by apply (take_rows_Forall _ _ _ _ HXt).
  - by apply (take_rows_Forall _ _ _ _ HYt).
Qed.

(** X25.  The shuffle at the start of an epoch keeps every image with its
    label: whenever the body of the epoch loop returns, the training data it
    leaves for the next epoch are the pairs of image and label it was given,
    in another order. *)
Theorem epoch_shuffle_keeps_pairs (e : nat) (g g' : random.RandomState)
    (images images' : list ndarray) (labels labels' : list nat)
    (layers layers' : list layer) (out out' : list line) :
  epoch_body e (g, images, labels, layers, out)
  = Some (g', images', labels', layers', out') ->
  zip images' labels' ≡ₚ zip images labels.
Proof.
  unfold epoch_body. intros Hres.
  pose proof (permutation_perm g (length images)) as Hperm.
  destruct (random.permutation g (length images)) as [g1 idx].
  cbn [snd] in Hperm.
  destruct (take_rows images idx) as [X|] eqn:HX; [|done].
  cbn [mbind option_bind] in Hres.
  destruct (take_rows labels idx) as [Y|] eqn:HY; [|done].
  cbn [mbind option_bind] in Hres.
  destruct (train_loop _ _ _) as [[[[ls ?] ?] o]|]; [|done].
  cbn [mbind option_bind] in Hres. injection Hres as _ <- <- _ _.
  rewrite (take_rows_omap _ _ _ (take_rows_zip images labels idx X Y HX HY)).
  rewrite Hperm.
  assert (length images <= length labels) as Hlen.
  { destruct (decide (length images = 0)) as [|Hne]; [lia|].
    apply take_rows_lt in HY. rewrite Forall_forall in HY.
    assert (length images - 1 ∈ idx) as Hin
      by (rewrite Hperm; apply elem_of_seq; lia).
    specialize (HY _ Hin). lia. }
  assert (length (zip images labels) = length images) as <-
    by (rewrite length_zip_with; lia).
  by rewrite omap_lookup_seq.
Qed.

(** X26.  The script runs to its end on every data set of fewer than [2^50]
    images of 28 by 28 pixels with labels below 10 and at least as many labels
    as images, whatever the generator draws: no call raises; the layers it
    ends with are still the script's network; and it prints, for each of the
    three epochs, the epoch line followed by one step line for every full
    hundred of the [floor (0.8 * N)] training samples (for these [N] the
    binary64 product of [N] and the literal [0.8] has the floor of the exact
    product). *)
Theorem main_returns
    (randn random_sample : random.RandomState -> list nat
                           -> random.RandomState * ndarray)
    (g : random.RandomState) (X : list ndarray) (Y : list nat) :
  well_shaped randn -> well_shaped random_sample ->
  (Z.of_nat (length X) < 2 ^ 50)%Z ->
  Forall (fun im => shape im = [28; 28] /\ valid im) X ->
  Forall (fun l => l < 10) Y ->
  length X <= length Y ->
  exists g' layers' l1 l2 l3,
    main randn random_sample g (X, Y)
    = Some (g', layers',
            EpochLine 1 :: l1 ++ EpochLine 2 :: l2 ++ EpochLine 3 :: l3)
    /\ cnn_wf 28 28 10 layers'
    /\ let n := Z.to_nat (Zfloor (INR (length X) * 0.8)) in
       step_lines n l1 /\ step_lines n l2 /\ step_lines n l3.
Proof.
  intros Hrandn Hrandom HN HX HY Hlen. unfold main. cbn [fst snd].
  rewrite Zfloor_default.
  pose proof (num_train_samples_default (length X) HN) as Hk.
  assert (0 <= 4 * Z.of_nat (length X) / 5 <= Z.of_nat (length X))%Z as Hb.
  { split; [apply Z.div_pos; lia|].
    apply Z.div_le_upper_bound; lia. }
  destruct (split_data_train_rows g X Y train_ratio_default _ _ _ Hk Hb
              Hlen HX HY)
    as (g1 & Xt & Yt & Xv & Yv & -> & HlXt & HlYt & HXt & HYt).
  cbn [mbind option_bind].
  pose proof (conv_init_wf randn g1 8 3 Hrandn) as Hconv. cbv zeta in Hconv.
  destruct (ConvolutionLayer_init randn g1 8 3) as [g2 conv].
  cbn [snd] in Hconv. destruct Hconv as (Hconv & HF & Hk3 & _).
  pose proof (fc_init_wf random_sample g2 (13 * 13 * 8) 10 Hrandom) as Hfc.
  cbv zeta in Hfc.
  destruct (FCLayer_init random_sample g2 (13 * 13 * 8) 10) as [g3 fc].
  cbn [snd] in Hfc. destruct Hfc as (Hfc & Hn & Hm & _).
  set (layers := [Conv conv; ReLU _; MaxPool _; Flatten _; FC fc; Softmax _]).
  assert (cnn_wf 28 28 10 layers) as Hwf.
  { eexists conv, _, (MaxPoolingLayer.Build 2 None), _, fc, _, 13, 13.
    cbv zeta. cbn [MaxPoolingLayer.filter_size]. rewrite HF, Hk3, Hn, Hm.
    split; [reflexivity|]. split; [exact Hconv|]. split; [exact Hfc|].
    repeat split; lia. }
  clearbody layers.
  unfold for_range. cbn [seq for_each].
  destruct (epoch_body_returns 28 28 10 0 g3 Xt Yt layers [] Hwf HXt HYt
              ltac:(lia))
    as (ga & Xa & Ya & la & l1 & -> & Hwfa & HXa & HYa & HlXa & HlYa & Hl1).
  cbn [mbind option_bind].
  destruct (epoch_body_returns 28 28 10 1 ga Xa Ya la ([] ++ EpochLine (0 + 1) :: l1)
              Hwfa HXa HYa ltac:(lia))
    as (gb & Xb & Yb & lb & l2 & -> & Hwfb & HXb & HYb & HlXb & HlYb & Hl2).
  cbn [mbind option_bind].
  destruct (epoch_body_returns 28 28 10 2 gb Xb Yb lb
              (([] ++ EpochLine (0 + 1) :: l1) ++ EpochLine (1 + 1) :: l2)
              Hwfb HXb HYb ltac:(lia))
    as (gc & Xc & Yc & lc & l3 & -> & Hwfc & _ & _ & _ & _ & Hl3).
  cbn [mbind option_bind].
  exists gc, lc, l1, l2, l3. split.
  { do 2 f_equal. cbn [app Nat.add]. by rewrite <- !app_assoc. }
  split; [done|]. cbv zeta.
  rewrite HlXa, HlXt in Hl2. rewrite HlXb, HlXa, HlXt in Hl3.
  rewrite HlXt in Hl1. done.
Qed.

(** X27.  When the flatten layer returns. Forward accepts an array of at least
    three dimensions whose size is the product of the first three (so any
    further dimension has length 1, unless the array is empty) and raises on
    every other array; backward after such a forward pass returns exactly when
    the cached shape has three dimensions and the gradient has as many entries
    as the cached input. *)
Theorem flatten_returns_iff (self : FlattenLayer.t) (x g : ndarray) (lr : R) :
  valid x ->
  (is_Some (FlattenLayer.forward self x)
   <-> exists a b c rest,
         shape x = a :: b :: c :: rest /\ a * b * c * numel rest = a * b * c)
  /\ forall self' y,
       FlattenLayer.forward self x = Some (self', y) ->
       (is_Some (FlattenLayer.backward self' g lr)
        <-> length (shape x) = 3 /\ length (data g) = numel (shape x)).
Proof.
  intros Hv. unfold valid in Hv.
  unfold FlattenLayer.forward, np.reshape, np.flatten. cbn [shape data].
  rewrite option_guard_True by (simpl; lia). cbn [mbind option_bind shape].
  split.
  - split.
    + intros [r Hr].
      destruct (shape x) as [|a [|b [|c rest]]] eqn:Hs; try done.
      exists a, b, c, rest. split; [done|].
      destruct (decide ([length (data x); 1] = [a * b * c; 1])) as [He|He];
        [|by rewrite (option_guard_False _ He) in Hr].
      injection He as He. rewrite Hv in He. simpl in He. lia.
    + intros (a & b & c & rest & Hs & Hn). rewrite Hs.
      rewrite option_guard_True; [eauto|].
      rewrite Hv, Hs. f_equal. simpl. lia.
  - intros self' y Hf.
    destruct (shape x) as [|a [|b [|c rest]]] eqn:Hs; try done.
    destruct (decide ([length (data x); 1] = [a * b * c; 1])) as [He|He];
      [|by rewrite (option_guard_False _ He) in Hf].
    rewrite option_guard_True in Hf by done. injection Hf as <- <-.
    unfold FlattenLayer.backward, np.reshape.
    cbn [FlattenLayer.input_shape mbind option_bind].
    destruct rest as [|d rest].
    + split.
      * intros [r Hr]. split; [done|].
        destruct (decide (length (data g) = numel [a; b; c])) as [Hg|Hg];
          [done|by rewrite (option_guard_False _ Hg) in Hr].
      * intros [_ Hg]. rewrite option_guard_True by done. eauto.
    + split; [by intros [r Hr]|]. intros [Hl _]. simpl in Hl. lia.
Qed.

(** ** Concrete runs *)

(** Concrete runs of the layers.  The lists are evaluated; the real numbers
    in them are compared by [lra]. *)

Ltac eval_lists :=
  cbv -[IZR Rplus Rmult Rminus Rdiv Ropp Rinv Rmax Rlt_dec Rtrigo_def.exp ln].

Ltac eval_Rmax :=
  repeat match goal with
  | |- context [Rmax ?a ?b] =>
      (rewrite (Rmax_left a b) by lra) || (rewrite (Rmax_right a b) by lra)
  end.

Ltac eval_Rlt :=
  repeat match goal with
  | |- context [Rlt_dec ?a ?b] => destruct (Rlt_dec a b); try (exfalso; lra)
  end.

(** A 3 by 3 image and one 2 by 2 filter with kernel [[1, 0], [0, 1]] and
    bias 1. *)
Example conv_forward_3x3 :
  exists self' a b c d,
    ConvolutionLayer.forward
      (ConvolutionLayer.Build 1 2 (NdArray [1; 2; 2] [1; 0; 0; 1]%R)
         (NdArray [1] [1%R]) None)
      (NdArray [3; 3] [1; 2; 3; 4; 5; 6; 7; 8; 9]%R)
    = Some (self', NdArray [1; 2; 2] [a; b; c; d])
    /\ (a = 7 /\ b = 9 /\ c = 13 /\ d = 15)%R.
Proof.
  eexists _, _, _, _, _. split; [reflexivity|]. eval_lists.
  repeat split; lra.
Qed.

(** The same layer backward, with gradient [[1, 0], [0, 0]] and learning rate
    1: the kernel lands on the top left of the input gradient, and the
    parameters move by the top left patch of the image and by the gradient. *)
Example conv_backward_3x3 :
  exists self' input_error kernel bias,
    ConvolutionLayer.backward
      (ConvolutionLayer.Build 1 2 (NdArray [1; 2; 2] [1; 0; 0; 1]%R)
         (NdArray [1] [1%R])
         (Some (NdArray [3; 3] [1; 2; 3; 4; 5; 6; 7; 8; 9]%R)))
      (NdArray [1; 2; 2] [1; 0; 0; 0]%R) 1
    = Some (self', NdArray [3; 3] input_error)
    /\ Forall2 eq input_error [1; 0; 0; 0; 1; 0; 0; 0; 0]%R
    /\ ConvolutionLayer.conv_filter self' = NdArray [1; 2; 2] kernel
    /\ Forall2 eq kernel [0; -2; -4; -4]%R
    /\ ConvolutionLayer.bias self' = NdArray [1] [bias] /\ bias = 0%R.
Proof.
  eexists _, _, _, _. split; [reflexivity|]. eval_lists.
  split; [repeat constructor; lra|]. split; [reflexivity|].
  split; [repeat constructor; lra|]. split; [reflexivity|]. lra.
Qed.

(** Pooling with a 2 by 2 window on a 2 by 4 plane. *)
Example maxpool_forward_2x4 :
  exists self' v,
    MaxPoolingLayer.forward (MaxPoolingLayer.Build 2 None)
      (NdArray [1; 2; 4] [1; 3; 9; 2; 2; 0; 4; 8]%R)
    = Some (self', NdArray [1; 1; 2] v)
    /\ Forall2 eq v [3; 9]%R.
Proof.
  eexists _, _. split; [reflexivity|]. eval_lists. eval_Rmax.
  repeat constructor.
Qed.

(** In the second block the maximum 9 is reached twice: the gradient goes to
    the first of the two positions. *)
Example maxpool_backward_tie :
  exists self' v,
    MaxPoolingLayer.backward
      (MaxPoolingLayer.Build 2
         (Some (NdArray [1; 2; 4] [1; 3; 9; 2; 2; 0; 4; 9]%R)))
      (NdArray [1; 1; 2] [7; 5]%R) 0
    = Some (self', NdArray [1; 2; 4] v)
    /\ Forall2 eq v [0; 0 + 7; 0 + 5; 0; 0; 0; 0; 0]%R.
Proof.
  unfold MaxPoolingLayer.backward. eval_lists. eval_Rlt.
  eexists _, _. split; [reflexivity|]. repeat constructor.
Qed.

(** A fully-connected layer from 2 to 3 entries. *)
Example fc_forward_2_3 :
  exists self' v,
    FCLayer.forward
      (FCLayer.Build 2 3 (NdArray [2; 3] [1; 2; 3; 4; 5; 6]%R)
         (NdArray [3; 1] [10; 20; 30]%R) None None)
      (NdArray [2; 1] [1; 1]%R)
    = Some (self', NdArray [3; 1] v)
    /\ Forall2 eq v [15; 27; 39]%R.
Proof.
  eexists _, _. split; [reflexivity|]. eval_lists.
  repeat constructor; lra.
Qed.

Example fc_backward_2_3 :
  exists self' v w b,
    FCLayer.backward
      (FCLayer.Build 2 3 (NdArray [2; 3] [1; 2; 3; 4; 5; 6]%R)
         (NdArray [3; 1] [10; 20; 30]%R) (Some (NdArray [2; 1] [1; 2]%R)) None)
      (NdArray [3; 1] [1; 0; 1]%R) 1
    = Some (self', NdArray [2; 1] v)
    /\ Forall2 eq v [4; 10]%R
    /\ FCLayer.conv_filter self' = NdArray [2; 3] w
    /\ Forall2 eq w [0; 2; 2; 2; 5; 4]%R
    /\ FCLayer.bias self' = NdArray [3; 1] b
    /\ Forall2 eq b [9; 20; 29]%R.
Proof.
  eexists _, _, _, _. split; [reflexivity|]. eval_lists.
  split; [repeat constructor; lra|]. split; [reflexivity|].
  split; [repeat constructor; lra|]. split; [reflexivity|].
  repeat constructor; lra.
Qed.

(** Softmax of two equal entries. *)
Example softmax_forward_equal :
  exists self' p q,
    SoftmaxLayer.forward (SoftmaxLayer.Build None) (NdArray [2; 1] [3; 3]%R)
    = Some (self', NdArray [2; 1] [p; q])
    /\ (p = 1 / 2 /\ q = 1 / 2)%R.
Proof.
  eexists _, _, _. split; [reflexivity|]. eval_lists. eval_Rmax.
  replace (3 - 3)%R with 0%R by lra. rewrite exp_0. split; lra.
Qed.

(** ** Instances of the theorems *)

Lemma conv_forward_spec_witness :
  conv_wf (unit_conv None)
  /\ shape (NdArray [1; 1] [5%R]) = [1; 1]
  /\ valid (NdArray [1; 1] [5%R])
  /\ 1 <= 1
  /\ exists self' out,
       ConvolutionLayer.forward (unit_conv None) (NdArray [1; 1] [5%R])
       = Some (self', out)
       /\ shape out = [1; 1; 1]
       /\ get out [0; 0; 0] = Some 5%R.
Proof.
  assert (conv_wf (unit_conv None)) as Hwf by (repeat split; reflexivity).
  split; [exact Hwf|]. split; [reflexivity|]. split; [reflexivity|].
  split; [lia|].
  destruct (conv_forward_spec (unit_conv None) (NdArray [1; 1] [5%R]) 1 1 Hwf
              eq_refl eq_refl (le_n 1) (le_n 1))
    as (self' & out & Hf & Hs & _ & Hc).
  exists self', out. split; [exact Hf|]. split; [exact Hs|].
  rewrite (Hc 0 0 0) by (simpl; lia). f_equal.
  change (5 * 1 + 0 + 0 + 0 = 5)%R. lra.
Defined.

Lemma conv_backward_spec_witness :
  conv_wf (unit_conv (Some (NdArray [1; 1] [5%R])))
  /\ 0 < 1
  /\ shape (NdArray [1; 1; 1] [2%R]) = [1; 1; 1]
  /\ valid (NdArray [1; 1; 1] [2%R])
  /\ exists self' input_error,
       ConvolutionLayer.backward (unit_conv (Some (NdArray [1; 1] [5%R])))
         (NdArray [1; 1; 1] [2%R]) 0
       = Some (self', input_error)
       /\ shape input_error = [1; 1]
       /\ get input_error [0; 0] = Some 2%R.
Proof.
  assert (conv_wf (unit_conv (Some (NdArray [1; 1] [5%R])))) as Hwf
    by (repeat split; reflexivity).
  split; [exact Hwf|]. split; [lia|]. split; [reflexivity|].
  split; [reflexivity|].
  destruct (conv_backward_spec (unit_conv (Some (NdArray [1; 1] [5%R])))
              (NdArray [1; 1] [5%R]) (NdArray [1; 1; 1] [2%R]) 1 1 0%R Hwf
              (le_n 1) eq_refl eq_refl eq_refl (le_n 1) (le_n 1) eq_refl eq_refl)
    as (self' & ie & Hb & Hs & _ & Hc & _).
  exists self', ie. split; [exact Hb|]. split; [exact Hs|].
  rewrite (Hc 0 0) by (simpl; lia). f_equal.
  change (2 * 1 + 0 + 0 + 0 = 2)%R. lra.
Defined.

Lemma maxpool_backward_spec_witness :
  0 < 2
  /\ shape (NdArray [1; 2; 2] [1; 3; 2; 0]%R) = [1; 1 * 2; 1 * 2]
  /\ valid (NdArray [1; 2; 2] [1; 3; 2; 0]%R)
  /\ shape (NdArray [1; 1; 1] [7%R]) = [1; 1; 1]
  /\ valid (NdArray [1; 1; 1] [7%R])
  /\ exists self' input_error,
       MaxPoolingLayer.backward
         (MaxPoolingLayer.Build 2 (Some (NdArray [1; 2; 2] [1; 3; 2; 0]%R)))
         (NdArray [1; 1; 1] [7%R]) 0
       = Some (self', input_error)
       /\ np.sum input_error = np.sum (NdArray [1; 1; 1] [7%R]).
Proof.
  split; [lia|]. split; [reflexivity|]. split; [reflexivity|].
  split; [reflexivity|]. split; [reflexivity|].
  destruct (maxpool_backward_spec
              (MaxPoolingLayer.Build 2 (Some (NdArray [1; 2; 2] [1; 3; 2; 0]%R)))
              (NdArray [1; 2; 2] [1; 3; 2; 0]%R) (NdArray [1; 1; 1] [7%R])
              1 1 1 0%R (le_S 1 1 (le_n 1)) eq_refl eq_refl eq_refl eq_refl eq_refl)
    as (self' & ie & Hb & _ & _ & Hsum & _).
  exists self', ie. split; [exact Hb | exact Hsum].
Defined.

(** The example of the specification: 100 samples and the ratio 0.8 give 80
    train and 20 validation indices, disjoint and covering [0 .. 99]. *)
Lemma split_data_spec_witness :
  (Z.of_nat (length (seq 0 100)) < 2 ^ 53)%Z
  /\ float.value train_ratio_default
     = Some (7205759403792794 / 9007199254740992)%R
  /\ (0 < 7205759403792794 / 9007199254740992 <= 1)%R
  /\ length (seq 0 100) = length (seq 0 100)
  /\ exists g' tr va X_train Y_train X_val Y_val,
       split_data (random.Build (fun i => i) 0) (seq 0 100) (seq 0 100)
         train_ratio_default
       = Some (g', (X_train, Y_train, X_val, Y_val))
       /\ take_rows (seq 0 100) tr = Some X_train
       /\ take_rows (seq 0 100) va = Some X_val
       /\ length tr = 80 /\ length va = 20
       /\ length X_train = 80 /\ length X_val = 20
       /\ (forall i, i ∈ tr -> i ∉ va)
       /\ (forall i, i ∈ tr \/ i ∈ va <-> i < 100).
Proof.
  assert (Z.of_nat (length (seq 0 100)) < 2 ^ 53)%Z as HN by (by vm_compute).
  assert (0 < 7205759403792794 / 9007199254740992 <= 1)%R as Hr by lra.
  split; [exact HN|]. split; [exact train_ratio_default_value|].
  split; [exact Hr|]. split; [reflexivity|].
  destruct (split_data_spec (random.Build (fun i => i) 0) (seq 0 100)
              (seq 0 100) train_ratio_default _ HN train_ratio_default_value
              Hr eq_refl)
    as (g' & tr & va & Xt & Yt & Xv & Yv & _ & Hsd & HXt & _ & HXv & _ & Hk
        & _ & Hva & HlXt & _ & HlXv & _ & _ & _ & Hdisj & Hcover).
  change (length (seq 0 100)) with 100 in Hk, Hva, Hcover.
  assert (num_train_samples 100 train_ratio_default = Some 80%Z) as Hk80
    by (by vm_compute).
  rewrite Hk80 in Hk. injection Hk as Hk.
  assert (length tr = 80) as Htr by lia.
  assert (length va = 20) as Hlva by lia.
  exists g', tr, va, Xt, Yt, Xv, Yv.
  split; [exact Hsd|]. split; [exact HXt|]. split; [exact HXv|].
  split; [exact Htr|]. split; [exact Hlva|].
  split; [by rewrite HlXt|]. split; [by rewrite HlXv|].
  split; [exact Hdisj | exact Hcover].
Defined.

(** The size of the train set is not always [floor (N * r)]: for 10 samples
    and the ratio 0.7 the exact product of 10 and the binary64 number 0.7 is
    below 7 and floors to 6, but the binary64 product is 7.0, and
    [split_data] draws 7 train indices. *)
Lemma split_data_spec_counterexample :
  split_indices zero_generator 10 ratio_0_7
  = Some (random.Build (fun _ => 0) 9, [1; 2; 3; 4; 5; 6; 7], [8; 9; 0])
  /\ exists x,
       float.value ratio_0_7 = Some x /\ (0 < x <= 1)%R
       /\ Zfloor (INR 10 * x) = 6%Z
       /\ Z.of_nat (length [1; 2; 3; 4; 5; 6; 7]) <> Zfloor (INR 10 * x).
Proof.
  split; [by vm_compute|].
  exists (6305039478318694 / 9007199254740992)%R.
  assert (Zfloor (INR 10 * (6305039478318694 / 9007199254740992)) = 6%Z)
    as Hfl.
  { apply Zfloor_eq. rewrite INR_IZR_INZ. change (Z.of_nat 10) with 10%Z.
    lra. }
  split; [exact ratio_0_7_value|]. split; [lra|]. split; [exact Hfl|].
  rewrite Hfl. done.
Qed.

Lemma flatten_roundtrip_witness :
  shape (NdArray [1; 1; 2] [1; 2]%R) = [1; 1; 2]
  /\ valid (NdArray [1; 1; 2] [1; 2]%R)
  /\ exists self' y,
       FlattenLayer.forward (FlattenLayer.Build None) (NdArray [1; 1; 2] [1; 2]%R)
       = Some (self', y)
       /\ shape y = [1 * 1 * 2; 1]
       /\ exists self'',
            FlattenLayer.backward self' y 0
            = Some (self'', NdArray [1; 1; 2] [1; 2]%R).
Proof.
  split; [reflexivity|]. split; [reflexivity|].
  destruct (flatten_roundtrip (FlattenLayer.Build None)
              (NdArray [1; 1; 2] [1; 2]%R) 1 1 2 0%R eq_refl eq_refl)
    as (self' & y & Hf & Hs & _ & _ & Hb).
  exists self', y. split; [exact Hf|]. split; [exact Hs | exact Hb].
Defined.

Lemma softmax_forward_spec_witness :
  0 < 2
  /\ shape (NdArray [2; 1] [0; 0]%R) = [2; 1]
  /\ valid (NdArray [2; 1] [0; 0]%R)
  /\ exists self' y,
       SoftmaxLayer.forward (SoftmaxLayer.Build None) (NdArray [2; 1] [0; 0]%R)
       = Some (self', y)
       /\ Forall (fun p => 0 <= p)%R (data y)
       /\ np.sum y = 1%R.
Proof.
  split; [lia|]. split; [reflexivity|]. split; [reflexivity|].
  destruct (softmax_forward_spec (SoftmaxLayer.Build None)
              (NdArray [2; 1] [0; 0]%R) 2 (le_S 1 1 (le_n 1)) eq_refl eq_refl)
    as (self' & y & Hf & _ & _ & _ & Hpos & Hsum & _).
  exists self', y. split; [exact Hf|]. split; [exact Hpos | exact Hsum].
Defined.

Lemma train_deterministic_witness :
  clear_cache <$> [ReLU (ReLULayer.Build None)]
  = clear_cache <$> [ReLU (ReLULayer.Build (Some (np.zeros [1])))]
  /\ train (NdArray [2; 1] [0; 255]%R) 1 [ReLU (ReLULayer.Build None)] 0.005
     = train (NdArray [2; 1] [0; 255]%R) 1
         [ReLU (ReLULayer.Build (Some (np.zeros [1])))] 0.005.
Proof.
  split; [reflexivity|]. apply train_deterministic. reflexivity.
Defined.

Lemma train_spec_witness :
  exists layers1 out,
    forward_all [Softmax (SoftmaxLayer.Build None)]
      (smap (fun x => x / 255 - 0.5)%R (NdArray [2; 1] [0; 255]%R))
    = Some (layers1, out)
    /\ shape out = [2; 1]
    /\ valid out
    /\ 1 < 2
    /\ exists output_error,
         initial_error out 1 = Some output_error
         /\ get output_error [0; 0] = Some 0%R
         /\ get output_error [1; 0] = Some (-1 / cell out [1; 0]%nat)%R.
Proof.
  eexists _, _. split; [reflexivity|]. split; [reflexivity|].
  split; [reflexivity|]. split; [lia|].
  edestruct (train_spec (NdArray [2; 1] [0; 255]%R) 1
               [Softmax (SoftmaxLayer.Build None)] _ 0.005%R _ 2 eq_refl
               eq_refl eq_refl (le_n 2))
    as (oe & am & Hoe & _ & Hget & _).
  exists oe. split; [exact Hoe|]. split.
  - apply (Hget 0). lia.
  - apply (Hget 1). lia.
Defined.

Lemma unit_fc_wf input : fc_wf (unit_fc input).
Proof. repeat split; reflexivity. Qed.

Lemma fc_forward_spec_witness :
  fc_wf (unit_fc None)
  /\ shape (NdArray [1; 1] [3%R]) = [1; 1]
  /\ valid (NdArray [1; 1] [3%R])
  /\ exists self' y,
       FCLayer.forward (unit_fc None) (NdArray [1; 1] [3%R]) = Some (self', y)
       /\ shape y = [1; 1]
       /\ get y [0; 0] = Some 7%R.
Proof.
  split; [apply unit_fc_wf|]. split; [reflexivity|]. split; [reflexivity|].
  destruct (fc_forward_spec (unit_fc None) (NdArray [1; 1] [3%R])
              (unit_fc_wf None) eq_refl eq_refl)
    as (self' & y & Hf & Hs & _ & _ & _ & _ & _ & Hc).
  exists self', y. split; [exact Hf|]. split; [exact Hs|].
  rewrite (Hc 0) by (simpl; lia). f_equal.
  eval_lists. lra.
Defined.

Lemma fc_backward_spec_witness :
  fc_wf (unit_fc (Some (NdArray [1; 1] [3%R])))
  /\ shape (NdArray [1; 1] [3%R]) = [1; 1]
  /\ valid (NdArray [1; 1] [3%R])
  /\ shape (NdArray [1; 1] [1%R]) = [1; 1]
  /\ valid (NdArray [1; 1] [1%R])
  /\ exists self' input_error,
       FCLayer.backward (unit_fc (Some (NdArray [1; 1] [3%R])))
         (NdArray [1; 1] [1%R]) 1
       = Some (self', input_error)
       /\ get input_error [0; 0] = Some 2%R
       /\ get (FCLayer.conv_filter self') [0; 0] = Some (-1)%R
       /\ get (FCLayer.bias self') [0; 0] = Some 0%R.
Proof.
  split; [apply unit_fc_wf|]. do 4 (split; [reflexivity|]).
  destruct (fc_backward_spec (unit_fc (Some (NdArray [1; 1] [3%R])))
              (NdArray [1; 1] [3%R]) (NdArray [1; 1] [1%R]) 1%R
              (unit_fc_wf _) eq_refl eq_refl eq_refl eq_refl eq_refl)
    as (self' & ie & Hb & _ & _ & Hie & _ & _ & _ & _ & HW & HB).
  exists self', ie. split; [exact Hb|]. split; [|split].
  - rewrite (Hie 0) by (simpl; lia). f_equal. eval_lists. lra.
  - rewrite (HW 0 0) by (simpl; lia). f_equal.
    eval_lists. lra.
  - rewrite (HB 0) by (simpl; lia). f_equal. eval_lists. lra.
Defined.

Lemma fc_backward_adjoint_witness :
  fc_wf (unit_fc (Some (NdArray [1; 1] [3%R])))
  /\ valid (NdArray [1; 1] [3%R])
  /\ valid (NdArray [1; 1] [1%R])
  /\ valid (NdArray [1; 1] [5%R])
  /\ exists self' input_error self0 y,
       FCLayer.backward (unit_fc (Some (NdArray [1; 1] [3%R])))
         (NdArray [1; 1] [1%R]) 1
       = Some (self', input_error)
       /\ FCLayer.forward
            (FCLayer.Build 1 1 (NdArray [1; 1] [2%R]) (np.zeros [1; 1]) None
               None)
            (NdArray [1; 1] [5%R])
          = Some (self0, y)
       /\ inner y (NdArray [1; 1] [1%R])
          = inner (NdArray [1; 1] [5%R]) input_error.
Proof.
  split; [apply unit_fc_wf|]. do 3 (split; [reflexivity|]).
  exact (fc_backward_adjoint (unit_fc (Some (NdArray [1; 1] [3%R])))
           (NdArray [1; 1] [3%R]) (NdArray [1; 1] [5%R]) (NdArray [1; 1] [1%R])
           1%R (unit_fc_wf _) eq_refl eq_refl eq_refl eq_refl eq_refl eq_refl
           eq_refl).
Defined.

Lemma fc_step_moves_output_witness :
  fc_wf (unit_fc None)
  /\ valid (NdArray [1; 1] [3%R])
  /\ valid (NdArray [1; 1] [1%R])
  /\ exists self1 y self2 input_error self3 y',
       FCLayer.forward (unit_fc None) (NdArray [1; 1] [3%R]) = Some (self1, y)
       /\ FCLayer.backward self1 (NdArray [1; 1] [1%R]) 1
          = Some (self2, input_error)
       /\ FCLayer.forward self2 (NdArray [1; 1] [3%R]) = Some (self3, y')
       /\ exists d, get y' [0; 0] = Some (cell y [0; 0]%nat - d)%R
                    /\ d = 10%R.
Proof.
  split; [apply unit_fc_wf|]. do 2 (split; [reflexivity|]).
  destruct (fc_step_moves_output (unit_fc None) (NdArray [1; 1] [3%R])
              (NdArray [1; 1] [1%R]) 1%R (unit_fc_wf _) eq_refl eq_refl
              eq_refl eq_refl)
    as (s1 & y & s2 & ie & s3 & y' & H1 & H2 & H3 & Hc).
  exists s1, y, s2, ie, s3, y'. do 3 (split; [assumption|]).
  eexists. split; [apply (Hc 0); simpl; lia|]. eval_lists. lra.
Defined.

Lemma softmax_backward_spec_witness :
  SoftmaxLayer.output (SoftmaxLayer.Build (Some (NdArray [2; 1] [1; 0]%R)))
  = Some (NdArray [2; 1] [1; 0]%R)
  /\ valid (NdArray [2; 1] [1; 0]%R)
  /\ valid (NdArray [2; 1] [3; 4]%R)
  /\ exists input_error,
       SoftmaxLayer.backward
         (SoftmaxLayer.Build (Some (NdArray [2; 1] [1; 0]%R)))
         (NdArray [2; 1] [3; 4]%R) 0
       = Some (SoftmaxLayer.Build (Some (NdArray [2; 1] [1; 0]%R)),
               input_error)
       /\ get input_error [0; 0] = Some 0%R.
Proof.
  do 3 (split; [reflexivity|]).
  destruct (softmax_backward_spec
              (SoftmaxLayer.Build (Some (NdArray [2; 1] [1; 0]%R)))
              (NdArray [2; 1] [1; 0]%R) (NdArray [2; 1] [3; 4]%R) 2 0%R
              eq_refl eq_refl eq_refl eq_refl eq_refl)
    as (ie & Hb & _ & _ & Hc).
  exists ie. split; [exact Hb|].
  rewrite (Hc 0) by lia. f_equal.
  eval_lists. lra.
Defined.

Lemma softmax_backward_sum_zero_witness :
  0 < 2
  /\ valid (NdArray [2; 1] [0; 0]%R)
  /\ valid (NdArray [2; 1] [3; 4]%R)
  /\ exists self' y input_error,
       SoftmaxLayer.forward (SoftmaxLayer.Build None) (NdArray [2; 1] [0; 0]%R)
       = Some (self', y)
       /\ SoftmaxLayer.backward self' (NdArray [2; 1] [3; 4]%R) 0
          = Some (self', input_error)
       /\ np.sum input_error = 0%R.
Proof.
  split; [lia|]. do 2 (split; [reflexivity|]).
  exact (softmax_backward_sum_zero (SoftmaxLayer.Build None)
           (NdArray [2; 1] [0; 0]%R) (NdArray [2; 1] [3; 4]%R) 2 0%R
           (le_S 1 1 (le_n 1)) eq_refl eq_refl eq_refl eq_refl).
Defined.

Lemma softmax_forward_argmax_witness :
  0 < 2
  /\ valid (NdArray [2; 1] [0; 1]%R)
  /\ exists self' y am,
       SoftmaxLayer.forward (SoftmaxLayer.Build None) (NdArray [2; 1] [0; 1]%R)
       = Some (self', y)
       /\ np.argmax (NdArray [2; 1] [0; 1]%R) = Some am
       /\ np.argmax y = Some am.
Proof.
  split; [lia|]. split; [reflexivity|].
  exact (softmax_forward_argmax (SoftmaxLayer.Build None)
           (NdArray [2; 1] [0; 1]%R) 2 (le_S 1 1 (le_n 1)) eq_refl eq_refl).
Defined.

Lemma unit_conv_wf input : conv_wf (unit_conv input).
Proof. repeat split; reflexivity. Qed.

Lemma conv_backward_update_witness :
  conv_wf (unit_conv (Some (NdArray [1; 1] [5%R])))
  /\ 0 < 1
  /\ valid (NdArray [1; 1] [5%R])
  /\ valid (NdArray [1; 1; 1] [2%R])
  /\ exists self' input_error,
       ConvolutionLayer.backward (unit_conv (Some (NdArray [1; 1] [5%R])))
         (NdArray [1; 1; 1] [2%R]) 1
       = Some (self', input_error)
       /\ get (ConvolutionLayer.conv_filter self') [0; 0; 0] = Some (-9)%R
       /\ get (ConvolutionLayer.bias self') [0] = Some (-2)%R.
Proof.
  split; [apply unit_conv_wf|]. split; [lia|]. do 2 (split; [reflexivity|]).
  destruct (conv_backward_update (unit_conv (Some (NdArray [1; 1] [5%R])))
              (NdArray [1; 1] [5%R]) (NdArray [1; 1; 1] [2%R]) 1 1 1%R
              (unit_conv_wf _) (le_n 1) eq_refl eq_refl eq_refl (le_n 1)
              (le_n 1) eq_refl eq_refl)
    as (self' & ie & Hb & _ & _ & _ & _ & HK & HB).
  exists self', ie. split; [exact Hb|]. split.
  - rewrite (HK 0 0 0) by (simpl; lia). f_equal.
    eval_lists. lra.
  - rewrite (HB 0) by (simpl; lia). f_equal.
    eval_lists. lra.
Defined.

Lemma conv_forward_returns_iff_witness :
  conv_wf (unit_conv None)
  /\ valid (NdArray [1; 1] [5%R])
  /\ (is_Some (ConvolutionLayer.forward (unit_conv None) (NdArray [1; 1] [5%R]))
      <-> 1 <= 1 + 1 /\ 1 <= 1 + 1).
Proof.
  split; [apply unit_conv_wf|]. split; [reflexivity|].
  exact (conv_forward_returns_iff (unit_conv None) (NdArray [1; 1] [5%R]) 1 1
           (unit_conv_wf _) eq_refl eq_refl).
Defined.

Lemma conv_backward_zero_filter_witness :
  ConvolutionLayer.backward
    (ConvolutionLayer.Build 1 0 (NdArray [1; 0; 0] []) (NdArray [1] [0%R])
       (Some (NdArray [1; 1] [5%R])))
    (NdArray [1; 2; 2] [1; 1; 1; 1]%R) 0
  = None.
Proof. apply conv_backward_zero_filter; [reflexivity | simpl; lia]. Defined.

Lemma relu_backward_spec_witness :
  valid (NdArray [2] [-1; 3]%R)
  /\ valid (NdArray [2] [7; 8]%R)
  /\ exists self' y input_error,
       ReLULayer.forward (ReLULayer.Build None) (NdArray [2] [-1; 3]%R)
       = Some (self', y)
       /\ ReLULayer.backward self' (NdArray [2] [7; 8]%R) 0
          = Some (self', input_error)
       /\ shape input_error = [2].
Proof.
  do 2 (split; [reflexivity|]).
  destruct (relu_backward_spec (ReLULayer.Build None) (NdArray [2] [-1; 3]%R)
              (NdArray [2] [7; 8]%R) 0%R eq_refl eq_refl eq_refl)
    as (self' & y & ie & Hf & Hb & Hs & _).
  exists self', y, ie. split; [exact Hf|]. split; [exact Hb | exact Hs].
Defined.

Lemma maxpool_forward_spec_witness :
  0 < 2
  /\ valid (NdArray [1; 3; 2] [1; 3; 2; 0; 9; 9]%R)
  /\ exists out,
       MaxPoolingLayer.forward (MaxPoolingLayer.Build 2 None)
         (NdArray [1; 3; 2] [1; 3; 2; 0; 9; 9]%R)
       = Some (MaxPoolingLayer.Build 2
                 (Some (NdArray [1; 3; 2] [1; 3; 2; 0; 9; 9]%R)), out)
       /\ shape out = [1; 1; 1].
Proof.
  split; [lia|]. split; [reflexivity|].
  destruct (maxpool_forward_spec (MaxPoolingLayer.Build 2 None)
              (NdArray [1; 3; 2] [1; 3; 2; 0; 9; 9]%R) 1 3 2
              (le_S 1 1 (le_n 1)) eq_refl eq_refl)
    as (out & Hf & Hs & _).
  exists out. split; [exact Hf | exact Hs].
Defined.

Lemma maxpool_forward_returns_iff_witness :
  valid (NdArray [1; 2; 2] [1; 3; 2; 0]%R)
  /\ (is_Some (MaxPoolingLayer.forward (MaxPoolingLayer.Build 0 None)
                 (NdArray [1; 2; 2] [1; 3; 2; 0]%R))
      <-> 0 < 0).
Proof.
  split; [reflexivity|].
  exact (maxpool_forward_returns_iff (MaxPoolingLayer.Build 0 None)
           (NdArray [1; 2; 2] [1; 3; 2; 0]%R) 1 2 2 eq_refl eq_refl).
Defined.

Lemma maxpool_backward_hits_max_witness :
  0 < 2
  /\ valid (NdArray [1; 2; 2] [1; 3; 2; 0]%R)
  /\ valid (NdArray [1; 1; 1] [7%R])
  /\ exists self' out input_error,
       MaxPoolingLayer.forward (MaxPoolingLayer.Build 2 None)
         (NdArray [1; 2; 2] [1; 3; 2; 0]%R)
       = Some (self', out)
       /\ MaxPoolingLayer.backward self' (NdArray [1; 1; 1] [7%R]) 0
          = Some (self', input_error)
       /\ exists r c,
            r < 2 /\ c < 2
            /\ get out [0; 0; 0]
               = Some (cell (NdArray [1; 2; 2] [1; 3; 2; 0]%R) [0; r; c])
            /\ get input_error [0; r; c] = Some 7%R.
Proof.
  split; [lia|]. do 2 (split; [reflexivity|]).
  destruct (maxpool_backward_hits_max (MaxPoolingLayer.Build 2 None)
              (NdArray [1; 2; 2] [1; 3; 2; 0]%R) (NdArray [1; 1; 1] [7%R])
              1 1 1 0%R (le_S 1 1 (le_n 1)) eq_refl eq_refl eq_refl eq_refl)
    as (self' & out & ie & Hf & Hb & Hc).
  exists self', out, ie. split; [exact Hf|]. split; [exact Hb|].
  destruct (Hc 0 0 0) as (r & c & Hr & Hcc & Ho & Hie); [lia..|].
  exists r, c. split; [exact Hr|]. split; [exact Hcc|].
  split; [exact Ho | exact Hie].
Defined.

Lemma train_softmax_gradient_witness :
  valid (NdArray [2; 1] [0; 0]%R)
  /\ 1 < 2
  /\ exists self' y output_error input_error,
       SoftmaxLayer.forward (SoftmaxLayer.Build None) (NdArray [2; 1] [0; 0]%R)
       = Some (self', y)
       /\ initial_error y 1 = Some output_error
       /\ SoftmaxLayer.backward self' output_error 0
          = Some (self', input_error)
       /\ get input_error [0; 0] = Some (cell y [0; 0]%nat - 0)%R
       /\ get input_error [1; 0] = Some (cell y [1; 0]%nat - 1)%R.
Proof.
  split; [reflexivity|]. split; [lia|].
  destruct (train_softmax_gradient (SoftmaxLayer.Build None)
              (NdArray [2; 1] [0; 0]%R) 2 1 0%R eq_refl eq_refl (le_n 2))
    as (self' & y & oe & ie & Hf & Hoe & Hb & Hc).
  exists self', y, oe, ie. do 3 (split; [assumption|]). split.
  - apply (Hc 0). lia.
  - apply (Hc 1). lia.
Defined.

Lemma train_loss_nonneg_witness :
  exists loss acc layers',
    train (NdArray [2; 1] [0; 255]%R) 1
      ([] ++ [Softmax (SoftmaxLayer.Build None)]) 0.005
    = Some (loss, acc, layers')
    /\ (0 <= loss)%R /\ acc <= 1.
Proof.
  eexists _, _, _. split; [reflexivity|].
  eapply (train_loss_nonneg (NdArray [2; 1] [0; 255]%R) 1 []
            [] (SoftmaxLayer.Build None) _ 2 0.005%R);
    [reflexivity|reflexivity|reflexivity|lia|reflexivity].
Defined.

Lemma train_label_out_of_range_witness :
  train (NdArray [2; 1] [0; 255]%R) 2 [Softmax (SoftmaxLayer.Build None)] 0.005
  = None.
Proof.
  eapply (train_label_out_of_range _ 2 _ _ _ 2 [1]);
    [reflexivity|reflexivity|lia].
Defined.

Lemma split_data_keeps_pairs_witness :
  exists g' X_train Y_train X_val Y_val,
    split_data counting_generator [1; 2; 3; 4; 5] [10; 20; 30; 40; 50]
      train_ratio_default
    = Some (g', (X_train, Y_train, X_val, Y_val))
    /\ length X_train = 4
    /\ zip X_train Y_train ++ zip X_val Y_val
       ≡ₚ zip [1; 2; 3; 4; 5] [10; 20; 30; 40; 50].
Proof.
  eexists _, _, _, _, _. split; [by vm_compute|]. split; [reflexivity|].
  eapply (split_data_keeps_pairs counting_generator _ [1; 2; 3; 4; 5] _ _
            [10; 20; 30; 40; 50] _ _ train_ratio_default).
  by vm_compute.
Defined.

Lemma unit_cnn_wf : cnn_wf 1 1 1 unit_cnn.
Proof.
  exists (unit_conv None), (ReLULayer.Build None),
    (MaxPoolingLayer.Build 1 None), (FlattenLayer.Build None), (unit_fc None),
    (SoftmaxLayer.Build None), 1, 1.
  cbv zeta. split; [reflexivity|]. split; [apply unit_conv_wf|].
  split; [apply unit_fc_wf|]. simpl. repeat split; lia.
Qed.

Lemma train_cnn_keeps_wf_witness :
  cnn_wf 1 1 1 unit_cnn
  /\ valid (NdArray [1; 1] [255%R])
  /\ 0 < 1
  /\ exists loss acc layers',
       train (NdArray [1; 1] [255%R]) 0 unit_cnn 0.005
       = Some (loss, acc, layers')
       /\ cnn_wf 1 1 1 layers'.
Proof.
  split; [apply unit_cnn_wf|]. split; [reflexivity|]. split; [lia|].
  exact (train_cnn_keeps_wf (NdArray [1; 1] [255%R]) 0 unit_cnn 0.005%R 1 1 1
           unit_cnn_wf eq_refl eq_refl (le_n 1)).
Defined.

Lemma train_cnn_lr0_witness :
  cnn_wf 1 1 1 unit_cnn
  /\ valid (NdArray [1; 1] [255%R])
  /\ 0 < 1
  /\ exists loss acc layers',
       train (NdArray [1; 1] [255%R]) 0 unit_cnn 0
       = Some (loss, acc, layers')
       /\ clear_cache <$> layers' = clear_cache <$> unit_cnn.
Proof.
  split; [apply unit_cnn_wf|]. split; [reflexivity|]. split; [lia|].
  exact (train_cnn_lr0 (NdArray [1; 1] [255%R]) 0 unit_cnn 1 1 1
           unit_cnn_wf eq_refl eq_refl (le_n 1)).
Defined.

Lemma small_cnn_wf : cnn_wf 5 5 3 small_cnn.
Proof.
  exists small_conv, (ReLULayer.Build None), (MaxPoolingLayer.Build 2 None),
    (FlattenLayer.Build None), small_fc, (SoftmaxLayer.Build None), 2, 2.
  cbv zeta. split; [reflexivity|].
  split; [repeat split; reflexivity|]. split; [repeat split; reflexivity|].
  simpl. repeat split; lia.
Qed.

Lemma gray_images_ok H W count :
  Forall (fun im => shape im = [H; W] /\ valid im) (gray_images H W count).
Proof.
  unfold gray_images. apply Forall_fmap, Forall_forall. intros i _.
  split; [reflexivity|]. unfold valid, gray_image. cbn [shape data numel foldr].
  rewrite length_replicate. lia.
Qed.

Lemma cyclic_labels_lt n count :
  0 < n -> Forall (fun l => l < n) (cyclic_labels n count).
Proof.
  intros Hn. unfold cyclic_labels. apply Forall_fmap, Forall_forall.
  intros i _. apply Nat.mod_upper_bound. lia.
Qed.

Lemma step_lines_one n lines :
  n / 100 = 1 -> step_lines n lines ->
  exists average_loss accuracy,
    lines = [StepLine 100 average_loss accuracy] /\ accuracy <= 99.
Proof.
  intros Hn [Hlen Hlines]. rewrite Hn in Hlen.
  destruct lines as [|l [|? ?]]; try discriminate Hlen.
  destruct (Hlines 0 l eq_refl) as (a & c & -> & Hc).
  exists a, c. split; [reflexivity | exact Hc].
Qed.

Lemma step_lines_two n lines :
  n / 100 = 2 -> step_lines n lines ->
  exists a1 c1 a2 c2,
    lines = [StepLine 100 a1 c1; StepLine 200 a2 c2]
    /\ c1 <= 99 /\ c2 <= 100.
Proof.
  intros Hn [Hlen Hlines]. rewrite Hn in Hlen.
  destruct lines as [|l1 [|l2 [|? ?]]]; try discriminate Hlen.
  destruct (Hlines 0 l1 eq_refl) as (a1 & c1 & -> & Hc1).
  destruct (Hlines 1 l2 eq_refl) as (a2 & c2 & -> & Hc2).
  exists a1, c1, a2, c2. split; [reflexivity|]. split; [exact Hc1 | exact Hc2].
Qed.

(** 250 samples of 5 by 5 pixels and three classes, on the small network:
    the pass prints the lines of steps 100 and 200. *)
Lemma train_loop_prints_witness :
  exists layers' loss' nc' a1 c1 a2 c2,
    train_loop 0 (zip (gray_images 5 5 250) (cyclic_labels 3 250))
      (small_cnn, 0%R, 0, [])
    = Some (layers', loss', nc', [StepLine 100 a1 c1; StepLine 200 a2 c2])
    /\ c1 <= 99 /\ c2 <= 100.
Proof.
  destruct (train_loop_returns 5 5 3
              (zip (gray_images 5 5 250) (cyclic_labels 3 250)) 0 small_cnn
              0%R 0 [] small_cnn_wf
              (sample_ok_zip 5 5 3 _ _ (gray_images_ok 5 5 250)
                 (cyclic_labels_lt 3 250 (Nat.lt_0_succ 2))))
    as (layers' & loss' & nc' & out' & Hloop & _).
  destruct (train_loop_prints _ _ _ _ _ _ _ Hloop) as (lines & -> & Hlines).
  assert (length (zip (gray_images 5 5 250) (cyclic_labels 3 250)) = 250)
    as Hlen.
  { unfold gray_images, cyclic_labels.
    rewrite length_zip_with, !length_fmap, !length_seq. reflexivity. }
  rewrite Hlen in Hlines.
  destruct (step_lines_two 250 lines eq_refl Hlines)
    as (a1 & c1 & a2 & c2 & -> & Hc1 & Hc2).
  exists layers', loss', nc', a1, c1, a2, c2.
  split; [exact Hloop|]. split; [exact Hc1 | exact Hc2].
Defined.

(** Three images with three labels: the shuffle brings them into the order
    1, 2, 0, each image with its label. *)
Lemma epoch_shuffle_keeps_pairs_witness :
  exists g' layers' out',
    epoch_body 0 (counting_generator, gray_images 5 5 3, [2; 0; 1], small_cnn, [])
    = Some (g', [gray_image 5 5 1; gray_image 5 5 2; gray_image 5 5 0],
            [0; 1; 2], layers', out')
    /\ zip [gray_image 5 5 1; gray_image 5 5 2; gray_image 5 5 0] [0; 1; 2]
       ≡ₚ zip (gray_images 5 5 3) [2; 0; 1].
Proof.
  destruct (epoch_body_returns 5 5 3 0 counting_generator (gray_images 5 5 3)
              [2; 0; 1] small_cnn [] small_cnn_wf (gray_images_ok 5 5 3))
    as (g' & images' & labels' & layers' & lines & Hres & _).
  { repeat constructor. }
  { apply le_n. }
  pose proof Hres as Hres'. unfold epoch_body in Hres'.
  change (random.permutation counting_generator (length (gray_images 5 5 3)))
    with (random.Build (random.draws counting_generator) 2, [1; 2; 0])
    in Hres'.
  cbv beta iota in Hres'.
  change (take_rows (gray_images 5 5 3) [1; 2; 0])
    with (Some [gray_image 5 5 1; gray_image 5 5 2; gray_image 5 5 0])
    in Hres'.
  change (take_rows [2; 0; 1] [1; 2; 0]) with (Some [0; 1; 2]) in Hres'.
  cbn [mbind option_bind] in Hres'.
  destruct (train_loop 0 _ _) as [[[[ls ?] ?] o]|]; [|discriminate Hres'].
  cbn [mbind option_bind] in Hres'.
  injection Hres' as _ HX HY _ _. subst images' labels'.
  exists g', layers', ([] ++ EpochLine (0 + 1) :: lines).
  split; [exact Hres|].
  exact (epoch_shuffle_keeps_pairs _ _ _ _ _ _ _ _ _ _ _ Hres).
Defined.

Lemma ramp_sample_well_shaped : well_shaped ramp_sample.
Proof.
  intros g sh. split; [reflexivity|]. unfold valid, ramp_sample, tab.
  cbn [snd shape data]. by rewrite length_fmap, length_seq.
Qed.

(** 130 images with changing grey levels and labels: 104 of them are trained
    on, and every epoch prints the line of step 100. *)
Lemma main_returns_witness :
  exists g' layers' a1 c1 a2 c2 a3 c3,
    main ramp_sample ramp_sample counting_generator
      (gray_images 28 28 130, cyclic_labels 10 130)
    = Some (g', layers',
            [EpochLine 1; StepLine 100 a1 c1;
             EpochLine 2; StepLine 100 a2 c2;
             EpochLine 3; StepLine 100 a3 c3])
    /\ cnn_wf 28 28 10 layers'
    /\ c1 <= 99 /\ c2 <= 99 /\ c3 <= 99.
Proof.
  assert (length (gray_images 28 28 130) = 130) as HlX.
  { unfold gray_images. by rewrite length_fmap, length_seq. }
  assert (length (cyclic_labels 10 130) = 130) as HlY.
  { unfold cyclic_labels. by rewrite length_fmap, length_seq. }
  destruct (main_returns ramp_sample ramp_sample counting_generator
              (gray_images 28 28 130) (cyclic_labels 10 130)
              ramp_sample_well_shaped ramp_sample_well_shaped)
    as (g' & layers' & l1 & l2 & l3 & Hmain & Hwf & H1 & H2 & H3).
  { rewrite HlX. by vm_compute. }
  { apply gray_images_ok. }
  { apply cyclic_labels_lt. lia. }
  { rewrite HlX, HlY. apply le_n. }
  rewrite HlX in H1, H2, H3.
  assert (Z.to_nat (Zfloor (INR 130 * 0.8)) = 104) as Hn.
  { rewrite Zfloor_default. reflexivity. }
  rewrite Hn in H1, H2, H3.
  destruct (step_lines_one 104 l1 eq_refl H1) as (a1 & c1 & -> & Hc1).
  destruct (step_lines_one 104 l2 eq_refl H2) as (a2 & c2 & -> & Hc2).
  destruct (step_lines_one 104 l3 eq_refl H3) as (a3 & c3 & -> & Hc3).
  exists g', layers', a1, c1, a2, c2, a3, c3.
  split; [exact Hmain|]. split; [exact Hwf|].
  split; [exact Hc1|]. split; [exact Hc2 | exact Hc3].
Defined.

Lemma flatten_returns_iff_witness :
  valid (NdArray [1; 1; 2] [1; 2]%R)
  /\ (is_Some (FlattenLayer.forward (FlattenLayer.Build None)
                 (NdArray [1; 1; 2] [1; 2]%R))
      <-> exists a b c rest,
            [1; 1; 2] = a :: b :: c :: rest
            /\ a * b * c * numel rest = a * b * c).
Proof.
  split; [reflexivity|].
  exact (proj1 (flatten_returns_iff (FlattenLayer.Build None)
                  (NdArray [1; 1; 2] [1; 2]%R) (NdArray [2; 1] [1; 2]%R) 0%R
                  eq_refl)).
Defined.
